(** * Exostra window manager (exostra.h): geometry, containers, windows,
      compositor and hit tester, embedded as Rocq functions.

    Conventions of the embedding.
    - [Coord] is [int16_t] and [Extent] is [uint16_t]; both are carried as [Z]
      and every narrowing conversion of the source is written out with
      [to_coord] / [to_extent].
    - [std::queue] and [std::deque] are lists, front of the queue first.
    - The header defines [EWM_ENABLE_ASSERTIONS], so a failing [EWM_ASSERT]
      logs and loops forever: the call never returns.  Where the result of a
      definition has room for it, a failing assertion is a result of its
      own: [None] for [deflate], for [Store.onInput] and
      [Store.routeMessage], and for [Manager.renderWindow] and the render
      pass built on it, [CtorHalt] and [CtorFault] for the constructor of
      [Window].  The definitions that return a state ([hitTest] and the
      handlers of a window class, [Hooks]) give the statements that run
      once the assertions on their way hold; those assertions are
      definitions of their own
      ([hitTest_asserts], [getClientRect_asserts], [messageAsserts],
      [drawAsserts], [queueAsserts]), and a theorem that says such a call
      returns takes them as hypotheses wherever the path it follows meets
      one.  [width()] and [height()] assert the invariant of [Rect],
      [right >= left] and [bottom >= top]; [width], [height] and [empty]
      compute on every rectangle, and the rectangles of windows are taken
      to be well formed ([wf_rect]).
    - [millis()] is an explicit argument of the operations that read it. *)

From Stdlib Require Import ZArith List Bool Lia.
Import ListNotations.
Local Open Scope Z_scope.
Set Warnings "-register-all".

(** ** Machine integers *)

Definition to_extent (z : Z) : Z := z mod 65536.
Definition to_coord (z : Z) : Z := (z + 32768) mod 65536 - 32768.
Definition to_u8 (z : Z) : Z := z mod 256.
Definition to_u16 (z : Z) : Z := z mod 65536.
Definition to_u32 (z : Z) : Z := z mod 4294967296.

Definition is_coord (z : Z) : Prop := -32768 <= z <= 32767.

(** [bitsHigh(bitmask, bits)] *)
Definition bitsHigh (bitmask bits : Z) : bool := Z.land bitmask bits =? bits.

(** ** Point and Rect *)

Record Rect := mkRect { left : Z; top : Z; right : Z; bottom : Z }.

(** [Rect()] *)
Definition Rect0 : Rect := mkRect 0 0 0 0.

(** [explicit Rect(Coord l, Coord t, Extent r, Extent b)]: the last two
    arguments pass through [Extent] before they are stored in a [Coord]. *)
Definition Rect_ctor (l t r b : Z) : Rect :=
  mkRect (to_coord l) (to_coord t)
         (to_coord (to_extent r)) (to_coord (to_extent b)).

Definition Rect_eqb (a b : Rect) : bool :=
  (left a =? left b) && (top a =? top b) &&
  (right a =? right b) && (bottom a =? bottom b).

Module RectOps.

Definition width (r : Rect) : Z := to_extent (right r - left r).
Definition height (r : Rect) : Z := to_extent (bottom r - top r).
Definition empty (r : Rect) : bool := (width r =? 0) || (height r =? 0).

Definition pointWithin (r : Rect) (x y : Z) : bool :=
  (x >=? left r) && (x <=? right r) && (y >=? top r) && (y <=? bottom r).

Definition overlapsRect (r other : Rect) : bool :=
  if (((top r >=? top other) && (top r <=? bottom other)) ||
      ((bottom r <=? bottom other) && (bottom r >=? top other))) &&
     (((left r <=? left other) && (right r >=? left other)) ||
      ((right r >=? right other) && (left r <=? right other)))
  then true
  else if (((left r >=? left other) && (left r <=? right other)) ||
           ((right r <=? right other) && (right r >=? left other))) &&
          (((top r <=? top other) && (bottom r >=? top other)) ||
           ((bottom r >=? bottom other) && (top r <=? bottom other)))
  then true
  else if ((left r <=? left other) && (top r <=? top other) &&
           (right r >=? right other) && (bottom r >=? bottom other)) ||
          ((left r >=? left other) && (top r >=? top other) &&
           (right r <=? right other) && (bottom r <=? bottom other))
  then true
  else false.

Definition intersectsRect (r other : Rect) : bool :=
  overlapsRect r other || overlapsRect other r.

Definition getIntersection (r other : Rect) : Rect :=
  if intersectsRect r other then
    Rect_ctor (Z.max (left r) (left other)) (Z.max (top r) (top other))
              (Z.min (right r) (right other)) (Z.min (bottom r) (bottom other))
  else Rect0.

Definition mergeRect (r rect : Rect) : Rect :=
  mkRect (to_coord (Z.min (left r) (left rect)))
         (to_coord (Z.min (top r) (top rect)))
         (to_coord (Z.max (right r) (right rect)))
         (to_coord (Z.max (bottom r) (bottom rect))).

(** [rects.emplace(...)] and [rects.push(...)] append at the back. *)
Definition emplace (q : list Rect) (l t r b : Z) : list Rect :=
  q ++ [Rect_ctor l t r b].

Definition when {A : Type} (c : bool) (f : A -> A) (a : A) : A :=
  if c then f a else a.

Definition subtractRect (this other : Rect) : list Rect :=
  let rects : list Rect := [] in
  if intersectsRect this other then
    let mergedRect := mergeRect this other in
    let alignedLeft := left mergedRect >=? left other in
    let alignedTop := top mergedRect >=? top other in
    let alignedRight := right mergedRect <=? right other in
    let alignedBottom := bottom mergedRect <=? bottom other in
    if negb alignedLeft || negb alignedTop || negb alignedRight || negb alignedBottom
    then
      let topNoAlignTop := Z.max (top mergedRect) (top this) in
      let topNoAlignBottom := Z.min (bottom mergedRect) (bottom other) in
      let bottomNoAlignTop := Z.min (bottom mergedRect) (top other) in
      let bottomNoAlignBottom := Z.min (bottom mergedRect) (bottom this) in
      let leftNoAlignRight := Z.min (right mergedRect) (right other) in
      let leftNoAlignLeft := Z.max (left mergedRect) (left this) in
      let rightNoAlignRight := Z.min (right mergedRect) (right this) in
      let rightNoAlignLeft := Z.max (left mergedRect) (left other) in
      let vspanTop := Z.max (top mergedRect) (top this) in
      let vspanBottom := Z.min (bottom mergedRect) (bottom this) in
      let hspanLeft := Z.max (left mergedRect) (left this) in
      let hspanRight := Z.min (right mergedRect) (right this) in
      let rects :=
        when (alignedLeft || alignedRight) (fun rects =>
          let rects := when (alignedLeft && negb alignedRight) (fun rects =>
            emplace rects leftNoAlignRight vspanTop rightNoAlignRight vspanBottom)
            rects in
          let rects := when (alignedRight && negb alignedLeft) (fun rects =>
            emplace rects leftNoAlignLeft vspanTop rightNoAlignLeft vspanBottom)
            rects in
          when (negb alignedTop && negb alignedBottom) (fun rects =>
            let rects :=
              emplace rects hspanLeft topNoAlignTop hspanRight bottomNoAlignTop in
            emplace rects hspanLeft topNoAlignBottom hspanRight bottomNoAlignBottom)
            rects) rects in
      let rects :=
        when (alignedTop || alignedBottom) (fun rects =>
          let rects := when (alignedTop && negb alignedBottom) (fun rects =>
            emplace rects hspanLeft topNoAlignBottom hspanRight bottomNoAlignBottom)
            rects in
          let rects := when (alignedBottom && negb alignedTop) (fun rects =>
            emplace rects hspanLeft topNoAlignTop hspanRight bottomNoAlignTop)
            rects in
          when (negb alignedLeft && negb alignedRight) (fun rects =>
            let rects :=
              emplace rects leftNoAlignRight vspanTop rightNoAlignRight vspanBottom in
            emplace rects leftNoAlignLeft vspanTop rightNoAlignLeft vspanBottom)
            rects) rects in
      when (negb alignedLeft && negb alignedTop &&
            negb alignedRight && negb alignedBottom) (fun rects =>
        let edgeRect :=
          Rect_ctor (Z.min (left other) (left this)) (Z.min (top other) (top this))
                    (Z.max (left other) (left this))
                    (Z.max (bottom other) (bottom this)) in
        let rects := rects ++ [edgeRect] in
        let edgeRect :=
          mkRect (left edgeRect) (top edgeRect)
                 (to_coord (Z.max (right other) (right this)))
                 (to_coord (Z.max (top other) (top this))) in
        let rects := rects ++ [edgeRect] in
        let edgeRect :=
          mkRect (to_coord (Z.min (right other) (right this)))
                 (to_coord (Z.min (top other) (top this)))
                 (right edgeRect)
                 (to_coord (Z.max (bottom other) (bottom this))) in
        let rects := rects ++ [edgeRect] in
        let edgeRect :=
          mkRect (to_coord (Z.min (left other) (left this)))
                 (to_coord (Z.min (bottom other) (bottom this)))
                 (right edgeRect) (bottom edgeRect) in
        rects ++ [edgeRect]) rects
    else rects
  else rects.

Definition outsideRect (r other : Rect) : bool :=
  negb (pointWithin other (left r) (top r)) &&
  negb (pointWithin other (right r) (top r)) &&
  negb (pointWithin other (left r) (bottom r)) &&
  negb (pointWithin other (right r) (bottom r)).

Definition withinRect (r other : Rect) : bool :=
  pointWithin other (left r) (top r) &&
  pointWithin other (right r) (top r) &&
  pointWithin other (left r) (bottom r) &&
  pointWithin other (right r) (bottom r).

End RectOps.
Import RectOps.


(** The pixels a rectangle stands for when it is blitted: [render] writes
    [width()] pixels from column [left] on the lines [top <= line < bottom]. *)
Definition pixelIn (r : Rect) (x y : Z) : Prop :=
  left r <= x < right r /\ top r <= y < bottom r.

Definition pixelInb (r : Rect) (x y : Z) : bool :=
  (left r <=? x) && (x <? right r) && (top r <=? y) && (y <? bottom r).

(** Well-formed rectangle: the invariant asserted by [width()] and
    [height()], with every edge representable as a [Coord]. *)
Definition wf_rect (r : Rect) : Prop :=
  is_coord (left r) /\ is_coord (top r) /\ is_coord (right r) /\
  is_coord (bottom r) /\ left r <= right r /\ top r <= bottom r.

(** The claim on [subtractRect] as the specification words it. *)
Definition pairwise_disjoint (l : list Rect) : Prop :=
  forall i j r1 r2 x y,
    nth_error l i = Some r1 -> nth_error l j = Some r2 -> i <> j ->
    pixelIn r1 x y -> pixelIn r2 x y -> False.

Definition covers_difference (A B : Rect) (l : list Rect) : Prop :=
  forall x y,
    (exists r, In r l /\ pixelIn r x y) <-> (pixelIn A x y /\ ~ pixelIn B x y).

Definition subtract_spec (A B : Rect) : Prop :=
  pairwise_disjoint (subtractRect A B) /\
  covers_difference A B (subtractRect A B) /\
  (intersectsRect A B = false -> subtractRect A B = [A]) /\
  (withinRect A B = true -> subtractRect A B = []).

(** The body of [subtractRect] below its two outer tests, with the merged
    rectangle and the four alignment flags as arguments. *)
Definition subtractPieces (this other mergedRect : Rect)
    (alignedLeft alignedTop alignedRight alignedBottom : bool) : list Rect :=
  let rects : list Rect := [] in
      let topNoAlignTop := Z.max (top mergedRect) (top this) in
      let topNoAlignBottom := Z.min (bottom mergedRect) (bottom other) in
      let bottomNoAlignTop := Z.min (bottom mergedRect) (top other) in
      let bottomNoAlignBottom := Z.min (bottom mergedRect) (bottom this) in
      let leftNoAlignRight := Z.min (right mergedRect) (right other) in
      let leftNoAlignLeft := Z.max (left mergedRect) (left this) in
      let rightNoAlignRight := Z.min (right mergedRect) (right this) in
      let rightNoAlignLeft := Z.max (left mergedRect) (left other) in
      let vspanTop := Z.max (top mergedRect) (top this) in
      let vspanBottom := Z.min (bottom mergedRect) (bottom this) in
      let hspanLeft := Z.max (left mergedRect) (left this) in
      let hspanRight := Z.min (right mergedRect) (right this) in
      let rects :=
        when (alignedLeft || alignedRight) (fun rects =>
          let rects := when (alignedLeft && negb alignedRight) (fun rects =>
            emplace rects leftNoAlignRight vspanTop rightNoAlignRight vspanBottom)
            rects in
          let rects := when (alignedRight && negb alignedLeft) (fun rects =>
            emplace rects leftNoAlignLeft vspanTop rightNoAlignLeft vspanBottom)
            rects in
          when (negb alignedTop && negb alignedBottom) (fun rects =>
            let rects :=
              emplace rects hspanLeft topNoAlignTop hspanRight bottomNoAlignTop in
            emplace rects hspanLeft topNoAlignBottom hspanRight bottomNoAlignBottom)
            rects) rects in
      let rects :=
        when (alignedTop || alignedBottom) (fun rects =>
          let rects := when (alignedTop && negb alignedBottom) (fun rects =>
            emplace rects hspanLeft topNoAlignBottom hspanRight bottomNoAlignBottom)
            rects in
          let rects := when (alignedBottom && negb alignedTop) (fun rects =>
            emplace rects hspanLeft topNoAlignTop hspanRight bottomNoAlignTop)
            rects in
          when (negb alignedLeft && negb alignedRight) (fun rects =>
            let rects :=
              emplace rects leftNoAlignRight vspanTop rightNoAlignRight vspanBottom in
            emplace rects leftNoAlignLeft vspanTop rightNoAlignLeft vspanBottom)
            rects) rects in
      when (negb alignedLeft && negb alignedTop &&
            negb alignedRight && negb alignedBottom) (fun rects =>
        let edgeRect :=
          Rect_ctor (Z.min (left other) (left this)) (Z.min (top other) (top this))
                    (Z.max (left other) (left this))
                    (Z.max (bottom other) (bottom this)) in
        let rects := rects ++ [edgeRect] in
        let edgeRect :=
          mkRect (left edgeRect) (top edgeRect)
                 (to_coord (Z.max (right other) (right this)))
                 (to_coord (Z.max (top other) (top this))) in
        let rects := rects ++ [edgeRect] in
        let edgeRect :=
          mkRect (to_coord (Z.min (right other) (right this)))
                 (to_coord (Z.min (top other) (top this)))
                 (right edgeRect)
                 (to_coord (Z.max (bottom other) (bottom this))) in
        let rects := rects ++ [edgeRect] in
        let edgeRect :=
          mkRect (to_coord (Z.min (left other) (left this)))
                 (to_coord (Z.min (bottom other) (bottom this)))
                 (right edgeRect) (bottom edgeRect) in
        rects ++ [edgeRect]) rects.


(** ** Messages, styles and states *)

Inductive Message : Type :=
| MSG_NONE | MSG_CREATE | MSG_DESTROY | MSG_DRAW
| MSG_POSTDRAW | MSG_INPUT | MSG_EVENT | MSG_RESIZE.

Definition Message_eqb (a b : Message) : bool :=
  match a, b with
  | MSG_NONE, MSG_NONE | MSG_CREATE, MSG_CREATE | MSG_DESTROY, MSG_DESTROY
  | MSG_DRAW, MSG_DRAW | MSG_POSTDRAW, MSG_POSTDRAW | MSG_INPUT, MSG_INPUT
  | MSG_EVENT, MSG_EVENT | MSG_RESIZE, MSG_RESIZE => true
  | _, _ => false
  end.

Definition WID_INVALID : Z := 0.

Definition STY_VISIBLE : Z := 1.
Definition STY_CHILD : Z := 2.
Definition STY_FRAME : Z := 4.
Definition STY_SHADOW : Z := 8.
Definition STY_TOPLEVEL : Z := Z.lor (Z.lor 16 STY_FRAME) STY_SHADOW.
Definition STY_AUTOSIZE : Z := 32.
Definition STY_FULLSCREEN : Z := 64.
Definition STY_BUTTON : Z := 128.
Definition STY_LABEL : Z := 256.
Definition STY_PROMPT : Z := Z.lor 512 STY_TOPLEVEL.
Definition STY_PROGBAR : Z := 1024.
Definition STY_CHECKBOX : Z := 2048.

Definition STA_ALIVE : Z := 1.
Definition STA_CHECKED : Z := 2.
Definition STA_DIRTY : Z := 4.

Definition WMS_SSAVER_ENABLED : Z := 1.
Definition WMS_SSAVER_ACTIVE : Z := 2.
Definition WMS_SSAVER_DRAWN : Z := 4.

Definition EVT_CHILD_TAPPED : Z := 1.
Definition INPUT_TAP : Z := 1.

(** [flags & ~bits] on a 16-bit [Style] / [State]. *)
Definition clearBits (flags bits : Z) : Z :=
  to_u16 (Z.land flags (Z.lnot bits)).
Definition setBits (flags bits : Z) : Z := to_u16 (Z.lor flags bits).

(** [makeMsgParam]: both arguments are [MsgParamWord] (16 bits). *)
Definition makeMsgParam (hiWord loWord : Z) : Z :=
  Z.lor (to_u32 (Z.shiftl (to_u16 hiWord) 16)) (Z.land (to_u16 loWord) 65535).
Definition getMsgParamHiWord (msgParam : Z) : Z :=
  Z.land (Z.shiftr msgParam 16) 65535.
Definition getMsgParamLoWord (msgParam : Z) : Z := Z.land msgParam 65535.

Record PackagedMessage := mkPM { msg : Message; p1 : Z; p2 : Z }.

Record InputParams := mkInput { ip_type : Z; ip_x : Z; ip_y : Z }.

(** ** Windows

    A window owns its children, so the window graph is a tree; the weak
    [_parent] pointer is kept as the parent's id ([None] for a null parent)
    and the functions that follow the pointer ([isDrawable]) receive the
    chain of ancestors, nearest first.  Text, colours, corner radius and the
    graphics context are not part of the model. *)

Inductive Window : Type := mkWindow {
  getID : Z;
  getParent : option Z;
  getStyle : Z;
  getState : Z;
  getRect : Rect;
  getDirtyRect : Rect;
  getZOrder : Z;
  _queue : list PackagedMessage;
  _children : list Window
}.

Definition setZOrder (w : Window) (z : Z) : Window :=
  mkWindow (getID w) (getParent w) (getStyle w) (getState w) (getRect w)
           (getDirtyRect w) (to_u8 z) (_queue w) (_children w).
Definition setState (w : Window) (s : Z) : Window :=
  mkWindow (getID w) (getParent w) (getStyle w) (to_u16 s) (getRect w)
           (getDirtyRect w) (getZOrder w) (_queue w) (_children w).
Definition with_style (w : Window) (s : Z) : Window :=
  mkWindow (getID w) (getParent w) (to_u16 s) (getState w) (getRect w)
           (getDirtyRect w) (getZOrder w) (_queue w) (_children w).
Definition with_dirtyRect (w : Window) (r : Rect) : Window :=
  mkWindow (getID w) (getParent w) (getStyle w) (getState w) (getRect w)
           r (getZOrder w) (_queue w) (_children w).
Definition with_queue (w : Window) (q : list PackagedMessage) : Window :=
  mkWindow (getID w) (getParent w) (getStyle w) (getState w) (getRect w)
           (getDirtyRect w) (getZOrder w) q (_children w).
Definition with_children (w : Window) (c : list Window) : Window :=
  mkWindow (getID w) (getParent w) (getStyle w) (getState w) (getRect w)
           (getDirtyRect w) (getZOrder w) (_queue w) c.

(** ** WindowContainer: the deque [_children] *)

Module WindowContainer.

Definition hasChildren (c : list Window) : bool :=
  match c with [] => false | _ => true end.

Definition childCount (c : list Window) : nat := length c.

Fixpoint getChildByID (c : list Window) (id : Z) : option Window :=
  match c with
  | [] => None
  | win :: rest => if id =? getID win then Some win else getChildByID rest id
  end.

(** The counter is a [uint8_t] incremented after each use. *)
Fixpoint recalculateZOrder_from (zOrder : Z) (c : list Window) : list Window :=
  match c with
  | [] => []
  | win :: rest =>
      setZOrder win zOrder :: recalculateZOrder_from (to_u8 (zOrder + 1)) rest
  end.

Definition recalculateZOrder (c : list Window) : list Window :=
  recalculateZOrder_from 0 c.

(** [_children.erase(it)] at the first element whose id matches; [None] when
    the loop finds none. *)
Fixpoint eraseFirstByID (c : list Window) (id : Z) : option (list Window) :=
  match c with
  | [] => None
  | win :: rest =>
      if getID win =? id then Some rest
      else match eraseFirstByID rest id with
           | Some rest' => Some (win :: rest')
           | None => None
           end
  end.

Definition setForegroundWindow (c : list Window) (win : Window)
  : list Window * bool :=
  if match getParent win with None => true | Some _ => false end &&
     bitsHigh (getStyle win) STY_TOPLEVEL
  then match eraseFirstByID c (getID win) with
       | Some c' => (recalculateZOrder (c' ++ [win]), true)
       | None => (c, false)
       end
  else (c, false).

Definition addChild (c : list Window) (child : Window) : list Window * bool :=
  match getChildByID c (getID child) with
  | Some _ => (c, false)
  | None =>
      let zOrder := match rev c with
                    | [] => 0
                    | last :: _ => to_u8 (getZOrder last + 1)
                    end in
      (c ++ [setZOrder child zOrder], true)
  end.

Definition removeChildByID (c : list Window) (id : Z) : list Window * bool :=
  match eraseFirstByID c id with
  | Some c' => (recalculateZOrder c', true)
  | None => (c, false)
  end.

Definition removeAllChildren (c : list Window) : list Window := [].

End WindowContainer.

(** The three mutating operations of the z-order claim. *)
Inductive ContainerOp : Type :=
| OpAdd (child : Window)
| OpRemove (id : Z)
| OpForeground (win : Window).

Definition applyOp (c : list Window) (op : ContainerOp) : list Window :=
  match op with
  | OpAdd child => fst (WindowContainer.addChild c child)
  | OpRemove id => fst (WindowContainer.removeChildByID c id)
  | OpForeground win => fst (WindowContainer.setForegroundWindow c win)
  end.

Definition runOps (ops : list ContainerOp) : list Window :=
  fold_left applyOp ops [].

(** The z-order values in iteration (paint) order. *)
Definition zOrders (c : list Window) : list Z := map getZOrder c.

(** 0, 1, ..., n-1 *)
Definition iota (n : nat) : list Z := map Z.of_nat (seq 0 n).

Definition ids (c : list Window) : list Z := map getID c.

(** Largest z-order in the container, [-1] when it is empty. *)
Definition maxZOrder (c : list Window) : Z :=
  fold_right Z.max (-1) (zOrders c).


(** A [WindowID] is a [uint8_t]. *)
Definition valid_id (w : Window) : Prop := 0 <= getID w < 256.

(** The invariant kept by the three operations. *)
Definition container_inv (c : list Window) : Prop :=
  zOrders c = iota (length c) /\ NoDup (ids c) /\ Forall valid_id c.

Definition op_valid (op : ContainerOp) : Prop :=
  match op with
  | OpAdd child => valid_id child
  | OpRemove _ => True
  | OpForeground win => valid_id win
  end.

(** ** Window: queue, dirty rectangle, visibility *)

Module WindowOps.

Definition queueMessage (w : Window) (m : Message) (p1 p2 : Z) : Window * bool :=
  let pm := mkPM m p1 p2 in
  (with_queue w (_queue w ++ [pm]),
   Message_eqb m MSG_INPUT && (getMsgParamLoWord p1 =? INPUT_TAP)).

Fixpoint markRectDirty (w : Window) (rect : Rect) : Window :=
  if negb (empty rect) then
    let windowRect := getRect w in
    let d := getDirtyRect w in
    let d := if (left rect >=? left windowRect) &&
                ((left rect <? left d) || (left d =? 0))
             then mkRect (left rect) (top d) (right d) (bottom d) else d in
    let d := if (top rect >=? top windowRect) &&
                ((top rect <? top d) || (top d =? 0))
             then mkRect (left d) (top rect) (right d) (bottom d) else d in
    let d := if (right rect <=? right windowRect) && (right rect >? right d)
             then mkRect (left d) (top d) (right rect) (bottom d) else d in
    let d := if (bottom rect <=? bottom windowRect) && (bottom rect >? bottom d)
             then mkRect (left d) (top d) (right d) (bottom rect) else d in
    with_dirtyRect w d
  else
    mkWindow (getID w) (getParent w) (getStyle w) (getState w) (getRect w)
             Rect0 (getZOrder w) (_queue w)
             (map (fun win => markRectDirty win Rect0) (_children w)).

Definition isVisible (w : Window) : bool :=
  bitsHigh (getStyle w) STY_VISIBLE && negb (empty (getRect w)).

Definition isAlive (w : Window) : bool := bitsHigh (getState w) STA_ALIVE.

Definition isDirty (w : Window) : bool := bitsHigh (getState w) STA_DIRTY.

End WindowOps.
Import WindowOps.

(** [isDrawable]: [anc] is the chain reached through [_parent], nearest
    ancestor first; it is empty for a window without parent. *)
Fixpoint isDrawable (displayRect : Rect) (anc : list Window) (w : Window)
  {struct anc} : bool :=
  isVisible w &&
  isAlive w &&
  match anc with
  | [] => true
  | parent :: rest => isDrawable displayRect rest parent
  end &&
  negb (outsideRect (getRect w) displayRect).

(** [forEachChildReverse] for a visitor that updates the visited window
    and stops the walk once it has handled the request ([return false] in the
    source): the children are visited from the last to the first. *)
Definition forEachChildReverse (cb : Window -> Window * bool)
  : list Window -> list Window * bool :=
  fix walk (l : list Window) : list Window * bool :=
    match l with
    | [] => ([], false)
    | child :: rest =>
        let (rest', handled) := walk rest in
        if handled then (child :: rest', true)
        else
          let (child', handled') := cb child in
          (child' :: rest', handled')
    end.

Fixpoint processInput (displayRect : Rect) (anc : list Window)
    (params : InputParams) (w : Window) {struct w} : Window * bool :=
  if negb (isDrawable displayRect anc w) then (w, false)
  else if negb (pointWithin (getRect w) (ip_x params) (ip_y params))
  then (w, false)
  else
    let (children', handled) :=
      forEachChildReverse (processInput displayRect (w :: anc) params)
        (_children w) in
    let w1 := with_children w children' in
    if negb handled then
      queueMessage w1 MSG_INPUT
        (makeMsgParam 0 (ip_type params))
        (makeMsgParam (ip_x params) (ip_y params))
    else (w1, handled).

(** ** WindowManager *)

Record WindowManager := mkWM {
  _registry : list Window;
  wm_state : Z;
  displayWidth : Z;
  displayHeight : Z;
  minRenderIntervalMsec : Z;
  minHitTestIntervalMsec : Z;
  _ssaverEpoch : Z;
  _ssaverActivateAfter : Z;
  _lastRenderTime : Z;
  _lastHitTestTime : Z
}.

Definition getDisplayRect (wm : WindowManager) : Rect :=
  Rect_ctor 0 0 (displayWidth wm) (displayHeight wm).

Definition with_registry (wm : WindowManager) (r : list Window) : WindowManager :=
  mkWM r (wm_state wm) (displayWidth wm) (displayHeight wm)
       (minRenderIntervalMsec wm) (minHitTestIntervalMsec wm)
       (_ssaverEpoch wm) (_ssaverActivateAfter wm)
       (_lastRenderTime wm) (_lastHitTestTime wm).
Definition with_wm_state (wm : WindowManager) (s : Z) : WindowManager :=
  mkWM (_registry wm) (to_u16 s) (displayWidth wm) (displayHeight wm)
       (minRenderIntervalMsec wm) (minHitTestIntervalMsec wm)
       (_ssaverEpoch wm) (_ssaverActivateAfter wm)
       (_lastRenderTime wm) (_lastHitTestTime wm).
Definition with_ssaverEpoch (wm : WindowManager) (t : Z) : WindowManager :=
  mkWM (_registry wm) (wm_state wm) (displayWidth wm) (displayHeight wm)
       (minRenderIntervalMsec wm) (minHitTestIntervalMsec wm)
       t (_ssaverActivateAfter wm)
       (_lastRenderTime wm) (_lastHitTestTime wm).
Definition with_lastRenderTime (wm : WindowManager) (t : Z) : WindowManager :=
  mkWM (_registry wm) (wm_state wm) (displayWidth wm) (displayHeight wm)
       (minRenderIntervalMsec wm) (minHitTestIntervalMsec wm)
       (_ssaverEpoch wm) (_ssaverActivateAfter wm)
       t (_lastHitTestTime wm).
Definition with_lastHitTestTime (wm : WindowManager) (t : Z) : WindowManager :=
  mkWM (_registry wm) (wm_state wm) (displayWidth wm) (displayHeight wm)
       (minRenderIntervalMsec wm) (minHitTestIntervalMsec wm)
       (_ssaverEpoch wm) (_ssaverActivateAfter wm)
       (_lastRenderTime wm) t.

(** [hitTest(x, y)]; [now] is the value of [millis()].  The visitor skips
    windows that are not drawable and ends the walk at the first window whose
    [processInput] returns [true].  Past the rate limit the source first
    asserts that the point is on the display; the definition gives the
    statements that follow, and the assertions are [hitTest_asserts]. *)
Definition hitTest (wm : WindowManager) (now : Z) (x y : Z) : WindowManager :=
  if to_u32 (now - _lastHitTestTime wm) <? minHitTestIntervalMsec wm then wm
  else
    let saverOn := bitsHigh (wm_state wm) WMS_SSAVER_ENABLED in
    let wm1 := if saverOn then with_ssaverEpoch wm now else wm in
    if saverOn && bitsHigh (wm_state wm1) WMS_SSAVER_ACTIVE then wm1
    else
      let params := mkInput INPUT_TAP x y in
      let (reg', claimed) :=
        forEachChildReverse
          (fun child =>
             if negb (isDrawable (getDisplayRect wm1) [] child)
             then (child, false)
             else processInput (getDisplayRect wm1) [] params child)
          (_registry wm1) in
      with_lastHitTestTime (with_registry wm1 reg') now.

(** Exactly one window of the tree under [w] received [pm] at the back of
    its queue and nothing else changed. *)
Inductive delivered (pm : PackagedMessage) : Window -> Window -> Prop :=
| delivered_here w :
    delivered pm w (with_queue w (_queue w ++ [pm]))
| delivered_below w a c c' b :
    _children w = a ++ c :: b ->
    delivered pm c c' ->
    delivered pm w (with_children w (a ++ c' :: b)).

(** The same for a list of top-level windows. *)
Definition deliveredIn (pm : PackagedMessage) (l l' : list Window) : Prop :=
  exists a c c' b, l = a ++ c :: b /\ l' = a ++ c' :: b /\ delivered pm c c'.

(** The message queued by a tap at [(x, y)]. *)
Definition tapMessage (x y : Z) : PackagedMessage :=
  mkPM MSG_INPUT (makeMsgParam 0 INPUT_TAP) (makeMsgParam x y).

(** A visitor that either leaves the window alone or delivers [pm] in it. *)
Definition zero_or_one (pm : PackagedMessage) (cb : Window -> Window * bool)
    (c : Window) : Prop :=
  cb c = (c, false) \/ exists c', cb c = (c', true) /\ delivered pm c c'.

(** Number of queued messages in a tree. *)
Fixpoint totalQueued (w : Window) : nat :=
  (length (_queue w) +
   (fix sum (l : list Window) : nat :=
      match l with
      | [] => 0
      | c :: rest => totalQueued c + sum rest
      end) (_children w))%nat.

Definition totalQueuedIn (l : list Window) : nat :=
  fold_right (fun w n => (totalQueued w + n)%nat) 0%nat l.

(** ** The window tree as a store

    A method called on a window can reach its parent (through [_parent]) and
    the manager (through [_wm]), so the methods that do are functions of the
    whole registry and the path of the receiver: the index of its top-level
    ancestor in the registry, then child indices. *)

Definition Path := list nat.

Fixpoint update_nth {A : Type} (i : nat) (f : A -> A) (l : list A) : list A :=
  match l, i with
  | [], _ => []
  | a :: l', O => f a :: l'
  | a :: l', S i' => a :: update_nth i' f l'
  end.

Fixpoint getAt (reg : list Window) (path : Path) : option Window :=
  match path with
  | [] => None
  | i :: rest =>
      match nth_error reg i with
      | None => None
      | Some w => match rest with
                  | [] => Some w
                  | _ :: _ => getAt (_children w) rest
                  end
      end
  end.

(** The ancestors of the window at [path], nearest first, pushed on [acc]. *)
Fixpoint ancestorsAt (reg : list Window) (path : Path) (acc : list Window)
  : list Window :=
  match path with
  | [] => acc
  | i :: rest =>
      match rest with
      | [] => acc
      | _ :: _ =>
          match nth_error reg i with
          | None => acc
          | Some w => ancestorsAt (_children w) rest (w :: acc)
          end
      end
  end.

Fixpoint updAt (reg : list Window) (path : Path) (f : Window -> Window)
  : list Window :=
  match path with
  | [] => reg
  | i :: rest =>
      match rest with
      | [] => update_nth i f reg
      | _ :: _ =>
          update_nth i
            (fun w => with_children w (updAt (_children w) rest f)) reg
      end
  end.

Definition childCountAt (reg : list Window) (path : Path) : nat :=
  match getAt reg path with
  | Some w => length (_children w)
  | None => 0
  end.

(** [for (i = from; i < from + n; i++) s = body(i, s)] with a body that can
    run out of fuel. *)
Fixpoint forIndices {S : Type} (n from : nat) (body : nat -> S -> option S)
    (s : S) : option S :=
  match n with
  | O => Some s
  | Datatypes.S n' =>
      match body from s with
      | None => None
      | Some s' => forIndices n' (Datatypes.S from) body s'
      end
  end.

(** The handlers a window class overrides.  Each one receives the registry
    and the path of the receiver and returns the registry it leaves. *)
Record Hooks := mkHooks {
  onCreate : list Window -> Path -> Z -> Z -> list Window * bool;
  onDestroy : list Window -> Path -> Z -> Z -> list Window * bool;
  onDraw : list Window -> Path -> Z -> Z -> list Window * bool;
  onPostDraw : list Window -> Path -> Z -> Z -> list Window * bool;
  onEvent : list Window -> Path -> Z -> Z -> list Window * bool;
  onResize : list Window -> Path -> Z -> Z -> list Window * bool;
  onTapped : list Window -> Path -> Z -> Z -> list Window * bool
}.

Module Store.

Section WithHooks.

Variable displayRect : Rect.
Variable H : Hooks.

Definition isDrawableAt (reg : list Window) (path : Path) : bool :=
  match getAt reg path with
  | Some w => isDrawable displayRect (ancestorsAt reg path []) w
  | None => false
  end.

Definition isDirtyAt (reg : list Window) (path : Path) : bool :=
  match getAt reg path with
  | Some w => isDirty w
  | None => false
  end.

(** [onInput] of [Window]: decode the parameters and dispatch on the type.
    For a type other than [INPUT_TAP] the source runs [EWM_ASSERT(false)],
    which never returns: [None]. *)
Definition onInput (reg : list Window) (path : Path) (p1 p2 : Z)
  : option (list Window * bool) :=
  let type := getMsgParamLoWord p1 in
  let x := to_coord (getMsgParamHiWord p2) in
  let y := to_coord (getMsgParamLoWord p2) in
  if type =? INPUT_TAP then Some (onTapped H reg path x y) else None.

(** The [MSG_DRAW] case of [routeMessage], with its [setDirty(false)]. *)
Definition routeDraw (reg : list Window) (path : Path) (p1 p2 : Z)
  : list Window * bool :=
  if negb (isDrawableAt reg path) then (reg, false)
  else if negb (isDirtyAt reg path) && (p1 =? 0) then (reg, false)
  else
    let (reg1, handled) := onDraw H reg path p1 p2 in
    (updAt reg1 path
       (fun w => setState w (Z.land (getState w) (Z.lnot STA_DIRTY))),
     handled).

(** [redraw(force)], with [redrawChildren] inlined as its last loop. *)
Fixpoint redraw (fuel : nat) (reg : list Window) (path : Path) (force : bool)
  : option (list Window * bool) :=
  if negb (isDrawableAt reg path) then Some (reg, false)
  else
    match fuel with
    | O => None
    | S fuel' =>
        let (reg1, redrawn) :=
          if isDirtyAt reg path || force
          then routeDraw reg path (if force then 1 else 0) 0
          else (reg, false) in
        let reg2 :=
          if redrawn
          then updAt reg1 path
                 (fun w => with_children w
                    (map (fun child =>
                            setState child (Z.lor (getState child) STA_DIRTY))
                         (_children w)))
          else reg1 in
        match
          forIndices (childCountAt reg2 path) 0
            (fun i (s : list Window * bool) =>
               let (r, childRedrawn) := s in
               if isDirtyAt r (path ++ [i]) || force then
                 match redraw fuel' r (path ++ [i]) force with
                 | None => None
                 | Some (r', true) => Some (r', true)
                 | Some (r', false) => Some (r', childRedrawn)
                 end
               else Some (r, childRedrawn))
            (reg2, false)
        with
        | None => None
        | Some (reg3, childRedrawn) => Some (reg3, redrawn || childRedrawn)
        end
    end.

Definition setDirty (fuel : nat) (reg : list Window) (path : Path)
    (dirty redrawWindow : bool) : option (list Window * bool) :=
  if dirty then
    let reg1 :=
      updAt reg path (fun w => setState w (Z.lor (getState w) STA_DIRTY)) in
    if redrawWindow then redraw fuel reg1 path false else Some (reg1, true)
  else
    Some (updAt reg path
            (fun w => setState w (Z.land (getState w) (Z.lnot STA_DIRTY))),
          true).

(** [routeMessage(msg, p1, p2)]; [None] when the call does not return: the
    [default] case of the [switch], taken for [MSG_NONE], and [onInput] for
    a type other than [INPUT_TAP] run [EWM_ASSERT(false)], or the model has
    too little fuel for the redraw. *)
Definition routeMessage (fuel : nat) (reg : list Window) (path : Path)
    (m : Message) (p1 p2 : Z) : option (list Window * bool) :=
  let finish (r : list Window) (handled dirty : bool) :=
    if dirty then
      match setDirty fuel r path true true with
      | None => None
      | Some (r', _) => Some (r', handled)
      end
    else Some (r, handled) in
  match m with
  | MSG_CREATE =>
      let (reg1, handled) := onCreate H reg path p1 p2 in
      let reg2 :=
        if handled
        then updAt reg1 path
               (fun w => setState w (Z.lor (getState w) STA_ALIVE))
        else reg1 in
      finish reg2 handled handled
  | MSG_DESTROY =>
      let (reg1, handled) := onDestroy H reg path p1 p2 in
      let reg2 :=
        updAt reg1 path
          (fun w => setState w (Z.land (getState w) (Z.lnot STA_ALIVE))) in
      finish reg2 handled false
  | MSG_DRAW =>
      let (reg1, handled) := routeDraw reg path p1 p2 in
      finish reg1 handled false
  | MSG_POSTDRAW =>
      let (reg1, handled) := onPostDraw H reg path p1 p2 in
      finish reg1 handled false
  | MSG_INPUT =>
      match onInput reg path p1 p2 with
      | None => None
      | Some (reg1, handled) => finish reg1 handled handled
      end
  | MSG_EVENT => Some (onEvent H reg path p1 p2)
  | MSG_RESIZE =>
      let (reg1, handled) := onResize H reg path p1 p2 in
      finish reg1 handled handled
  | MSG_NONE => None
  end.

Definition setStyle (fuel : nat) (reg : list Window) (path : Path) (style : Z)
  : option (list Window) :=
  match getAt reg path with
  | None => None
  | Some w =>
      if negb (to_u16 style =? getStyle w) then
        match setDirty fuel (updAt reg path (fun w => with_style w style))
                path true true with
        | None => None
        | Some (reg', _) => Some reg'
        end
      else Some reg
  end.

(** [WindowManager::setDirtyRect]: the registry holds the windows without
    parent. *)
Definition setDirtyRect (reg : list Window) (rect : Rect) : list Window :=
  map (fun win =>
         if negb (isDrawable displayRect [] win) then win
         else if intersectsRect (getRect win) rect
         then markRectDirty win (getIntersection (getRect win) rect)
         else win) reg.

Definition hide (fuel : nat) (reg : list Window) (path : Path)
  : option (list Window * bool) :=
  match getAt reg path with
  | None => None
  | Some w =>
      if negb (isVisible w) then Some (reg, false)
      else
        match setStyle fuel reg path
                (Z.land (getStyle w) (Z.lnot STY_VISIBLE)) with
        | None => None
        | Some reg1 =>
            match getAt reg1 path with
            | None => None
            | Some w1 => Some (setDirtyRect reg1 (getRect w1), true)
            end
        end
  end.

Fixpoint processQueue (fuel : nat) (reg : list Window) (path : Path)
  : option (list Window * bool) :=
  match fuel with
  | O => None
  | S fuel' =>
      match getAt reg path with
      | None => None
      | Some w =>
          match
            match _queue w with
            | [] => Some reg
            | pm :: rest =>
                match routeMessage fuel'
                        (updAt reg path (fun w => with_queue w rest)) path
                        (msg pm) (p1 pm) (p2 pm) with
                | None => None
                | Some (reg', _) => Some reg'
                end
            end
          with
          | None => None
          | Some reg1 =>
              match
                forIndices (childCountAt reg1 path) 0
                  (fun i r =>
                     match processQueue fuel' r (path ++ [i]) with
                     | None => None
                     | Some (r', _) => Some r'
                     end) reg1
              with
              | None => None
              | Some reg2 =>
                  match getAt reg2 path with
                  | None => None
                  | Some w2 =>
                      Some (reg2, negb (match _queue w2 with
                                        | [] => true
                                        | _ :: _ => false
                                        end))
                  end
              end
          end
      end
  end.

(** [while (win->processQueue()) { }] with at most [rounds] calls. *)
Fixpoint drainQueue (rounds fuel : nat) (reg : list Window) (path : Path)
  : option (list Window) :=
  match rounds with
  | O => None
  | S rounds' =>
      match processQueue fuel reg path with
      | None => None
      | Some (reg', true) => drainQueue rounds' fuel reg' path
      | Some (reg', false) => Some reg'
      end
  end.

(** The loop of [destroy] over the children. *)
Definition destroyChildren
    (destroy : list Window -> Path -> option (list Window * bool))
    (reg : list Window) (path : Path) (destroyed : bool)
  : option (list Window * bool) :=
  forIndices (childCountAt reg path) 0
    (fun i (s : list Window * bool) =>
       let (r, d) := s in
       match destroy r (path ++ [i]) with
       | None => None
       | Some (r', d') => Some (r', d && d')
       end)
    (reg, destroyed).

Fixpoint destroy (fuel : nat) (reg : list Window) (path : Path)
  : option (list Window * bool) :=
  match fuel with
  | O => None
  | S fuel' =>
      match hide fuel' reg path with
      | None => None
      | Some (reg1, _) =>
          match routeMessage fuel' reg1 path MSG_DESTROY 0 0 with
          | None => None
          | Some (reg2, destroyed) =>
              match destroyChildren (destroy fuel') reg2 path destroyed with
              | None => None
              | Some (reg3, destroyed') =>
                  Some (updAt reg3 path
                          (fun w => with_children w
                             (WindowContainer.removeAllChildren (_children w))),
                        destroyed')
              end
          end
      end
  end.

End WithHooks.

End Store.

(** The handlers of the base class [Window], on the modelled fields.
    [onCreate] only stores the corner radius, [onDraw] paints through the
    theme and routes [MSG_POSTDRAW], whose handler marks the rectangle of the
    window dirty on the window and on its parent.  [onDraw] paints into
    [getClientRect()], which asserts a parent for every window that is not
    a parentless top-level window, and [onResize] asserts [STY_AUTOSIZE];
    the handlers give the statements that follow, and the assertions are
    [getClientRect_asserts] and [messageAsserts]. *)
Definition parentPath (path : Path) : Path := removelast path.

Definition Window_onPostDraw (reg : list Window) (path : Path) (p1 p2 : Z)
  : list Window * bool :=
  match getAt reg path with
  | None => (reg, true)
  | Some w =>
      let reg1 := updAt reg path (fun w' => markRectDirty w' (getRect w)) in
      match getParent w with
      | None => (reg1, true)
      | Some _ =>
          (updAt reg1 (parentPath path)
             (fun parent => markRectDirty parent (getRect w)), true)
      end
  end.

Definition Window_hooks : Hooks :=
  mkHooks
    (fun reg _ _ _ => (reg, true))
    (fun reg _ _ _ => (reg, true))
    (fun reg path _ _ => Window_onPostDraw reg path 0 0)
    Window_onPostDraw
    (fun reg _ _ _ => (reg, true))
    (fun reg _ _ _ => (reg, false))
    (fun reg _ _ _ => (reg, false)).

(** The tree with every dirty rectangle forgotten: what [markRectDirty]
    cannot change. *)
Fixpoint eraseDirty (w : Window) : Window :=
  mkWindow (getID w) (getParent w) (getStyle w) (getState w) (getRect w)
           Rect0 (getZOrder w) (_queue w) (map eraseDirty (_children w)).

(** [isDrawable] of the window at [path], walking down from the registry
    with the ancestors met so far. *)
Fixpoint drawableFrom (displayRect : Rect) (anc : list Window)
    (reg : list Window) (path : Path) : bool :=
  match path with
  | [] => false
  | i :: rest =>
      match nth_error reg i with
      | None => false
      | Some w =>
          match rest with
          | [] => isDrawable displayRect anc w
          | _ :: _ => drawableFrom displayRect (w :: anc) (_children w) rest
          end
      end
  end.

(** What [hide] leaves of a visible window: [setStyle] stores the style
    without [STY_VISIBLE], then [setDirty] raises [STA_DIRTY]. *)
Definition hiddenWindow (style : Z) (w : Window) : Window :=
  setState (with_style w (Z.land style (Z.lnot STY_VISIBLE)))
           (Z.lor (getState w) STA_DIRTY).


(** Height of a window tree, 1 for a window without children. *)
Fixpoint depth (w : Window) : nat :=
  S ((fix maxDepth (l : list Window) : nat :=
        match l with
        | [] => O
        | c :: rest => Nat.max (depth c) (maxDepth rest)
        end) (_children w)).

Definition maxDepth (l : list Window) : nat :=
  fold_right (fun c n => Nat.max (depth c) n) O l.

(** What [destroy] makes of a window of class [Window], dirty rectangles
    aside: [hide] (a no-op on a window that is not visible), then
    [MSG_DESTROY] clears [STA_ALIVE], then the children are dropped. *)
Definition hideStep (w : Window) : Window :=
  if isVisible w then hiddenWindow (getStyle w) w else w.

Definition clearAlive (w : Window) : Window :=
  setState w (Z.land (getState w) (Z.lnot STA_ALIVE)).

Definition destroyedWindow (w : Window) : Window :=
  with_children (clearAlive (hideStep w)) [].

(** [g] applied to the first [i] elements. *)
Definition mapFirst {A : Type} (i : nat) (g : A -> A) (l : list A) : list A :=
  map g (firstn i l) ++ skipn i l.

(** The list of windows that holds the window at [path]: the registry, or
    the children of its parent. *)
Definition containerAt (reg : list Window) (path : Path) : option (list Window) :=
  match removelast path with
  | [] => Some reg
  | pp => option_map _children (getAt reg pp)
  end.

(** The last step of the claim on [destroy] as the specification words it:
    after [destroy] the containing list has no window with the id of the
    destroyed one. *)
Definition detachedAfterDestroy (displayRect : Rect) (H : Hooks) (fuel : nat)
    (reg : list Window) (path : Path) : Prop :=
  forall w reg' d,
    getAt reg path = Some w ->
    Store.destroy displayRect H fuel reg path = Some (reg', d) ->
    exists c, containerAt reg' path = Some c /\
              WindowContainer.getChildByID c (getID w) = None.

(** The receiver of [destroy] once its children were destroyed and before
    they are dropped. *)
Definition childrenDestroyed (w : Window) : Window :=
  with_children (clearAlive (hideStep w)) (map destroyedWindow (_children w)).
(** ** WindowManager: render and createWindow *)

(** What reaches the physical display.  For the window at index [slot] of
    the registry, one round of the blit loop of [render] is
    [Blit slot id dirtyRect clientDirtyRect], the [setAddrWindow] and the
    [writePixels] loop that follow a successful [displayToWindow], and then
    [DrawRect slot x y w h color], the call
    [_gfxDisplay->drawRect(dirtyRect.left - 1, dirtyRect.top - 1,
    dirtyRect.width() + 1, dirtyRect.height() + 1, 0xf81f)] with the values
    of its arguments.  [drawRect] belongs to the graphics library, which is
    not part of the sources; the pixels it writes are not modelled. *)
Inductive DisplayOp : Type :=
| DrawScreensaver
| Blit (slot : nat) (id : Z) (dirtyRect clientDirtyRect : Rect)
| DrawRect (slot : nat) (x y w h : Z) (color : Z)
| Flush.

Definition blitSlot (op : DisplayOp) : option nat :=
  match op with
  | Blit slot _ _ _ => Some slot
  | DrawRect slot _ _ _ _ _ => Some slot
  | _ => None
  end.

Module Manager.

Definition displayToWindow_pt (win : Window) (pt : Z * Z) : option (Z * Z) :=
  let windowRect := getRect win in
  if pointWithin windowRect (fst pt) (snd pt)
  then Some (to_coord (fst pt - left windowRect),
             to_coord (snd pt - top windowRect))
  else None.

Definition displayToWindow (win : Window) (rect : Rect) : option Rect :=
  match displayToWindow_pt win (left rect, top rect) with
  | None => None
  | Some topLeft =>
      match displayToWindow_pt win (right rect, bottom rect) with
      | None => None
      | Some bottomRight =>
          Some (mkRect (fst topLeft) (snd topLeft)
                       (fst bottomRight) (snd bottomRight))
      end
  end.

(** The inner [forEachChildReverse] of [render]: from the last window of the
    registry down to the one after [win], merging the rectangles of the
    drawable ones. *)
Definition obscuringStep (displayRect : Rect) (acc : bool * Rect)
    (above : Window) : bool * Rect :=
  let (obscuringRectSet, obscuringRect) := acc in
  if negb (isDrawable displayRect [] above) then acc
  else if negb obscuringRectSet then (true, getRect above)
  else (true, mergeRect obscuringRect (getRect above)).

Definition obscuringRectOf (displayRect : Rect) (reg : list Window) (i : nat)
  : Rect :=
  snd (fold_left (obscuringStep displayRect) (rev (skipn (S i) reg))
         (false, Rect0)).

(** The [while (!dirtyRects.empty())] loop.  When [displayToWindow] fails
    the source runs [EWM_ASSERT(!"failed to convert ...")], which never
    returns: [None]. *)
Fixpoint blitAll (win : Window) (slot : nat) (dirtyRects : list Rect)
  : option (list DisplayOp) :=
  match dirtyRects with
  | [] => Some []
  | dirtyRect :: rest =>
      match displayToWindow win dirtyRect with
      | None => None
      | Some clientDirtyRect =>
          match blitAll win slot rest with
          | None => None
          | Some ops =>
              Some (Blit slot (getID win) dirtyRect clientDirtyRect
                    :: DrawRect slot (left dirtyRect - 1) (top dirtyRect - 1)
                         (width dirtyRect + 1) (height dirtyRect + 1) 63519
                    :: ops)
          end
      end
  end.

(** The visitor of [render] for the window at index [i], after its queue was
    drained: the registry it leaves, the display operations and whether it
    set [updated]; [None] when the assertion of the blit loop fails and the
    visitor never returns. *)
Definition renderWindow (displayRect : Rect) (reg : list Window) (i : nat)
  : option (list Window * list DisplayOp * bool) :=
  match nth_error reg i with
  | None => Some (reg, [], false)
  | Some win =>
      if negb (isDrawable displayRect [] win) then Some (reg, [], false)
      else
        let dirtyRect := getDirtyRect win in
        if empty dirtyRect then Some (reg, [], false)
        else
          let obscuringRect := obscuringRectOf displayRect reg i in
          let cleared := update_nth i (fun w => markRectDirty w Rect0) reg in
          let dirtyRects :=
            if negb (empty obscuringRect)
            then subtractRect dirtyRect obscuringRect
            else [dirtyRect] in
          match dirtyRects with
          | [] => Some (cleared, [], false)
          | _ :: _ =>
              match blitAll win i dirtyRects with
              | None => None
              | Some ops => Some (cleared, ops, true)
              end
          end
  end.

Section WithHooks.

Variable H : Hooks.

(** The [forEachChild] of [render] over the registry; [None] when the
    pass does not return: the visitor halts in an assertion, or the model
    has too little fuel for a queue. *)
Definition renderWindows (rounds fuel : nat) (displayRect : Rect)
    (reg : list Window) : option (list Window * list DisplayOp * bool) :=
  forIndices (length reg) 0
    (fun i (s : list Window * list DisplayOp * bool) =>
       let '(r, ops, updated) := s in
       match Store.drainQueue displayRect H rounds fuel r [i] with
       | None => None
       | Some r1 =>
           match renderWindow displayRect r1 i with
           | None => None
           | Some (r2, ops', updated') =>
               Some (r2, ops ++ ops', updated || updated')
           end
       end)
    (reg, [], false).

(** [render()]; [now] is the value of [millis()]. *)
Definition render (rounds fuel : nat) (wm : WindowManager) (now : Z)
  : option (WindowManager * list DisplayOp) :=
  if to_u32 (now - _lastRenderTime wm) <? minRenderIntervalMsec wm
  then Some (wm, [])
  else
    let wm1 :=
      if bitsHigh (wm_state wm) WMS_SSAVER_ENABLED then
        if to_u32 (now - _ssaverEpoch wm) >=? _ssaverActivateAfter wm then
          if negb (bitsHigh (wm_state wm) WMS_SSAVER_ACTIVE)
          then with_wm_state wm (Z.lor (wm_state wm) WMS_SSAVER_ACTIVE)
          else wm
        else
          if bitsHigh (wm_state wm) WMS_SSAVER_ACTIVE
          then
            let wm' :=
              with_wm_state wm
                (Z.land (wm_state wm)
                   (Z.lnot (Z.lor WMS_SSAVER_ACTIVE WMS_SSAVER_DRAWN))) in
            with_registry wm'
              (Store.setDirtyRect (getDisplayRect wm') (_registry wm')
                 (getDisplayRect wm'))
          else wm
      else wm in
    let finish (wm2 : WindowManager) (ops : list DisplayOp) (updated : bool) :=
      if updated
      then Some (with_lastRenderTime wm2 now, ops ++ [Flush])
      else Some (wm2, ops) in
    if bitsHigh (wm_state wm1) WMS_SSAVER_ACTIVE then
      if negb (bitsHigh (wm_state wm1) WMS_SSAVER_DRAWN)
      then finish (with_wm_state wm1 (Z.lor (wm_state wm1) WMS_SSAVER_DRAWN))
             [DrawScreensaver] true
      else finish wm1 [] false
    else
      match renderWindows rounds fuel (getDisplayRect wm1) (_registry wm1) with
      | None => None
      | Some (reg', ops, updated) => finish (with_registry wm1 reg') ops updated
      end.

End WithHooks.

(** *** createWindow *)

(** [CreateFault]: the constructor met a null parent and never completed.
    [CreateHalt]: an assertion on the rectangle failed, and the call loops
    forever.  [CreateNull]: the null handle was returned, with the registry
    left.  [CreateStuck] is an escape of the model: the fuel ran out, or the
    parent path addresses no window. *)
Inductive CreateResult : Type :=
| CreateFault
| CreateHalt
| CreateStuck
| CreateNull (reg : list Window)
| CreateOk (reg : list Window) (path : Path).

Inductive CtorResult : Type :=
| CtorFault
| CtorHalt
| CtorStuck
| CtorOk (win : Window).

(** The constructor of [Window].  A parentless top-level window gets a
    graphics context of its own,
    [std::make_shared<GfxContext>(rect.width(), rect.height())], and
    [width()] and [height()] assert [right >= left] and [bottom >= top];
    the allocation of the canvas is taken to succeed.  Any other window
    takes the graphics context of its parent:
    [EWM_ASSERT(parent); _ctx = parent->getGfxContext();], which does not
    return for a null parent. *)
Definition Window_ctor (reg : list Window) (parent : option Path)
    (id style : Z) (rect : Rect) : CtorResult :=
  let fresh (parentID : option Z) :=
    mkWindow (to_u8 id) parentID (to_u16 style) (setBits 0 STA_DIRTY)
             rect rect 0 [] [] in
  match parent with
  | None =>
      if bitsHigh (to_u16 style) STY_TOPLEVEL
      then
        if (left rect <=? right rect) && (top rect <=? bottom rect)
        then CtorOk (fresh None)
        else CtorHalt
      else CtorFault
  | Some p =>
      match getAt reg p with
      | Some pw => CtorOk (fresh (Some (getID pw)))
      | None => CtorStuck
      end
  end.

Section Create.

Variable H : Hooks.
Variable displayWidth displayHeight : Z.

(** [win->routeMessage(MSG_CREATE)] runs on a window that is in no
    container yet; it and the pre-creation hook are parameters: from the
    registry, the parent and the new window to what they leave and their
    result. *)
Variable routeCreate :
  list Window -> option Path -> Window -> list Window * Window * bool.
Variable preCreateHook :
  option (list Window -> option Path -> Window -> list Window * Window * bool).

Definition createWindow (fuel : nat) (reg : list Window) (parent : option Path)
    (id style x y width height : Z) : CreateResult :=
  let id := to_u8 id in
  let style := to_u16 style in
  if id =? WID_INVALID then CreateNull reg
  else
    let fullscreen := bitsHigh style STY_FULLSCREEN in
    let x := if fullscreen then 0 else to_coord x in
    let y := if fullscreen then 0 else to_coord y in
    let width := if fullscreen then to_extent displayWidth else to_extent width in
    let height := if fullscreen then to_extent displayHeight else to_extent height in
    let rect := Rect_ctor x y (x + width) (y + height) in
    match Window_ctor reg parent id style rect with
    | CtorFault => CreateFault
    | CtorHalt => CreateHalt
    | CtorStuck => CreateStuck
    | CtorOk win =>
        let noParent := match parent with None => true | Some _ => false end in
        if bitsHigh style STY_CHILD && noParent then CreateNull reg
        else if bitsHigh style STY_TOPLEVEL && negb noParent then CreateNull reg
        else
          let '(reg1, win1, hookOk) :=
            match preCreateHook with
            | None => (reg, win, true)
            | Some hook => hook reg parent win
            end in
          if negb hookOk then CreateNull reg1
          else
            let '(reg2, win2, created) := routeCreate reg1 parent win1 in
            if negb created then CreateNull reg2
            else
              let inserted :=
                match parent with
                | None =>
                    let (c, ok) := WindowContainer.addChild reg2 win2 in
                    if ok then Some (c, [pred (length c)]) else None
                | Some p =>
                    match getAt reg2 p with
                    | None => None
                    | Some pw =>
                        let (c, ok) :=
                          WindowContainer.addChild (_children pw) win2 in
                        if ok
                        then Some (updAt reg2 p (fun w => with_children w c),
                                   p ++ [pred (length c)])
                        else None
                    end
                end in
              match inserted with
              | None => CreateNull reg2
              | Some (reg3, path) =>
                  let disp := Rect_ctor 0 0 displayWidth displayHeight in
                  let resized :=
                    if bitsHigh (getStyle win2) STY_AUTOSIZE
                    then
                      match Store.routeMessage disp H fuel reg3 path
                              MSG_RESIZE 0 0 with
                      | None => None
                      | Some (r, _) => Some r
                      end
                    else Some reg3 in
                  match resized with
                  | None => CreateStuck
                  | Some reg4 =>
                      match Store.redraw disp H fuel reg4 path false with
                      | None => CreateStuck
                      | Some (reg5, _) => CreateOk reg5 path
                      end
                  end
              end
    end.

End Create.

End Manager.

(** ** Occlusion culling: the statement *)

(** No message is queued anywhere in the tree. *)
Fixpoint queuesEmpty (w : Window) : bool :=
  match _queue w with
  | [] => forallb queuesEmpty (_children w)
  | _ :: _ => false
  end.

(** [inner] lies inside [outer], edges included. *)
Definition insideRect (inner outer : Rect) : Prop :=
  left outer <= left inner /\ right inner <= right outer /\
  top outer <= top inner /\ bottom inner <= bottom outer.

(** The dirty rectangle of a window is well formed and, unless it is empty,
    lies within the rectangle of the window.  The constructor sets the
    dirty rectangle to the rectangle of the window and a render pass clears
    it; [setRect] to a smaller rectangle leaves one that does not fit.  It
    is what the blit loop of [render] needs for [displayToWindow] to succeed
    on every rectangle it blits. *)
Definition dirtyRectFits (w : Window) : Prop :=
  wf_rect (getDirtyRect w) /\
  (empty (getDirtyRect w) = true \/
   withinRect (getDirtyRect w) (getRect w) = true).

(** The pass is not skipped by the rate limit and the screensaver is off. *)
Definition renderRuns (wm : WindowManager) (now : Z) : Prop :=
  (to_u32 (now - _lastRenderTime wm) <? minRenderIntervalMsec wm) = false /\
  bitsHigh (wm_state wm) WMS_SSAVER_ENABLED = false /\
  bitsHigh (wm_state wm) WMS_SSAVER_ACTIVE = false.

(** What the pass must do for the window at index [i]: no blit for it, and
    its dirty rectangle empty afterwards. *)
Definition culled (H : Hooks) (rounds fuel : nat) (wm : WindowManager)
    (now : Z) (i : nat) : Prop :=
  exists wm' ops W',
    Manager.render H rounds fuel wm now = Some (wm', ops) /\
    (forall op, In op ops -> blitSlot op <> Some i) /\
    nth_error (_registry wm') i = Some W' /\
    empty (getDirtyRect W') = true.

(** The claim as the specification words it: any window covered by a
    drawable window above it is culled by a pass that runs. *)
Definition occlusion_spec (H : Hooks) (rounds fuel : nat) (wm : WindowManager)
    (now : Z) : Prop :=
  forall i j W V,
    renderRuns wm now ->
    nth_error (_registry wm) i = Some W ->
    nth_error (_registry wm) j = Some V ->
    (i < j)%nat ->
    isDrawable (getDisplayRect wm) [] V = true ->
    withinRect (getRect W) (getRect V) = true ->
    culled H rounds fuel wm now i.

(** ** Sample inputs *)

Definition sampleWindow (id : Z) (style : Z) : Window :=
  mkWindow id None style 0 (mkRect 0 0 10 10) (mkRect 0 0 10 10) 0 [] [].

Definition sampleOps : list ContainerOp :=
  [OpAdd (sampleWindow 1 STY_TOPLEVEL); OpAdd (sampleWindow 2 STY_TOPLEVEL);
   OpAdd (sampleWindow 3 STY_TOPLEVEL); OpForeground (sampleWindow 1 STY_TOPLEVEL);
   OpRemove 2].


(** A 320x240 display holding one top-level window with one child. *)
Definition sampleDisplay : Rect := Rect_ctor 0 0 320 240.

Definition sampleChild : Window :=
  mkWindow 2 (Some 1) (Z.lor STY_CHILD STY_VISIBLE) STA_ALIVE
           (mkRect 5 5 60 30) Rect0 0 [] [].

Definition sampleParent : Window :=
  mkWindow 1 None (Z.lor STY_TOPLEVEL STY_VISIBLE) STA_ALIVE
           (mkRect 0 0 100 100) Rect0 0 [] [sampleChild].

Definition sampleWM : WindowManager :=
  mkWM [sampleParent] 0 320 240 100 200 0 0 0 0.

(** Two taps on the child, far enough apart to pass the rate limit. *)
Definition tappedTwice : WindowManager :=
  hitTest (hitTest sampleWM 300 10 10) 600 12 12.

(** Two top-level windows, the upper one covering the lower one. *)
Definition coveringWindow : Window :=
  mkWindow 2 None (Z.lor STY_TOPLEVEL STY_VISIBLE) STA_ALIVE
           (mkRect 0 0 50 50) Rect0 1 [] [].

Definition coveredWindow (style state : Z) (dirty : Rect)
    (queue : list PackagedMessage) : Window :=
  mkWindow 1 None style state (mkRect 10 10 20 20) dirty 0 queue [].

Definition coveredWM (lower : Window) : WindowManager :=
  mkWM [lower; coveringWindow] 0 320 240 100 200 0 0 0 0.

(** The lower window hidden, with its whole rectangle dirty. *)
Definition hiddenLower : Window :=
  coveredWindow STY_TOPLEVEL STA_ALIVE (mkRect 10 10 20 20) [].

(** The lower window drawable, with a dirty rectangle left over from a larger
    rectangle it had before [setRect]. *)
Definition shrunkLower : Window :=
  coveredWindow (Z.lor STY_TOPLEVEL STY_VISIBLE) STA_ALIVE
    (mkRect 10 10 100 100) [].

(** The lower window drawable and covered, with [MSG_DESTROY] queued. *)
Definition dyingLower : Window :=
  coveredWindow (Z.lor STY_TOPLEVEL STY_VISIBLE) STA_ALIVE
    (mkRect 10 10 20 20) [mkPM MSG_DESTROY 0 0].

(** The lower window drawable, covered, its dirty rectangle its own. *)
Definition dirtyLower : Window :=
  coveredWindow (Z.lor STY_TOPLEVEL STY_VISIBLE) STA_ALIVE
    (mkRect 10 10 20 20) [].

(** ** The drawable rule: the statement *)

(** Some point is within both rectangles, edges included: the first
    rectangle is not wholly outside the second. *)
Definition sharesPoint (a b : Rect) : Prop :=
  exists x y, pointWithin a x y = true /\ pointWithin b x y = true.

(** The rule as the specification words it: drawable exactly when visible,
    alive, with a drawable parent if there is a parent, and with a rectangle
    that is not wholly outside the display. *)
Definition drawable_spec (disp : Rect) (anc : list Window) (w : Window)
  : Prop :=
  isDrawable disp anc w = true <->
  (isVisible w = true /\ isAlive w = true /\
   match anc with
   | [] => True
   | parent :: rest => isDrawable disp rest parent = true
   end /\
   sharesPoint (getRect w) disp).

(** A top-level window one pixel larger than the 320x240 display on every
    side, as [createWindow(nullptr, 3, STY_TOPLEVEL | STY_VISIBLE, -1, -1,
    322, 242)] makes it. *)
Definition windowAroundDisplay : Window :=
  mkWindow 3 None (Z.lor STY_TOPLEVEL STY_VISIBLE) STA_ALIVE
           (mkRect (-1) (-1) 321 241) (mkRect (-1) (-1) 321 241) 0 [] [].

(** ** Rect: inflate and deflate

    [left -= px] computes in [int] and stores the result in a [Coord]. *)
Definition inflate (r : Rect) (px : Z) : Rect :=
  mkRect (to_coord (left r - to_extent px)) (to_coord (top r - to_extent px))
         (to_coord (right r + to_extent px)) (to_coord (bottom r + to_extent px)).

(** What [deflate] asserts before it moves the edges:
    [EWM_ASSERT(px < width())] and [EWM_ASSERT(px < height())], with the
    assertions of [width()] and [height()] themselves. *)
Definition deflate_asserts (r : Rect) (px : Z) : bool :=
  (left r <=? right r) && (to_extent px <? width r) &&
  (top r <=? bottom r) && (to_extent px <? height r).

(** [deflate(px)]; [None] when an assertion fails and the call never
    returns. *)
Definition deflate (r : Rect) (px : Z) : option Rect :=
  if deflate_asserts r px
  then Some (mkRect (to_coord (left r + to_extent px))
                    (to_coord (top r + to_extent px))
                    (to_coord (right r - to_extent px))
                    (to_coord (bottom r - to_extent px)))
  else None.

(** ** WindowManager: coordinates, covering test, screensaver switch *)

Module Coords.

(** [windowToDisplay(win, pt)] *)
Definition windowToDisplay_pt (win : Window) (pt : Z * Z) : option (Z * Z) :=
  let windowRect := getRect win in
  let clientRect := Rect_ctor 0 0 (width windowRect) (height windowRect) in
  if pointWithin clientRect (fst pt) (snd pt)
  then Some (to_coord (fst pt + left windowRect),
             to_coord (snd pt + top windowRect))
  else None.

(** [windowToDisplay(win, rect)] *)
Definition windowToDisplay (win : Window) (rect : Rect) : option Rect :=
  match windowToDisplay_pt win (left rect, top rect) with
  | None => None
  | Some topLeft =>
      match windowToDisplay_pt win (right rect, bottom rect) with
      | None => None
      | Some bottomRight =>
          Some (mkRect (fst topLeft) (snd topLeft)
                       (fst bottomRight) (snd bottomRight))
      end
  end.

End Coords.

(** The visitor of [isWindowEntirelyCovered] over the windows met before
    [win], last window of the registry first. *)
Fixpoint coveredWalk (displayRect rect : Rect) (others : list Window) : bool :=
  match others with
  | [] => false
  | other :: rest =>
      if negb (isDrawable displayRect [] other)
      then coveredWalk displayRect rect rest
      else if withinRect rect (getRect other) then true
      else coveredWalk displayRect rect rest
  end.

(** [isWindowEntirelyCovered(win)] for the window at [path].  The walk
    starts at the back of the registry and ends when it meets [win] itself,
    which it does only when [win] is a top-level window. *)
Definition isWindowEntirelyCovered (displayRect : Rect) (reg : list Window)
    (path : Path) : bool :=
  match getAt reg path with
  | None => false
  | Some win =>
      let above := match path with
                   | [i] => skipn (S i) reg
                   | _ => reg
                   end in
      coveredWalk displayRect (getRect win) (rev above)
  end.

(** [enableScreensaver(activateAfterMsec)]; [now] is [millis()]. *)
Definition enableScreensaver (wm : WindowManager) (now activateAfterMsec : Z)
  : WindowManager :=
  mkWM (_registry wm) (to_u16 (Z.lor (wm_state wm) WMS_SSAVER_ENABLED))
       (displayWidth wm) (displayHeight wm)
       (minRenderIntervalMsec wm) (minHitTestIntervalMsec wm)
       now (to_u32 activateAfterMsec)
       (_lastRenderTime wm) (_lastHitTestTime wm).

Definition disableScreensaver (wm : WindowManager) : WindowManager :=
  with_wm_state wm
    (Z.land (wm_state wm)
       (Z.lnot (Z.lor (Z.lor WMS_SSAVER_ENABLED WMS_SSAVER_ACTIVE)
                      WMS_SSAVER_DRAWN))).

(** A rectangle that the blit loop may take for the window [W] at index
    [slot], read against the registry the pass started from: [W] is
    drawable, the rectangle lies within the rectangle of [W], its pixels are
    dirty pixels of [W], and none of them lies in the rectangle of a
    drawable window later in the registry. *)
Definition blitRectAllowed (displayRect : Rect) (reg : list Window)
    (slot : nat) (W : Window) (dirtyRect : Rect) : Prop :=
  nth_error reg slot = Some W /\
  isDrawable displayRect [] W = true /\
  withinRect dirtyRect (getRect W) = true /\
  (forall x y, pixelIn dirtyRect x y -> pixelIn (getDirtyRect W) x y) /\
  (forall j V, (slot < j)%nat -> nth_error reg j = Some V ->
     isDrawable displayRect [] V = true ->
     forall x y, pixelIn dirtyRect x y -> ~ pixelIn (getRect V) x y).

(** What a display operation of a render pass over the windows may be: a
    blit transfers such a rectangle, from the client coordinates
    [displayToWindow] gives; a [drawRect] call is the one the loop makes
    for such a rectangle, which starts one pixel to the left of it and one
    pixel above it. *)
Definition blitAllowed (displayRect : Rect) (reg : list Window)
    (op : DisplayOp) : Prop :=
  match op with
  | Blit slot id dirtyRect clientDirtyRect =>
      exists W,
        blitRectAllowed displayRect reg slot W dirtyRect /\ getID W = id /\
        Manager.displayToWindow W dirtyRect = Some clientDirtyRect
  | DrawRect slot x y w h color =>
      exists W dirtyRect,
        blitRectAllowed displayRect reg slot W dirtyRect /\
        x = left dirtyRect - 1 /\ y = top dirtyRect - 1 /\
        w = width dirtyRect + 1 /\ h = height dirtyRect + 1 /\
        color = 63519
  | DrawScreensaver => False
  | Flush => True
  end.

(** Two top-level windows, the upper one over a corner of the lower one,
    which is dirty all over. *)
Definition partlyCoveredWM : WindowManager :=
  mkWM [mkWindow 1 None (Z.lor STY_TOPLEVEL STY_VISIBLE) STA_ALIVE
          (mkRect 0 0 100 100) (mkRect 0 0 100 100) 0 [] [];
        mkWindow 2 None (Z.lor STY_TOPLEVEL STY_VISIBLE) STA_ALIVE
          (mkRect 50 50 150 150) Rect0 1 [] []]
       0 320 240 100 200 0 0 0 0.

(** The sample manager with the screensaver enabled, active and drawn,
    to come up after 5000 ms. *)
Definition sleepingWM : WindowManager :=
  mkWM [sampleParent] 7 320 240 100 200 0 5000 0 0.

(** ** Assertions on the way of a call *)

(** [hitTest(x, y)] past the rate limit: [EWM_ASSERT(x >= 0 && y >= 0)] and
    [EWM_ASSERT(x <= getDisplayWidth() && y <= getDisplayHeight())]. *)
Definition hitTest_asserts (wm : WindowManager) (x y : Z) : bool :=
  (0 <=? x) && (0 <=? y) &&
  (x <=? to_extent (displayWidth wm)) && (y <=? to_extent (displayHeight wm)).

(** [getClientRect()], which every [onDraw] calls: a window that is not a
    parentless top-level window runs [EWM_ASSERT(parent)]. *)
Definition getClientRect_asserts (w : Window) : bool :=
  if bitsHigh (getStyle w) STY_TOPLEVEL &&
     match getParent w with None => true | Some _ => false end
  then true
  else match getParent w with None => false | Some _ => true end.

(** A redraw of the window draws it and windows below it. *)
Fixpoint drawAsserts (w : Window) : bool :=
  getClientRect_asserts w && forallb drawAsserts (_children w).

(** [routeMessage] of a window of class [Window] for the message [pm]: the
    [default] case of its [switch] runs [EWM_ASSERT(false)], [onInput] does
    so for a type other than [INPUT_TAP], and [onResize] asserts
    [STY_AUTOSIZE]. *)
Definition messageAsserts (w : Window) (pm : PackagedMessage) : bool :=
  match msg pm with
  | MSG_NONE => false
  | MSG_INPUT => getMsgParamLoWord (p1 pm) =? INPUT_TAP
  | MSG_RESIZE => bitsHigh (getStyle w) STY_AUTOSIZE
  | _ => true
  end.

(** Every message queued at or below the window can be routed, and every
    window there can be drawn. *)
Fixpoint queueAsserts (w : Window) : bool :=
  getClientRect_asserts w && forallb (messageAsserts w) (_queue w) &&
  forallb queueAsserts (_children w).

(** ** Hit testing: the window a tap is for *)

(** The window is drawable and the point is within its rectangle. *)
Definition underPoint (displayRect : Rect) (anc : list Window) (x y : Z)
    (w : Window) : bool :=
  isDrawable displayRect anc w && pointWithin (getRect w) x y.

(** [pm] was appended to the queue of one window of the tree under [w],
    found by going down from [w] through windows that are under the point,
    each time into the last child that is under the point, until a window
    none of whose children is under the point. *)
Inductive deliveredUnder (displayRect : Rect) (x y : Z) (pm : PackagedMessage)
  : list Window -> Window -> Window -> Prop :=
| deliveredUnder_here anc w :
    underPoint displayRect anc x y w = true ->
    Forall (fun c => underPoint displayRect (w :: anc) x y c = false)
      (_children w) ->
    deliveredUnder displayRect x y pm anc w (with_queue w (_queue w ++ [pm]))
| deliveredUnder_below anc w a c c' b :
    underPoint displayRect anc x y w = true ->
    _children w = a ++ c :: b ->
    Forall (fun c => underPoint displayRect (w :: anc) x y c = false) b ->
    deliveredUnder displayRect x y pm (w :: anc) c c' ->
    deliveredUnder displayRect x y pm anc w (with_children w (a ++ c' :: b)).

(** ** What drawing and routing leave alone

    The tree with every dirty rectangle forgotten and every state word
    seen through [m]. *)
Fixpoint eraseWith (m : Z -> Z) (w : Window) : Window :=
  mkWindow (getID w) (getParent w) (getStyle w) (m (getState w)) (getRect w)
           Rect0 (getZOrder w) (_queue w) (map (eraseWith m) (_children w)).

(** The state word without [STA_DIRTY], and no state word at all. *)
Definition noDirtyBit (s : Z) : Z := Z.land (to_u16 s) (Z.lnot STA_DIRTY).
Definition noState (s : Z) : Z := 0.

(** Every queue of the tree without its front message. *)
Fixpoint popAll (w : Window) : Window :=
  mkWindow (getID w) (getParent w) (getStyle w) (getState w) (getRect w)
           (getDirtyRect w) (getZOrder w) (tl (_queue w))
           (map popAll (_children w)).

(** The front message dropped from the queue of the window itself. *)
Definition popFront (w : Window) : Window := with_queue w (tl (_queue w)).

(** ** Window: setRect, show; CheckBox *)

Definition with_rect (w : Window) (r : Rect) : Window :=
  mkWindow (getID w) (getParent w) (getStyle w) (getState w) r
           (getDirtyRect w) (getZOrder w) (_queue w) (_children w).

Module WindowMethods.

Section WithHooks.

Variable displayRect : Rect.
Variable H : Hooks.

(** [setRect(rect)] *)
Definition setRect (fuel : nat) (reg : list Window) (path : Path) (rect : Rect)
  : option (list Window) :=
  match getAt reg path with
  | None => None
  | Some w =>
      if negb (Rect_eqb rect (getRect w)) then
        match Store.setDirty displayRect H fuel
                (updAt reg path (fun w => with_rect w rect)) path true true with
        | None => None
        | Some (reg', _) => Some reg'
        end
      else Some reg
  end.

(** [show()].  A top-level window is first brought to the foreground of the
    registry, which moves it to the end: the result carries the path the
    receiver has afterwards.  [shown && setDirty(true)] does not call
    [setDirty] when [shown] is false. *)
Definition show (fuel : nat) (reg : list Window) (path : Path)
  : option (list Window * Path * bool) :=
  match getAt reg path with
  | None => None
  | Some w =>
      let topLevel := bitsHigh (getStyle w) STY_TOPLEVEL in
      if negb topLevel && isVisible w then Some (reg, path, false)
      else
        let '(reg1, path1, shown) :=
          if topLevel then
            let (c, ok) := WindowContainer.setForegroundWindow reg w in
            if ok then (c, [pred (length c)], true) else (reg, path, false)
          else (reg, path, true) in
        match getAt reg1 path1 with
        | None => None
        | Some w1 =>
            match Store.setStyle displayRect H fuel reg1 path1
                    (Z.lor (getStyle w1) STY_VISIBLE) with
            | None => None
            | Some reg2 =>
                if shown then
                  match Store.setDirty displayRect H fuel reg2 path1
                          true true with
                  | None => None
                  | Some (reg3, b) => Some (reg3, path1, b)
                  end
                else Some (reg2, path1, false)
            end
        end
  end.

(** [CheckBox::isChecked] and [CheckBox::setChecked] *)
Definition isChecked (w : Window) : bool := bitsHigh (getState w) STA_CHECKED.

Definition setChecked (fuel : nat) (reg : list Window) (path : Path)
    (checked : bool) : option (list Window) :=
  match getAt reg path with
  | None => None
  | Some w =>
      if negb (Bool.eqb (isChecked w) checked) then
        let reg1 :=
          updAt reg path
            (fun w =>
               setState w
                 (if checked then Z.lor (getState w) STA_CHECKED
                  else Z.land (getState w) (Z.lnot STA_CHECKED))) in
        match Store.setDirty displayRect H fuel reg1 path true true with
        | None => None
        | Some (reg', _) => Some reg'
        end
      else Some reg
  end.

(** [CheckBox::onTapped]; [checkDelay] is the theme's
    [METRIC_CHECKBOX_CHECK_DELAY], [now] and [now'] are the two readings
    of [millis()], in the order of the calls, and the second component of
    the result is [_lastToggle]. *)
Definition CheckBox_onTapped (fuel : nat) (checkDelay : Z)
    (reg : list Window) (path : Path) (_lastToggle now now' : Z)
  : option (list Window * Z * bool) :=
  if to_u32 (now - _lastToggle) >=? checkDelay then
    match getAt reg path with
    | None => None
    | Some w =>
        match setChecked fuel reg path (negb (isChecked w)) with
        | None => None
        | Some reg' => Some (reg', now', true)
        end
    end
  else Some (reg, _lastToggle, true).

End WithHooks.

End WindowMethods.

(** [win->routeMessage(MSG_CREATE)] in [createWindow] for a window without
    parent.  The window is in no container yet; it has no children and no
    parent, so the call reads and writes this window alone, and it is run
    here as the only window of a registry of its own. *)
Definition routeCreate_parentless (displayRect : Rect) (H : Hooks)
    (fuel : nat) (reg : list Window) (parent : option Path) (win : Window)
  : list Window * Window * bool :=
  match Store.routeMessage displayRect H fuel [win] [0%nat] MSG_CREATE 0 0 with
  | Some ([win'], handled) => (reg, win', handled)
  | _ => (reg, win, false)
  end.

(** The state word that [setChecked] writes. *)
Definition checkedState (checked : bool) (s : Z) : Z :=
  if checked then Z.lor s STA_CHECKED else Z.land s (Z.lnot STA_CHECKED).
(** ** Geometry: proofs *)

Lemma to_coord_id z : is_coord z -> to_coord z = z.
Proof.
  unfold is_coord, to_coord. intros H.
  rewrite Z.mod_small by lia. lia.
Qed.

Lemma to_coord_extent_id z : is_coord z -> to_coord (to_extent z) = z.
Proof.
  unfold is_coord, to_coord, to_extent. intros H.
  destruct (Z_lt_le_dec z 0) as [Hn | Hp].
  - replace (z mod 65536) with (z + 65536).
    + replace (z + 65536 + 32768) with (z + 32768 + 1 * 65536) by lia.
      rewrite Z_mod_plus_full, Z.mod_small by lia. lia.
    + replace z with (z + 65536 + (-1) * 65536) at 2 by lia.
      rewrite Z_mod_plus_full, Z.mod_small by lia. reflexivity.
  - rewrite (Z.mod_small z) by lia. rewrite Z.mod_small by lia. lia.
Qed.

Lemma Rect_ctor_id l t r b :
  is_coord l -> is_coord t -> is_coord r -> is_coord b ->
  Rect_ctor l t r b = mkRect l t r b.
Proof.
  intros. unfold Rect_ctor.
  now rewrite !to_coord_extent_id, !to_coord_id.
Qed.

Lemma overlapsRect_orb r o :
  overlapsRect r o =
  ((((top r >=? top o) && (top r <=? bottom o)) ||
    ((bottom r <=? bottom o) && (bottom r >=? top o))) &&
   (((left r <=? left o) && (right r >=? left o)) ||
    ((right r >=? right o) && (left r <=? right o)))) ||
  ((((left r >=? left o) && (left r <=? right o)) ||
    ((right r <=? right o) && (right r >=? left o))) &&
   (((top r <=? top o) && (bottom r >=? top o)) ||
    ((bottom r >=? bottom o) && (top r <=? bottom o)))) ||
  (((left r <=? left o) && (top r <=? top o) &&
    (right r >=? right o) && (bottom r >=? bottom o)) ||
   ((left r >=? left o) && (top r >=? top o) &&
    (right r <=? right o) && (bottom r <=? bottom o))).
Proof.
  unfold overlapsRect.
  repeat match goal with |- context [if ?c then _ else _] => destruct c end;
    reflexivity.
Qed.

Ltac b2p :=
  repeat rewrite ?orb_true_iff, ?andb_true_iff, ?negb_true_iff, ?orb_false_iff,
    ?andb_false_iff, ?negb_false_iff, ?Z.leb_le, ?Z.geb_le, ?Z.ltb_lt,
    ?Z.gtb_lt, ?Z.leb_gt, ?Z.ltb_ge, ?Z.eqb_eq, ?Z.eqb_neq in *.

(** What [overlapsRect] answers [true] on has a common point. *)
Lemma overlapsRect_sound r o :
  left r <= right r -> top r <= bottom r ->
  left o <= right o -> top o <= bottom o ->
  overlapsRect r o = true ->
  left r <= right o /\ left o <= right r /\
  top r <= bottom o /\ top o <= bottom r.
Proof.
  intros Hr1 Hr2 Ho1 Ho2. rewrite overlapsRect_orb, !Z.geb_leb.
  intros Hov.
  apply orb_true_iff in Hov as [Hov | Hov];
    [ apply orb_true_iff in Hov as [Hov | Hov] | ].
  - apply andb_true_iff in Hov as [Hv Hh].
    apply orb_true_iff in Hv as [Hv | Hv];
      apply andb_true_iff in Hv as [Hv1 Hv2];
      apply orb_true_iff in Hh as [Hh | Hh];
      apply andb_true_iff in Hh as [Hh1 Hh2];
      apply Z.leb_le in Hv1, Hv2, Hh1, Hh2; lia.
  - apply andb_true_iff in Hov as [Hh Hv].
    apply orb_true_iff in Hv as [Hv | Hv];
      apply andb_true_iff in Hv as [Hv1 Hv2];
      apply orb_true_iff in Hh as [Hh | Hh];
      apply andb_true_iff in Hh as [Hh1 Hh2];
      apply Z.leb_le in Hv1, Hv2, Hh1, Hh2; lia.
  - apply orb_true_iff in Hov as [Hov | Hov];
      apply andb_true_iff in Hov as [Hov H4];
      apply andb_true_iff in Hov as [Hov H3];
      apply andb_true_iff in Hov as [H1 H2];
      apply Z.leb_le in H1, H2, H3, H4; lia.
Qed.

Ltac leb_decide :=
  repeat match goal with
  | |- context [?x <=? ?y] =>
      first [ rewrite (proj2 (Z.leb_le x y)) by lia
            | rewrite (proj2 (Z.leb_gt x y)) by lia ]
  end.

(** Two rectangles with a common point: [overlapsRect] answers [true] one
    way round at least. *)
Lemma overlapsRect_complete A B :
  left A <= right B -> left B <= right A ->
  top A <= bottom B -> top B <= bottom A ->
  overlapsRect A B || overlapsRect B A = true.
Proof.
  intros H1 H2 H3 H4. rewrite !overlapsRect_orb, !Z.geb_leb.
  destruct A as [lA tA rA bA], B as [lB tB rB bB].
  cbn [left top right bottom] in *.
  destruct (Z.lt_trichotomy tA tB) as [ ? | [ ? | ? ] ];
    destruct (Z.lt_trichotomy bA bB) as [ ? | [ ? | ? ] ];
    destruct (Z.lt_trichotomy lA lB) as [ ? | [ ? | ? ] ];
    destruct (Z.lt_trichotomy rA rB) as [ ? | [ ? | ? ] ];
    leb_decide; reflexivity.
Qed.

(** On well-formed rectangles [intersectsRect] is the intersection test of
    the closed rectangles. *)
Lemma intersectsRect_spec A B :
  left A <= right A -> top A <= bottom A ->
  left B <= right B -> top B <= bottom B ->
  intersectsRect A B = true <->
  (left A <= right B /\ left B <= right A /\
   top A <= bottom B /\ top B <= bottom A).
Proof.
  intros HA1 HA2 HB1 HB2. unfold intersectsRect. split.
  - intros Hi. apply orb_true_iff in Hi as [Hi | Hi].
    + now apply overlapsRect_sound.
    + apply overlapsRect_sound in Hi; try assumption. lia.
  - intros (H1 & H2 & H3 & H4). now apply overlapsRect_complete.
Qed.

Lemma pixelInb_spec r x y : pixelInb r x y = true <-> pixelIn r x y.
Proof. unfold pixelInb, pixelIn. b2p. lia. Qed.

Ltac norm_coords :=
  repeat match goal with
  | |- context [to_coord (to_extent ?z)] =>
      rewrite (to_coord_extent_id z) by (unfold is_coord in *; lia)
  | |- context [to_coord ?z] =>
      rewrite (to_coord_id z) by (unfold is_coord in *; lia)
  end.


Lemma subtractRect_unfold this other :
  subtractRect this other =
  if intersectsRect this other then
    let m := mergeRect this other in
    let aL := left m >=? left other in
    let aT := top m >=? top other in
    let aR := right m <=? right other in
    let aB := bottom m <=? bottom other in
    if negb aL || negb aT || negb aR || negb aB
    then subtractPieces this other m aL aT aR aB else []
  else [].
Proof. reflexivity. Qed.

Ltac minmax_simp :=
  repeat match goal with
  | |- context [Z.min ?a ?b] =>
      first [ rewrite (Z.min_l a b) by lia | rewrite (Z.min_r a b) by lia ]
  | |- context [Z.max ?a ?b] =>
      first [ rewrite (Z.max_l a b) by lia | rewrite (Z.max_r a b) by lia ]
  end.

Ltac leb_simp :=
  repeat match goal with
  | |- context [?a <=? ?b] =>
      first [ rewrite (proj2 (Z.leb_le a b)) by lia
            | rewrite (proj2 (Z.leb_gt a b)) by lia ]
  end.

Lemma subtractRect_cover_b A B x y :
  wf_rect A -> wf_rect B -> intersectsRect A B = true ->
  existsb (fun r => pixelInb r x y) (subtractRect A B) =
  pixelInb A x y && negb (pixelInb B x y).
Proof.
  intros (a1 & a2 & a3 & a4 & a5 & a6) (b1 & b2 & b3 & b4 & b5 & b6) Hi.
  rewrite subtractRect_unfold, Hi.
  apply intersectsRect_spec in Hi; try assumption.
  unfold is_coord in *.
  destruct A as [lA tA rA bA], B as [lB tB rB bB].
  cbn [left top right bottom] in *.
  unfold mergeRect. cbn [left top right bottom]. rewrite !Z.geb_leb.
  match goal with |- _ = ?r => set (rhs := r) end.
  destruct (Z_le_gt_dec lB lA), (Z_le_gt_dec tB tA),
    (Z_le_gt_dec rA rB), (Z_le_gt_dec bA bB);
    minmax_simp; norm_coords; leb_simp;
    cbv beta iota zeta delta [subtractPieces when emplace Rect_ctor negb orb andb app
      left top right bottom];
    minmax_simp; norm_coords;
    cbn [existsb]; subst rhs; unfold pixelInb; cbn [left top right bottom].
  all: apply eq_true_iff_eq; b2p.
  all: lia.
Qed.

Lemma subtractRect_no_intersection A B :
  intersectsRect A B = false -> subtractRect A B = [].
Proof. intros H. unfold subtractRect. now rewrite H. Qed.

Lemma withinRect_spec A B :
  withinRect A B = true <->
  (left B <= left A <= right B /\ left B <= right A <= right B /\
   top B <= top A <= bottom B /\ top B <= bottom A <= bottom B).
Proof.
  unfold withinRect, pointWithin. rewrite !Z.geb_leb. b2p. lia.
Qed.

Lemma subtractRect_within A B :
  wf_rect A -> wf_rect B -> withinRect A B = true -> subtractRect A B = [].
Proof.
  intros (a1 & a2 & a3 & a4 & a5 & a6) (b1 & b2 & b3 & b4 & b5 & b6) Hw.
  apply withinRect_spec in Hw.
  rewrite subtractRect_unfold.
  destruct (intersectsRect A B); [ | reflexivity ].
  unfold mergeRect. cbn [left top right bottom]. rewrite !Z.geb_leb.
  unfold is_coord in *.
  minmax_simp; norm_coords; leb_simp. reflexivity.
Qed.

Lemma covers_of_cover_b A B :
  (forall x y, existsb (fun r => pixelInb r x y) (subtractRect A B) =
               pixelInb A x y && negb (pixelInb B x y)) ->
  covers_difference A B (subtractRect A B).
Proof.
  intros Hb x y. specialize (Hb x y).
  rewrite <- !pixelInb_spec.
  assert (Hex : (exists r, In r (subtractRect A B) /\ pixelIn r x y) <->
                existsb (fun r => pixelInb r x y) (subtractRect A B) = true).
  { rewrite existsb_exists. split; intros (r & Hin & Hp); exists r; split;
      try assumption; now apply pixelInb_spec. }
  rewrite Hex, Hb, andb_true_iff, negb_true_iff.
  destruct (pixelInb B x y); intuition congruence.
Qed.

(** C1 (as amended). For well-formed rectangles that intersect, the
    rectangles returned by [subtractRect] cover exactly the pixels of [A]
    that are not pixels of [B]; when [B] contains [A] nothing is returned.
    The returned rectangles are allowed to overlap one another. *)
Theorem subtractRect_covers_difference A B :
  wf_rect A -> wf_rect B ->
  (intersectsRect A B = true -> covers_difference A B (subtractRect A B)) /\
  (withinRect A B = true -> subtractRect A B = []).
Proof.
  intros HA HB. split.
  - intros Hi. apply covers_of_cover_b. intros x y.
    now apply subtractRect_cover_b.
  - now apply subtractRect_within.
Qed.

Lemma subtractRect_covers_difference_witness :
  (wf_rect (mkRect 0 0 100 100) /\ wf_rect (mkRect 50 50 150 150) /\
   intersectsRect (mkRect 0 0 100 100) (mkRect 50 50 150 150) = true /\
   covers_difference (mkRect 0 0 100 100) (mkRect 50 50 150 150)
     (subtractRect (mkRect 0 0 100 100) (mkRect 50 50 150 150))) /\
  (wf_rect (mkRect 10 10 20 20) /\ wf_rect (mkRect 0 0 50 50) /\
   withinRect (mkRect 10 10 20 20) (mkRect 0 0 50 50) = true /\
   subtractRect (mkRect 10 10 20 20) (mkRect 0 0 50 50) = []).
Proof.
  assert (HA : wf_rect (mkRect 0 0 100 100))
    by (unfold wf_rect, is_coord; cbn; lia).
  assert (HB : wf_rect (mkRect 50 50 150 150))
    by (unfold wf_rect, is_coord; cbn; lia).
  assert (HC : wf_rect (mkRect 10 10 20 20))
    by (unfold wf_rect, is_coord; cbn; lia).
  assert (HD : wf_rect (mkRect 0 0 50 50))
    by (unfold wf_rect, is_coord; cbn; lia).
  split.
  - repeat (split; [ assumption || reflexivity | ]).
    apply (subtractRect_covers_difference _ _ HA HB). reflexivity.
  - repeat (split; [ assumption || reflexivity | ]).
    apply (subtractRect_covers_difference _ _ HC HD). reflexivity.
Defined.

(** The two overlapping top-level windows of the specification's scenario:
    the two strips returned share the square (0,0)-(50,50). *)
Example subtractRect_scenario :
  subtractRect (mkRect 0 0 100 100) (mkRect 50 50 150 150) =
  [mkRect 0 0 50 100; mkRect 0 0 100 50].
Proof. reflexivity. Qed.

(** C1 (as stated) fails: the returned rectangles are not pairwise
    disjoint. *)
Lemma subtractRect_not_disjoint :
  ~ subtract_spec (mkRect 0 0 100 100) (mkRect 50 50 150 150).
Proof.
  intros (Hd & _). rewrite subtractRect_scenario in Hd.
  apply (Hd 0%nat 1%nat (mkRect 0 0 50 100) (mkRect 0 0 100 50) 10 10);
    try reflexivity; try discriminate; unfold pixelIn; cbn; lia.
Qed.

(** ** queueMessage *)

Lemma Message_eqb_eq a b : Message_eqb a b = true <-> a = b.
Proof. destruct a, b; cbn; split; intros H; try reflexivity; discriminate. Qed.

(** C10. [queueMessage] always appends exactly the packaged message to the
    FIFO and touches nothing else; its result is [true] exactly for a
    [MSG_INPUT] whose first parameter has low word [INPUT_TAP]. *)
Theorem queueMessage_appends_and_reports_tap (w : Window) (m : Message) (p1 p2 : Z) :
  _queue (fst (queueMessage w m p1 p2)) = _queue w ++ [mkPM m p1 p2] /\
  length (_queue (fst (queueMessage w m p1 p2))) = S (length (_queue w)) /\
  fst (queueMessage w m p1 p2) = with_queue w (_queue w ++ [mkPM m p1 p2]) /\
  (snd (queueMessage w m p1 p2) = true <->
   m = MSG_INPUT /\ getMsgParamLoWord p1 = INPUT_TAP) /\
  (m <> MSG_INPUT -> snd (queueMessage w m p1 p2) = false).
Proof.
  unfold queueMessage; cbn [fst snd _queue with_queue].
  split; [ reflexivity | ].
  split; [ rewrite length_app; cbn; lia | ].
  split; [ reflexivity | ].
  split; [ split | ].
  - intros Ht; apply andb_true_iff in Ht as [Hm Hp]. split.
    + now apply Message_eqb_eq.
    + now apply Z.eqb_eq.
  - intros [-> Hp]. cbn. now apply Z.eqb_eq.
  - intros Hne. destruct (Message_eqb m MSG_INPUT) eqn:E; [ | reflexivity ].
    apply Message_eqb_eq in E. contradiction.
Qed.

(** ** markRectDirty *)

Lemma markRectDirty_nonempty w rect :
  empty rect = false ->
  markRectDirty w rect =
  with_dirtyRect w
    (mkRect
       (if (left rect >=? left (getRect w)) &&
           ((left rect <? left (getDirtyRect w)) || (left (getDirtyRect w) =? 0))
        then left rect else left (getDirtyRect w))
       (if (top rect >=? top (getRect w)) &&
           ((top rect <? top (getDirtyRect w)) || (top (getDirtyRect w) =? 0))
        then top rect else top (getDirtyRect w))
       (if (right rect <=? right (getRect w)) &&
           (right rect >? right (getDirtyRect w))
        then right rect else right (getDirtyRect w))
       (if (bottom rect <=? bottom (getRect w)) &&
           (bottom rect >? bottom (getDirtyRect w))
        then bottom rect else bottom (getDirtyRect w))).
Proof.
  intros He. destruct w as [i p s st r d z q c]. destruct d as [dl dt dr db].
  cbn [markRectDirty getRect getDirtyRect with_dirtyRect getID getParent
       getStyle getState getZOrder _queue _children].
  rewrite He. cbn [negb left top right bottom].
  repeat match goal with
         | |- context [if ?c then _ else _] =>
             lazymatch c with
             | context [if _ then _ else _] => fail
             | _ => destruct c; cbn [left top right bottom]
             end
         end; reflexivity.
Qed.

Lemma low_edge_update (a wl d : Z) :
  let d' := if (a >=? wl) && ((a <? d) || (d =? 0)) then a else d in
  (d' = d \/ d' = a) /\ (d <> 0 -> d' <= d) /\ (d = 0 -> wl <= a -> d' = a).
Proof.
  cbv zeta. rewrite Z.geb_leb.
  destruct (Z.leb_spec wl a), (Z.ltb_spec a d), (Z.eqb_spec d 0);
    cbn [andb orb]; lia.
Qed.

Lemma high_edge_update (a wr d : Z) :
  let d' := if (a <=? wr) && (a >? d) then a else d in
  (d' = d \/ d' = a) /\ d <= d'.
Proof.
  cbv zeta. rewrite Z.gtb_ltb.
  destruct (Z.leb_spec a wr), (Z.ltb_spec d a); cbn [andb]; lia.
Qed.

(** C8. For a non-empty [rect], [markRectDirty] decides each edge of the
    dirty rectangle on its own: left and top are replaced by the new value
    only when it is smaller or the stored one is zero, right and bottom only
    when the new value is larger.  With nonzero stored left and top edges
    the dirty rectangle can only grow: every point of the old one is a point
    of the new one. *)
Theorem markRectDirty_only_grows (w : Window) (rect : Rect) :
  empty rect = false ->
  let d := getDirtyRect w in
  let d' := getDirtyRect (markRectDirty w rect) in
  (left d' = left d \/ left d' = left rect) /\
  (top d' = top d \/ top d' = top rect) /\
  (right d' = right d \/ right d' = right rect) /\
  (bottom d' = bottom d \/ bottom d' = bottom rect) /\
  (left d <> 0 -> left d' <= left d) /\
  (top d <> 0 -> top d' <= top d) /\
  right d <= right d' /\
  bottom d <= bottom d' /\
  (left d = 0 -> left (getRect w) <= left rect -> left d' = left rect) /\
  (top d = 0 -> top (getRect w) <= top rect -> top d' = top rect) /\
  (left d <> 0 -> top d <> 0 -> right d <> 0 -> bottom d <> 0 ->
   forall x y, pointWithin d x y = true -> pointWithin d' x y = true).
Proof.
  intros He d d'. subst d'. rewrite (markRectDirty_nonempty _ _ He).
  subst d. cbn [getDirtyRect with_dirtyRect left top right bottom].
  pose proof (low_edge_update (left rect) (left (getRect w))
                (left (getDirtyRect w))) as HL.
  pose proof (low_edge_update (top rect) (top (getRect w))
                (top (getDirtyRect w))) as HT.
  pose proof (high_edge_update (right rect) (right (getRect w))
                (right (getDirtyRect w))) as HR.
  pose proof (high_edge_update (bottom rect) (bottom (getRect w))
                (bottom (getDirtyRect w))) as HB.
  cbv zeta in HL, HT, HR, HB.
  repeat match goal with
         | H : (?t = _ \/ _) /\ _ |- _ =>
             let e := fresh "e" in
             set (e := t) in *; clearbody e; destruct H as (? & ?)
         end.
  repeat match goal with H : _ /\ _ |- _ => destruct H end.
  repeat (split; [ assumption | ]).
  intros nl nt _ _ x y. unfold pointWithin. cbn [left top right bottom].
  rewrite !Z.geb_leb.
  intros Hin. apply andb_true_iff in Hin as [Hin Hb].
  apply andb_true_iff in Hin as [Hin Ht].
  apply andb_true_iff in Hin as [Hl Hr].
  apply Z.leb_le in Hl, Hr, Ht, Hb.
  repeat (apply andb_true_iff; split); apply Z.leb_le; lia.
Qed.

Lemma markRectDirty_only_grows_witness :
  empty (mkRect 12 12 18 18) = false /\
  forall x y,
    pointWithin (getDirtyRect dirtyLower) x y = true ->
    pointWithin
      (getDirtyRect (markRectDirty dirtyLower (mkRect 12 12 18 18))) x y = true.
Proof.
  split; [ reflexivity | ].
  pose proof (markRectDirty_only_grows dirtyLower (mkRect 12 12 18 18) eq_refl)
    as Hg.
  cbv zeta in Hg.
  destruct Hg as (_ & _ & _ & _ & _ & _ & _ & _ & _ & _ & Hg).
  apply Hg; cbn; lia.
Defined.

(** ** WindowContainer: z-order bookkeeping *)

Module ContainerFacts.
Import WindowContainer.

Lemma iota_length n : length (iota n) = n.
Proof. unfold iota. now rewrite length_map, length_seq. Qed.

Lemma iota_S n : iota (S n) = iota n ++ [Z.of_nat n].
Proof. unfold iota. now rewrite seq_S, map_app. Qed.

Lemma to_u8_small z : 0 <= z < 256 -> to_u8 z = z.
Proof. intros. unfold to_u8. now apply Z.mod_small. Qed.

Lemma distinct_ids_bound (l : list Z) :
  NoDup l -> Forall (fun z => 0 <= z < 256) l -> (length l <= 256)%nat.
Proof.
  intros Hnd Hall.
  assert (Hn : NoDup (map Z.to_nat l)).
  { clear -Hnd Hall. induction l as [ | a l IH ]; cbn; constructor.
    - inversion Hnd; subst. inversion Hall; subst.
      intros Hin. apply in_map_iff in Hin as (b & Hb & Hin).
      assert (b = a); [ | subst; contradiction ].
      rewrite Forall_forall in H4. specialize (H4 b Hin). lia.
    - inversion Hnd; inversion Hall; subst. now apply IH. }
  assert (Hi : incl (map Z.to_nat l) (seq 0 256)).
  { intros n Hin. apply in_map_iff in Hin as (b & <- & Hin).
    rewrite Forall_forall in Hall. specialize (Hall b Hin).
    apply in_seq. lia. }
  pose proof (NoDup_incl_length Hn Hi) as Hlen.
  now rewrite length_map, length_seq in Hlen.
Qed.

Lemma inv_length c : container_inv c -> (length c <= 256)%nat.
Proof.
  intros (_ & Hnd & Hv).
  replace (length c) with (length (ids c)) by apply length_map.
  apply distinct_ids_bound; [ assumption | ].
  unfold ids. rewrite Forall_map. exact Hv.
Qed.

Lemma ids_recalc k c : ids (recalculateZOrder_from k c) = ids c.
Proof.
  unfold ids. revert k.
  induction c as [ | w c IH ]; intros k; cbn; [ reflexivity | ].
  f_equal. apply IH.
Qed.

Lemma length_recalc k c : length (recalculateZOrder_from k c) = length c.
Proof.
  revert k. induction c as [ | w c IH ]; intros k; cbn; [ reflexivity | ].
  now rewrite IH.
Qed.

Lemma valid_recalc k c :
  Forall valid_id c -> Forall valid_id (recalculateZOrder_from k c).
Proof.
  revert k. induction c as [ | w c IH ]; intros k Hv; cbn; [ constructor | ].
  inversion Hv; subst. constructor; [ assumption | now apply IH ].
Qed.

Lemma zOrders_recalc_from k c :
  0 <= k -> k + Z.of_nat (length c) <= 256 ->
  zOrders (recalculateZOrder_from k c) =
  map (fun i => k + Z.of_nat i) (seq 0 (length c)).
Proof.
  revert k. induction c as [ | w c IH ]; intros k Hk Hb; [ reflexivity | ].
  cbn [recalculateZOrder_from zOrders map length seq getZOrder setZOrder].
  cbn [length] in Hb. rewrite (to_u8_small k) by lia.
  f_equal; [ cbn; lia | ].
  fold (zOrders (recalculateZOrder_from (to_u8 (k + 1)) c)).
  destruct c as [ | w' c ]; [ reflexivity | ].
  cbn [length] in Hb, IH.
  rewrite (to_u8_small (k + 1)) by lia.
  rewrite IH by lia. rewrite <- seq_shift, map_map.
  apply map_ext. intros i. lia.
Qed.

Lemma zOrders_recalc c :
  (length c <= 256)%nat -> zOrders (recalculateZOrder c) = iota (length c).
Proof.
  intros Hl. unfold recalculateZOrder. rewrite zOrders_recalc_from by lia.
  unfold iota. apply map_ext. intros i. lia.
Qed.

Lemma inv_recalc c :
  NoDup (ids c) -> Forall valid_id c -> container_inv (recalculateZOrder c).
Proof.
  intros Hnd Hv. unfold container_inv, recalculateZOrder.
  rewrite ids_recalc, length_recalc. repeat split.
  - apply zOrders_recalc.
    replace (length c) with (length (ids c)) by apply length_map.
    apply distinct_ids_bound; [ assumption | ].
    unfold ids. now rewrite Forall_map.
  - assumption.
  - now apply valid_recalc.
Qed.

Lemma getChildByID_None c id :
  getChildByID c id = None <-> ~ In id (ids c).
Proof.
  unfold ids. induction c as [ | w c IH ]; cbn; [ tauto | ].
  destruct (Z.eqb_spec id (getID w)) as [-> | Hne].
  - split; [ discriminate | intros H; exfalso; apply H; now left ].
  - rewrite IH. split; intros H; [ intros [Heq | Hin] | ].
    + now apply Hne.
    + now apply H.
    + intros Hin. apply H. now right.
Qed.

Lemma eraseFirstByID_Some c id c' :
  eraseFirstByID c id = Some c' ->
  exists a w b, c = a ++ w :: b /\ c' = a ++ b /\ getID w = id /\
                ~ In id (ids a).
Proof.
  unfold ids.
  revert c'. induction c as [ | w c IH ]; intros c'; cbn; [ discriminate | ].
  destruct (Z.eqb_spec (getID w) id) as [Heq | Hne].
  - intros [= <-]. exists [], w, c. cbn. tauto.
  - destruct (eraseFirstByID c id) as [ r | ]; [ | discriminate ].
    intros [= <-]. destruct (IH r eq_refl) as (a & x & b & -> & -> & Hx & Hn).
    exists (w :: a), x, b. cbn. repeat split; try assumption.
    intros [H | H]; [ now apply Hne | now apply Hn ].
Qed.

Lemma eraseFirstByID_None c id :
  eraseFirstByID c id = None <-> ~ In id (ids c).
Proof.
  unfold ids. induction c as [ | w c IH ]; cbn; [ tauto | ].
  destruct (Z.eqb_spec (getID w) id) as [Heq | Hne].
  - split; [ discriminate | intros H; exfalso; apply H; now left ].
  - destruct (eraseFirstByID c id) as [ r | ].
    + split; [ discriminate | ]. intros H. exfalso.
      assert (Hn : ~ In id (map getID c)) by tauto.
      apply IH in Hn. discriminate.
    + split; [ | reflexivity ]. intros _ [H | H]; [ now apply Hne | ].
      now apply (proj1 IH eq_refl).
Qed.

Lemma last_zOrder c :
  container_inv c ->
  match rev c with
  | [] => 0
  | last :: _ => to_u8 (getZOrder last + 1)
  end = to_u8 (Z.of_nat (length c)).
Proof.
  intros (Hz & _ & _).
  destruct c as [ | w c ] using rev_ind; [ reflexivity | ].
  rewrite rev_app_distr. cbn [rev app].
  unfold zOrders in Hz. rewrite map_app, length_app in Hz. cbn in Hz.
  replace (length c + 1)%nat with (S (length c)) in Hz by lia.
  rewrite iota_S in Hz.
  apply (f_equal (@rev Z)) in Hz. rewrite !rev_app_distr in Hz. cbn in Hz.
  injection Hz as Hz _. rewrite Hz, length_app. cbn. f_equal. lia.
Qed.

Lemma maxZOrder_iota c :
  zOrders c = iota (length c) -> maxZOrder c = Z.of_nat (length c) - 1.
Proof.
  unfold maxZOrder. intros ->. generalize (length c) as n.
  induction n as [ | n IH ]; [ reflexivity | ].
  rewrite iota_S, fold_right_app. cbn [fold_right].
  assert (G : forall l m, -1 <= m ->
            fold_right Z.max m l = Z.max m (fold_right Z.max (-1) l)).
  { induction l as [ | a l IHl ]; intros m Hm; cbn; [ lia | ].
    rewrite (IHl m Hm). lia. }
  rewrite G, IH by lia. lia.
Qed.

Lemma inv_addChild c child :
  container_inv c -> valid_id child -> container_inv (fst (addChild c child)).
Proof.
  intros Hinv Hv. unfold addChild.
  destruct (getChildByID c (getID child)) eqn:E; cbn [fst]; [ assumption | ].
  apply getChildByID_None in E.
  rewrite (last_zOrder c Hinv).
  assert (Hnd : NoDup (ids (c ++ [setZOrder child (to_u8 (Z.of_nat (length c)))]))).
  { unfold ids. rewrite map_app. cbn.
    destruct Hinv as (_ & Hnd & _).
    apply NoDup_app; [ assumption | repeat constructor; intros [] | ].
    intros x Hx [<- | []]. contradiction. }
  assert (Hva : Forall valid_id (c ++ [setZOrder child (to_u8 (Z.of_nat (length c)))])).
  { apply Forall_app. split; [ apply Hinv | ]. constructor; [ exact Hv | constructor ]. }
  assert (Hlen : (length c + 1 <= 256)%nat).
  { pose proof (distinct_ids_bound _ Hnd) as Hb.
    unfold ids in Hb. rewrite length_map, length_app in Hb. cbn in Hb.
    apply Hb. now rewrite Forall_map. }
  repeat split; try assumption.
  unfold zOrders. rewrite map_app, length_app. cbn.
  replace (length c + 1)%nat with (S (length c)) by lia.
  rewrite iota_S. f_equal; [ apply Hinv | ].
  f_equal. rewrite !(to_u8_small (Z.of_nat (length c))) by lia. reflexivity.
Qed.

Lemma erase_keeps c id c' :
  eraseFirstByID c id = Some c' ->
  NoDup (ids c) -> Forall valid_id c ->
  NoDup (ids c') /\ Forall valid_id c' /\ ~ In id (ids c').
Proof.
  intros He Hnd Hv.
  apply eraseFirstByID_Some in He as (a & w & b & -> & -> & Hid & Hna).
  unfold ids in *. rewrite map_app in *. cbn in Hnd.
  apply Forall_app in Hv as (Hva & Hvb). inversion Hvb; subst.
  split; [ now apply NoDup_remove_1 in Hnd | ].
  split; [ apply Forall_app; tauto | ].
  now apply NoDup_remove_2 in Hnd.
Qed.

Lemma inv_removeChildByID c id :
  container_inv c -> container_inv (fst (removeChildByID c id)).
Proof.
  intros Hinv. unfold removeChildByID.
  destruct (eraseFirstByID c id) as [ c' | ] eqn:E; cbn [fst]; [ | assumption ].
  destruct Hinv as (_ & Hnd & Hv).
  destruct (erase_keeps _ _ _ E Hnd Hv) as (Hnd' & Hv' & _).
  now apply inv_recalc.
Qed.

Lemma inv_setForegroundWindow c win :
  container_inv c -> valid_id win ->
  container_inv (fst (setForegroundWindow c win)).
Proof.
  intros Hinv Hw. unfold setForegroundWindow.
  destruct (_ && _); cbn [fst]; [ | assumption ].
  destruct (eraseFirstByID c (getID win)) as [ c' | ] eqn:E; cbn [fst];
    [ | assumption ].
  destruct Hinv as (_ & Hnd & Hv).
  destruct (erase_keeps _ _ _ E Hnd Hv) as (Hnd' & Hv' & Hni).
  apply inv_recalc.
  - unfold ids. rewrite map_app. cbn.
    apply NoDup_app; [ assumption | repeat constructor; intros [] | ].
    intros x Hx [<- | []]. contradiction.
  - apply Forall_app. split; [ assumption | ]. constructor; [ exact Hw | constructor ].
Qed.

Lemma inv_applyOp c op :
  container_inv c -> op_valid op -> container_inv (applyOp c op).
Proof.
  intros Hinv Hop. destruct op; cbn in *.
  - now apply inv_addChild.
  - now apply inv_removeChildByID.
  - now apply inv_setForegroundWindow.
Qed.

Lemma inv_runOps ops : Forall op_valid ops -> container_inv (runOps ops).
Proof.
  unfold runOps.
  assert (G : forall c, container_inv c -> Forall op_valid ops ->
                        container_inv (fold_left applyOp ops c)).
  { induction ops as [ | op ops IH ]; intros c Hc Hv; cbn; [ assumption | ].
    inversion Hv; subst. apply IH; [ now apply inv_applyOp | assumption ]. }
  apply G. repeat split; constructor.
Qed.

End ContainerFacts.

Import WindowContainer ContainerFacts.

(** C3. Starting from the empty container, after any sequence of [addChild],
    [removeChildByID] and [setForegroundWindow] the z-orders read in
    iteration order are 0, 1, ..., N-1.  In such a container [addChild]
    refuses an id that is present and otherwise appends the child with
    z-order max+1; a successful [removeChildByID] drops the first window
    with that id and renumbers; [setForegroundWindow] succeeds only for a
    window without parent whose style has [STY_TOPLEVEL], and then the
    window is last and the container renumbered. *)
Theorem zorder_contiguous_after_ops (ops : list ContainerOp) :
  Forall op_valid ops ->
  let c := runOps ops in
  zOrders c = iota (length c) /\
  (forall child, valid_id child ->
     (getChildByID c (getID child) <> None -> addChild c child = (c, false)) /\
     (getChildByID c (getID child) = None ->
        addChild c child = (c ++ [setZOrder child (maxZOrder c + 1)], true) /\
        maxZOrder c + 1 = Z.of_nat (length c))) /\
  (forall id c', removeChildByID c id = (c', true) ->
     zOrders c' = iota (length c') /\
     exists a w b, c = a ++ w :: b /\ getID w = id /\ ~ In id (ids a) /\
                   ids c' = ids (a ++ b)) /\
  (forall win c', valid_id win -> setForegroundWindow c win = (c', true) ->
     getParent win = None /\ bitsHigh (getStyle win) STY_TOPLEVEL = true /\
     zOrders c' = iota (length c') /\
     exists a w b, c = a ++ w :: b /\ getID w = getID win /\
                   ids c' = ids (a ++ b) ++ [getID win]).
Proof.
  intros Hops c. pose proof (inv_runOps ops Hops) as Hinv. fold c in Hinv.
  split; [ apply Hinv | ]. split; [ | split ].
  - intros child Hv. split.
    + intros Hsome. unfold addChild.
      destruct (getChildByID c (getID child)); [ reflexivity | contradiction ].
    + intros Hnone. pose proof (maxZOrder_iota c (proj1 Hinv)) as Hmax.
      split; [ | lia ].
      pose proof (inv_addChild c child Hinv Hv) as Hinv'.
      unfold addChild in *. rewrite Hnone in *. cbn [fst] in Hinv'.
      rewrite (last_zOrder c Hinv) in *.
      apply inv_length in Hinv'. rewrite length_app in Hinv'. cbn in Hinv'.
      rewrite to_u8_small by lia. repeat f_equal. lia.
  - intros id c' Hrem. unfold removeChildByID in Hrem.
    pose proof (inv_removeChildByID c id Hinv) as Hinv'.
    unfold removeChildByID in Hinv'.
    destruct (eraseFirstByID c id) as [ e | ] eqn:E; [ | discriminate ].
    injection Hrem as <-. cbn [fst] in Hinv'.
    split; [ apply Hinv' | ].
    apply eraseFirstByID_Some in E as (a & w & b & Hc & -> & Hid & Hna).
    exists a, w, b. repeat split; try assumption.
    unfold recalculateZOrder. apply ids_recalc.
  - intros win c' Hv Hfg. unfold setForegroundWindow in Hfg.
    pose proof (inv_setForegroundWindow c win Hinv Hv) as Hinv'.
    unfold setForegroundWindow in Hinv'.
    destruct (getParent win) as [ p | ] eqn:Ep; cbn [andb] in *;
      [ discriminate | ].
    destruct (bitsHigh (getStyle win) STY_TOPLEVEL) eqn:Et; [ | discriminate ].
    destruct (eraseFirstByID c (getID win)) as [ e | ] eqn:E; [ | discriminate ].
    injection Hfg as <-. cbn [fst] in Hinv'.
    repeat split; [ apply Hinv' | ].
    apply eraseFirstByID_Some in E as (a & w & b & Hc & -> & Hid & Hna).
    exists a, w, b. repeat split; try assumption.
    unfold recalculateZOrder. rewrite ids_recalc. unfold ids.
    now rewrite !map_app.
Qed.

Example sampleOps_result :
  map (fun w => (getID w, getZOrder w)) (runOps sampleOps) = [(3, 0); (1, 1)].
Proof. reflexivity. Qed.

Lemma zorder_contiguous_after_ops_witness :
  Forall op_valid sampleOps /\
  zOrders (runOps sampleOps) = iota (length (runOps sampleOps)).
Proof.
  assert (Hv : Forall op_valid sampleOps).
  { repeat constructor; cbn; lia. }
  split; [ exact Hv | ].
  exact (proj1 (zorder_contiguous_after_ops sampleOps Hv)).
Defined.

(** ** Hit testing *)

(** Induction over the window tree. *)
Lemma Window_tree_ind (P : Window -> Prop) :
  (forall i p s st r d z q c,
      Forall P c -> P (mkWindow i p s st r d z q c)) ->
  forall w, P w.
Proof.
  intros Hnode. fix IH 1. intros [i p s st r d z q c]. apply Hnode.
  induction c as [ | a c IHc ]; constructor; [ apply IH | exact IHc ].
Qed.

Lemma tap_loword : getMsgParamLoWord (makeMsgParam 0 INPUT_TAP) = INPUT_TAP.
Proof. reflexivity. Qed.

Lemma with_children_same w : with_children w (_children w) = w.
Proof. now destruct w. Qed.

Lemma forEachChildReverse_zero_or_one pm cb l :
  Forall (zero_or_one pm cb) l ->
  forEachChildReverse cb l = (l, false) \/
  exists l', forEachChildReverse cb l = (l', true) /\ deliveredIn pm l l'.
Proof.
  induction l as [ | child rest IHl ]; intros Hall; [ now left | ].
  inversion Hall as [ | ? ? Hchild Hrest ]; subst.
  cbn [forEachChildReverse]. fold (forEachChildReverse cb).
  destruct (IHl Hrest) as [-> | (rest' & -> & (a & e & e' & b & -> & -> & Hd))].
  - destruct Hchild as [-> | (child' & -> & Hd)]; [ now left | ].
    right. exists (child' :: rest). split; [ reflexivity | ].
    exists [], child, child', rest. now repeat split.
  - right. exists (child :: a ++ e' :: b). split; [ reflexivity | ].
    exists (child :: a), e, e', b. now repeat split.
Qed.

Lemma processInput_zero_or_one disp x y w :
  forall anc,
    zero_or_one (tapMessage x y)
      (processInput disp anc (mkInput INPUT_TAP x y)) w.
Proof.
  induction w as [i p s st r d z q c IHc] using Window_tree_ind. intros anc.
  unfold zero_or_one. cbn [processInput].
  set (w := mkWindow i p s st r d z q c) in *.
  destruct (negb (isDrawable disp anc w)); [ now left | ].
  destruct (negb (pointWithin (getRect w) _ _)); [ now left | ].
  assert (Hall : Forall (zero_or_one (tapMessage x y)
                   (processInput disp (w :: anc) (mkInput INPUT_TAP x y)))
                   (_children w)).
  { cbn [_children w]. eapply Forall_impl; [ | exact IHc ].
    intros a Ha. apply Ha. }
  destruct (forEachChildReverse_zero_or_one _ _ _ Hall)
    as [-> | (l' & -> & (a & e & e' & b & Hl & -> & Hd))].
  - cbn [negb]. rewrite with_children_same. right.
    unfold queueMessage. cbn [ip_type ip_x ip_y].
    rewrite tap_loword. cbn [Message_eqb andb Z.eqb INPUT_TAP Pos.eqb].
    eexists. split; [ reflexivity | ]. apply delivered_here.
  - cbn [negb]. right. eexists. split; [ reflexivity | ].
    now apply delivered_below with (c := e).
Qed.

Lemma hitTestWalk_zero_or_one disp x y l :
  let cb := fun child =>
              if negb (isDrawable disp [] child) then (child, false)
              else processInput disp [] (mkInput INPUT_TAP x y) child in
  forEachChildReverse cb l = (l, false) \/
  exists l', forEachChildReverse cb l = (l', true) /\
             deliveredIn (tapMessage x y) l l'.
Proof.
  intros cb. apply forEachChildReverse_zero_or_one.
  apply Forall_forall. intros c _. unfold zero_or_one, cb.
  destruct (negb (isDrawable disp [] c)); [ now left | ].
  apply processInput_zero_or_one.
Qed.

Lemma totalQueued_children w :
  totalQueued w = (length (_queue w) + totalQueuedIn (_children w))%nat.
Proof.
  destruct w as [i p s st r d z q c]. cbn [totalQueued _queue _children].
  f_equal.
Qed.

Lemma totalQueuedIn_app a b :
  totalQueuedIn (a ++ b) = (totalQueuedIn a + totalQueuedIn b)%nat.
Proof.
  unfold totalQueuedIn. induction a as [ | x a IH ]; cbn; [ reflexivity | ].
  rewrite IH. lia.
Qed.

Lemma delivered_totalQueued pm w w' :
  delivered pm w w' -> totalQueued w' = S (totalQueued w).
Proof.
  induction 1 as [ w | w a c c' b Hc Hd IH ].
  - rewrite !totalQueued_children. destruct w; cbn. rewrite length_app. cbn. lia.
  - rewrite !totalQueued_children. destruct w; cbn in *. subst.
    rewrite !totalQueuedIn_app. cbn. rewrite IH. lia.
Qed.

(** C4. One call of [hitTest] either leaves every window as it was, or
    exactly one window of the whole tree has the tap's [MSG_INPUT] appended
    to its queue (the delivery whose [queueMessage] result is [true]) and
    every other window is unchanged; the number of queued messages grows by
    at most one. *)
Theorem hitTest_at_most_one_claim (wm : WindowManager) (now x y : Z) :
  let wm' := hitTest wm now x y in
  (_registry wm' = _registry wm \/
   deliveredIn (tapMessage x y) (_registry wm) (_registry wm')) /\
  (totalQueuedIn (_registry wm') <= S (totalQueuedIn (_registry wm)))%nat /\
  (forall w, snd (queueMessage w MSG_INPUT (makeMsgParam 0 INPUT_TAP)
                    (makeMsgParam x y)) = true).
Proof.
  cbv zeta. unfold hitTest.
  assert (Hreg : forall t, _registry (with_ssaverEpoch wm t) = _registry wm)
    by reflexivity.
  assert (G : _registry (hitTest wm now x y) = _registry wm \/
              deliveredIn (tapMessage x y) (_registry wm)
                (_registry (hitTest wm now x y))).
  { unfold hitTest.
    destruct (_ <? _); [ now left | ].
    destruct (bitsHigh (wm_state wm) WMS_SSAVER_ENABLED);
      cbn [andb];
      try (destruct (bitsHigh _ WMS_SSAVER_ACTIVE); [ now left | ]).
    - destruct (hitTestWalk_zero_or_one
                  (getDisplayRect (with_ssaverEpoch wm now)) x y
                  (_registry (with_ssaverEpoch wm now)))
        as [-> | (l' & -> & Hd)]; [ now left | now right ].
    - destruct (hitTestWalk_zero_or_one (getDisplayRect wm) x y (_registry wm))
        as [-> | (l' & -> & Hd)]; [ now left | now right ]. }
  fold (hitTest wm now x y).
  split; [ exact G | ]. split; [ | reflexivity ].
  destruct G as [-> | (a & c & c' & b & -> & -> & Hd)]; [ lia | ].
  rewrite !totalQueuedIn_app. cbn.
  rewrite (delivered_totalQueued _ _ _ Hd). lia.
Qed.

(** ** Drawable windows and [hide] *)

Section DrawableFacts.

Variable disp : Rect.

Lemma isDrawable_unfold anc w :
  isDrawable disp anc w =
  isVisible w && isAlive w &&
  match anc with
  | [] => true
  | parent :: rest => isDrawable disp rest parent
  end && negb (outsideRect (getRect w) disp).
Proof. destruct anc; reflexivity. Qed.

Lemma isDrawable_parent anc parent child :
  isDrawable disp anc parent = false ->
  isDrawable disp (parent :: anc) child = false.
Proof.
  intros Hp. rewrite isDrawable_unfold, Hp.
  now rewrite andb_false_r.
Qed.

Lemma isDrawable_visible anc w :
  isVisible w = false -> isDrawable disp anc w = false.
Proof. intros Hv. rewrite isDrawable_unfold, Hv. reflexivity. Qed.

Lemma isDrawableAt_from_gen reg path acc :
  match getAt reg path with
  | Some w => isDrawable disp (ancestorsAt reg path acc) w
  | None => false
  end = drawableFrom disp acc reg path.
Proof.
  revert reg acc. induction path as [ | i rest IH ]; intros reg acc;
    [ reflexivity | ].
  cbn [getAt ancestorsAt drawableFrom].
  destruct (nth_error reg i) as [ w | ]; [ | now destruct rest ].
  destruct rest as [ | j rest ]; [ reflexivity | ].
  apply IH.
Qed.

Lemma isDrawableAt_from reg path :
  Store.isDrawableAt disp reg path = drawableFrom disp [] reg path.
Proof. unfold Store.isDrawableAt. apply isDrawableAt_from_gen. Qed.

(** Below a window that is not drawable nothing is drawable. *)
Lemma drawableFrom_below_undrawable parent anc reg path :
  isDrawable disp anc parent = false ->
  drawableFrom disp (parent :: anc) reg path = false.
Proof.
  revert parent anc reg. induction path as [ | i rest IH ];
    intros parent anc reg Hp; [ reflexivity | ].
  cbn [drawableFrom]. destruct (nth_error reg i) as [ w | ]; [ | reflexivity ].
  destruct rest as [ | j rest ].
  - now apply isDrawable_parent.
  - apply IH. now apply isDrawable_parent.
Qed.

Lemma drawableFrom_hidden anc reg p s w :
  getAt reg p = Some w -> isVisible w = false ->
  drawableFrom disp anc reg (p ++ s) = false.
Proof.
  revert anc reg. induction p as [ | i rest IH ]; intros anc reg Hg Hv;
    [ discriminate | ].
  cbn [getAt] in Hg. cbn [app drawableFrom].
  destruct (nth_error reg i) as [ x | ]; [ | reflexivity ].
  destruct rest as [ | j rest ].
  - injection Hg as ->. cbn [app]. destruct s as [ | k s ].
    + now apply isDrawable_visible.
    + apply drawableFrom_below_undrawable. now apply isDrawable_visible.
  - cbn [app]. change (j :: rest ++ s) with ((j :: rest) ++ s).
    now apply IH.
Qed.

(** [eraseDirty] and the observations that do not read dirty rectangles. *)
Lemma eraseDirty_fields w :
  getID (eraseDirty w) = getID w /\ getStyle (eraseDirty w) = getStyle w /\
  getState (eraseDirty w) = getState w /\ getRect (eraseDirty w) = getRect w /\
  getParent (eraseDirty w) = getParent w /\
  _children (eraseDirty w) = map eraseDirty (_children w).
Proof. destruct w; cbn; tauto. Qed.

Lemma isVisible_erase w : isVisible (eraseDirty w) = isVisible w.
Proof. now destruct w. Qed.

Lemma isAlive_erase w : isAlive (eraseDirty w) = isAlive w.
Proof. now destruct w. Qed.

Lemma isDrawable_erase anc w :
  isDrawable disp (map eraseDirty anc) (eraseDirty w) = isDrawable disp anc w.
Proof.
  revert w. induction anc as [ | p anc IH ]; intros w.
  - rewrite !isDrawable_unfold. cbn [map].
    rewrite isVisible_erase, isAlive_erase.
    destruct (eraseDirty_fields w) as (_ & _ & _ & -> & _). reflexivity.
  - rewrite (isDrawable_unfold (p :: anc)). cbn [map].
    rewrite (isDrawable_unfold (eraseDirty p :: map eraseDirty anc)).
    rewrite isVisible_erase, isAlive_erase, IH.
    destruct (eraseDirty_fields w) as (_ & _ & _ & -> & _). reflexivity.
Qed.

Lemma drawableFrom_erase anc reg path :
  drawableFrom disp (map eraseDirty anc) (map eraseDirty reg) path =
  drawableFrom disp anc reg path.
Proof.
  revert anc reg. induction path as [ | i rest IH ]; intros anc reg;
    [ reflexivity | ].
  cbn [drawableFrom]. rewrite nth_error_map.
  destruct (nth_error reg i) as [ w | ]; cbn [option_map]; [ | reflexivity ].
  destruct rest as [ | j rest ]; [ apply isDrawable_erase | ].
  destruct (eraseDirty_fields w) as (_ & _ & _ & _ & _ & ->).
  change (eraseDirty w :: map eraseDirty anc) with (map eraseDirty (w :: anc)).
  apply IH.
Qed.

Lemma getAt_erase reg path :
  getAt (map eraseDirty reg) path = option_map eraseDirty (getAt reg path).
Proof.
  revert reg. induction path as [ | i rest IH ]; intros reg; [ reflexivity | ].
  cbn [getAt]. rewrite nth_error_map.
  destruct (nth_error reg i) as [ w | ]; cbn [option_map]; [ | reflexivity ].
  destruct rest as [ | j rest ]; [ reflexivity | ].
  destruct (eraseDirty_fields w) as (_ & _ & _ & _ & _ & ->). apply IH.
Qed.

Lemma eraseDirty_markRectDirty w rect :
  eraseDirty (markRectDirty w rect) = eraseDirty w.
Proof.
  revert rect. induction w as [i p s st r d z q c IHc] using Window_tree_ind.
  intros rect. cbn [markRectDirty].
  destruct (negb (empty rect)).
  - reflexivity.
  - cbn [eraseDirty getID getParent getStyle getState getRect getZOrder
         _queue _children]. f_equal. rewrite map_map.
    apply map_ext_in. intros a Ha. rewrite Forall_forall in IHc.
    now apply IHc.
Qed.

Lemma eraseDirty_setDirtyRect reg rect :
  map eraseDirty (Store.setDirtyRect disp reg rect) = map eraseDirty reg.
Proof.
  unfold Store.setDirtyRect. rewrite map_map. apply map_ext. intros w.
  destruct (negb (isDrawable disp [] w)); [ reflexivity | ].
  destruct (intersectsRect (getRect w) rect); [ | reflexivity ].
  apply eraseDirty_markRectDirty.
Qed.

End DrawableFacts.

(** ** Paths into the registry *)

Lemma nth_error_update_nth_same {A : Type} (f : A -> A) l i :
  nth_error (update_nth i f l) i = option_map f (nth_error l i).
Proof.
  revert i. induction l as [ | a l IH ]; intros [ | i ]; cbn; try reflexivity.
  apply IH.
Qed.

Lemma nth_error_update_nth_other {A : Type} (f : A -> A) l i j :
  i <> j -> nth_error (update_nth i f l) j = nth_error l j.
Proof.
  revert i j. induction l as [ | a l IH ]; intros [ | i ] [ | j ] Hne; cbn;
    try reflexivity; try congruence.
  apply IH. congruence.
Qed.

Lemma length_update_nth {A : Type} (f : A -> A) l i :
  length (update_nth i f l) = length l.
Proof.
  revert i. induction l as [ | a l IH ]; intros [ | i ]; cbn; try reflexivity.
  now rewrite IH.
Qed.

Lemma getAt_updAt_same reg p f :
  getAt (updAt reg p f) p = option_map f (getAt reg p).
Proof.
  revert reg. induction p as [ | i rest IH ]; intros reg; [ reflexivity | ].
  cbn [getAt updAt]. destruct rest as [ | j rest ].
  - rewrite nth_error_update_nth_same.
    now destruct (nth_error reg i).
  - rewrite nth_error_update_nth_same.
    destruct (nth_error reg i) as [ w | ]; cbn [option_map]; [ | reflexivity ].
    destruct w as [wi wp ws wst wr wd wz wq wc]; cbn [with_children _children].
    apply IH.
Qed.

Lemma getAt_updAt_below reg p s f :
  (forall w, _children (f w) = _children w) -> s <> [] ->
  getAt (updAt reg p f) (p ++ s) = getAt reg (p ++ s).
Proof.
  intros Hf Hs. revert reg. induction p as [ | i rest IH ]; intros reg;
    [ reflexivity | ].
  cbn [app getAt updAt]. destruct rest as [ | j rest ].
  - rewrite nth_error_update_nth_same.
    destruct (nth_error reg i) as [ w | ]; cbn [option_map app];
      [ | reflexivity ].
    destruct s as [ | k s ]; [ contradiction | ]. now rewrite Hf.
  - rewrite nth_error_update_nth_same.
    destruct (nth_error reg i) as [ w | ]; cbn [option_map app];
      [ | reflexivity ].
    destruct w as [wi wp ws wst wr wd wz wq wc]; cbn [with_children _children].
    change (j :: rest ++ s) with ((j :: rest) ++ s). apply IH.
Qed.

Lemma update_nth_twice {A : Type} (f g : A -> A) l i :
  update_nth i g (update_nth i f l) = update_nth i (fun x => g (f x)) l.
Proof.
  revert i. induction l as [ | a l IH ]; intros [ | i ]; cbn; try reflexivity.
  now rewrite IH.
Qed.

Lemma update_nth_ext {A : Type} (f g : A -> A) l i :
  (forall x, f x = g x) -> update_nth i f l = update_nth i g l.
Proof.
  intros Hfg. revert i. induction l as [ | a l IH ]; intros [ | i ]; cbn;
    try reflexivity; [ now rewrite Hfg | now rewrite IH ].
Qed.

Lemma updAt_updAt reg p f g :
  updAt (updAt reg p f) p g = updAt reg p (fun w => g (f w)).
Proof.
  revert reg. induction p as [ | i rest IH ]; intros reg; [ reflexivity | ].
  cbn [updAt]. destruct rest as [ | j rest ].
  - apply update_nth_twice.
  - rewrite update_nth_twice. apply update_nth_ext.
    intros [wi wp ws wst wr wd wz wq wc]. unfold with_children.
    cbn [_children getID getParent getStyle getState getRect getDirtyRect
         getZOrder _queue].
    now rewrite IH.
Qed.

Lemma updAt_ext reg p f g :
  (forall w, f w = g w) -> updAt reg p f = updAt reg p g.
Proof.
  intros Hfg. revert reg. induction p as [ | i rest IH ]; intros reg;
    [ reflexivity | ].
  cbn [updAt]. destruct rest as [ | j rest ].
  - now apply update_nth_ext.
  - apply update_nth_ext. intros w. f_equal. apply IH.
Qed.

(** ** hide *)

Lemma land_clear_bit0 s : Z.testbit (Z.land s (Z.lnot STY_VISIBLE)) 0 = false.
Proof.
  rewrite Z.land_spec, Z.lnot_spec by lia. cbn. apply andb_false_r.
Qed.

Lemma bitsHigh_visible_testbit s :
  bitsHigh s STY_VISIBLE = Z.testbit s 0.
Proof.
  unfold bitsHigh, STY_VISIBLE.
  assert (E : Z.land s 1 = s mod 2).
  { apply (Z.land_ones s 1). lia. }
  rewrite E, Z.bit0_odd, Zmod_odd.
  destruct (Z.odd s); reflexivity.
Qed.

Lemma to_u16_testbit0 z : Z.testbit (to_u16 z) 0 = Z.testbit z 0.
Proof.
  unfold to_u16. change 65536 with (2 ^ 16).
  apply Z.mod_pow2_bits_low. lia.
Qed.

Lemma hiddenWindow_invisible style w : isVisible (hiddenWindow style w) = false.
Proof.
  unfold isVisible, hiddenWindow.
  destruct w as [wi wp ws wst wr wd wz wq wc].
  cbn [setState with_style getStyle getRect].
  rewrite bitsHigh_visible_testbit, to_u16_testbit0, land_clear_bit0.
  reflexivity.
Qed.

Section HideFacts.

Variable disp : Rect.
Variable H : Hooks.

Lemma hide_visible fuel reg p w :
  getAt reg p = Some w -> isVisible w = true ->
  Store.hide disp H fuel reg p =
  Some (Store.setDirtyRect disp (updAt reg p (hiddenWindow (getStyle w)))
          (getRect w), true).
Proof.
  intros Hg Hv. unfold Store.hide. rewrite Hg, Hv. cbn [negb].
  unfold Store.setStyle. rewrite Hg.
  assert (Hne : (to_u16 (Z.land (getStyle w) (Z.lnot STY_VISIBLE)) =? getStyle w)
                = false).
  { apply Z.eqb_neq. intros Heq.
    unfold isVisible in Hv. apply andb_true_iff in Hv as [Hb _].
    rewrite bitsHigh_visible_testbit, <- Heq, to_u16_testbit0,
      land_clear_bit0 in Hb. discriminate. }
  rewrite Hne. cbn [negb]. unfold Store.setDirty.
  rewrite updAt_updAt.
  rewrite (updAt_ext reg p _ (hiddenWindow (getStyle w)))
    by (intros [wi wp ws wst wr wd wz wq wc]; reflexivity).
  assert (Hg' : getAt (updAt reg p (hiddenWindow (getStyle w))) p =
                Some (hiddenWindow (getStyle w) w)).
  { now rewrite getAt_updAt_same, Hg. }
  assert (Hnd : Store.isDrawableAt disp
                  (updAt reg p (hiddenWindow (getStyle w))) p = false).
  { rewrite isDrawableAt_from. rewrite <- (app_nil_r p) at 2.
    eapply drawableFrom_hidden; [ exact Hg' | ].
    apply hiddenWindow_invisible. }
  assert (Hr : Store.redraw disp H fuel
                 (updAt reg p (hiddenWindow (getStyle w))) p false =
               Some (updAt reg p (hiddenWindow (getStyle w)), false)).
  { destruct fuel; cbn [Store.redraw]; now rewrite Hnd. }
  rewrite Hr, Hg'.
  now destruct w.
Qed.

Lemma hiddenWindow_children style w :
  _children (hiddenWindow style w) = _children w.
Proof. now destruct w. Qed.

Lemma getStyle_erase w : getStyle (eraseDirty w) = getStyle w.
Proof. now destruct w. Qed.

Lemma style_after_setDirtyRect reg rect q :
  option_map getStyle (getAt (Store.setDirtyRect disp reg rect) q) =
  option_map getStyle (getAt reg q).
Proof.
  pose proof (getAt_erase (Store.setDirtyRect disp reg rect) q) as E1.
  rewrite eraseDirty_setDirtyRect, getAt_erase in E1.
  destruct (getAt (Store.setDirtyRect disp reg rect) q) as [ a | ],
           (getAt reg q) as [ b | ]; cbn in *; try congruence.
  injection E1 as E1. f_equal.
  rewrite <- (getStyle_erase a), <- (getStyle_erase b). now f_equal.
Qed.

Lemma drawable_after_setDirtyRect reg rect q :
  Store.isDrawableAt disp (Store.setDirtyRect disp reg rect) q =
  Store.isDrawableAt disp reg q.
Proof.
  rewrite !isDrawableAt_from.
  rewrite <- (drawableFrom_erase disp [] (Store.setDirtyRect disp reg rect)).
  rewrite <- (drawableFrom_erase disp [] reg).
  now rewrite eraseDirty_setDirtyRect.
Qed.

(** After [hide] nothing at or below the window is drawable and the styles
    below are the ones from before. *)
Lemma hide_subtree fuel reg p w :
  getAt reg p = Some w ->
  exists reg' b,
    Store.hide disp H fuel reg p = Some (reg', b) /\
    (forall s, Store.isDrawableAt disp reg' (p ++ s) = false) /\
    (forall s, s <> [] ->
       option_map getStyle (getAt reg' (p ++ s)) =
       option_map getStyle (getAt reg (p ++ s))) /\
    (b = true ->
       option_map (fun w' => bitsHigh (getStyle w') STY_VISIBLE) (getAt reg' p)
       = Some false).
Proof.
  intros Hg. destruct (isVisible w) eqn:Hv.
  - rewrite (hide_visible fuel reg p w Hg Hv).
    eexists _, _. split; [ reflexivity | ]. split; [ | split ].
    + intros s. rewrite drawable_after_setDirtyRect, isDrawableAt_from.
      eapply drawableFrom_hidden.
      * rewrite getAt_updAt_same, Hg. reflexivity.
      * apply hiddenWindow_invisible.
    + intros s Hs. rewrite style_after_setDirtyRect.
      rewrite getAt_updAt_below; [ reflexivity | | exact Hs ].
      apply hiddenWindow_children.
    + intros _.
      pose proof (style_after_setDirtyRect
                    (updAt reg p (hiddenWindow (getStyle w))) (getRect w) p) as E.
      rewrite getAt_updAt_same, Hg in E. cbn [option_map] in E.
      destruct (getAt (Store.setDirtyRect _ _ _) p) as [ a | ];
        cbn [option_map] in *; [ | discriminate ].
      injection E as E. rewrite E. f_equal.
      destruct w as [wi wp ws wst wr wd wz wq wc].
      unfold hiddenWindow. cbn [setState with_style getStyle].
      now rewrite bitsHigh_visible_testbit, to_u16_testbit0, land_clear_bit0.
  - exists reg, false. unfold Store.hide. rewrite Hg, Hv. cbn [negb].
    split; [ reflexivity | ]. split; [ | split ].
    + intros s. rewrite isDrawableAt_from.
      eapply drawableFrom_hidden; [ exact Hg | exact Hv ].
    + reflexivity.
    + discriminate.
Qed.

End HideFacts.

(** [outsideRect] looks at the four corners of the rectangle.  It answers
    [false] when the rectangle shares a point with the other one, unless
    the rectangle reaches beyond the other one on both sides, horizontally
    or vertically: then no corner is within the other rectangle. *)
Lemma outsideRect_corners r d :
  outsideRect r d =
  negb (((left r >=? left d) && (left r <=? right d) ||
         (right r >=? left d) && (right r <=? right d)) &&
        ((top r >=? top d) && (top r <=? bottom d) ||
         (bottom r >=? top d) && (bottom r <=? bottom d))).
Proof.
  unfold outsideRect, pointWithin.
  destruct (left r >=? left d), (left r <=? right d), (right r >=? left d),
    (right r <=? right d); cbn [andb orb negb];
    destruct (top r >=? top d), (top r <=? bottom d), (bottom r >=? top d),
      (bottom r <=? bottom d); reflexivity.
Qed.

Lemma sharesPoint_spec a b :
  left a <= right a -> top a <= bottom a ->
  left b <= right b -> top b <= bottom b ->
  sharesPoint a b <->
  (left a <= right b /\ left b <= right a /\
   top a <= bottom b /\ top b <= bottom a).
Proof.
  intros a1 a2 b1 b2. unfold sharesPoint, pointWithin. split.
  - intros (x & y & Ha & Hb). rewrite !Z.geb_leb in Ha, Hb.
    apply andb_true_iff in Ha as [Ha Ha4]. apply andb_true_iff in Ha as [Ha Ha3].
    apply andb_true_iff in Ha as [Ha1 Ha2'].
    apply andb_true_iff in Hb as [Hb Hb4]. apply andb_true_iff in Hb as [Hb Hb3].
    apply andb_true_iff in Hb as [Hb1 Hb2'].
    apply Z.leb_le in Ha1, Ha2', Ha3, Ha4, Hb1, Hb2', Hb3, Hb4. lia.
  - intros (h1 & h2 & h3 & h4).
    exists (Z.max (left a) (left b)), (Z.max (top a) (top b)).
    rewrite !Z.geb_leb.
    rewrite !(proj2 (Z.leb_le _ _)) by lia. now split.
Qed.

Lemma outsideRect_false_iff r d :
  wf_rect r -> wf_rect d ->
  outsideRect r d = false <->
  (sharesPoint r d /\
   ~ (left r < left d /\ right d < right r) /\
   ~ (top r < top d /\ bottom d < bottom r)).
Proof.
  intros (r1 & r2 & r3 & r4 & r5 & r6) (d1 & d2 & d3 & d4 & d5 & d6).
  rewrite (sharesPoint_spec r d r5 r6 d5 d6).
  rewrite outsideRect_corners, negb_false_iff, !Z.geb_leb.
  rewrite andb_true_iff, !orb_true_iff, !andb_true_iff, !Z.leb_le. lia.
Qed.

(** C5 (failing input).  The first and the second part of the claim hold: a
    window below a parent that is not drawable is not drawable, and [hide]
    on a window leaves nothing drawable at or below it and changes no
    style below it ([STY_VISIBLE] included), the receiver alone losing
    [STY_VISIBLE].  The rule for drawable windows fails: on well-formed
    rectangles [isDrawable] holds exactly when the window is visible and
    alive, its parent (when it has one) is drawable and its rectangle
    shares a point with the display without reaching beyond the display on
    both sides, horizontally or vertically.  The window
    [windowAroundDisplay], rectangle (-1,-1,321,241) on the 320x240
    display, is visible, alive, without parent and covers the display, and
    [isDrawable] answers [false] for it. *)
Theorem drawable_invariant (disp : Rect) (H : Hooks) :
  (forall anc parent child,
      isDrawable disp anc parent = false ->
      isDrawable disp (parent :: anc) child = false) /\
  (forall fuel reg p w,
      getAt reg p = Some w ->
      exists reg' b,
        Store.hide disp H fuel reg p = Some (reg', b) /\
        (forall s, Store.isDrawableAt disp reg' (p ++ s) = false) /\
        (forall s, s <> [] ->
           option_map getStyle (getAt reg' (p ++ s)) =
           option_map getStyle (getAt reg (p ++ s))) /\
        (b = true ->
           option_map (fun w' => bitsHigh (getStyle w') STY_VISIBLE)
             (getAt reg' p) = Some false)) /\
  (forall anc w,
      wf_rect (getRect w) -> wf_rect disp ->
      (isDrawable disp anc w = true <->
       (isVisible w = true /\ isAlive w = true /\
        match anc with
        | [] => True
        | parent :: rest => isDrawable disp rest parent = true
        end /\
        sharesPoint (getRect w) disp /\
        ~ (left (getRect w) < left disp /\ right disp < right (getRect w)) /\
        ~ (top (getRect w) < top disp /\ bottom disp < bottom (getRect w))))) /\
  (isVisible windowAroundDisplay = true /\
   isAlive windowAroundDisplay = true /\
   getParent windowAroundDisplay = None /\
   sharesPoint (getRect windowAroundDisplay) sampleDisplay /\
   isDrawable sampleDisplay [] windowAroundDisplay = false /\
   ~ drawable_spec sampleDisplay [] windowAroundDisplay).
Proof.
  split; [ | split; [ | split ] ].
  - apply isDrawable_parent.
  - intros fuel reg p w Hg. exact (hide_subtree disp H fuel reg p w Hg).
  - intros anc w Hwr Hwd. rewrite isDrawable_unfold.
    rewrite !andb_true_iff, negb_true_iff.
    rewrite (outsideRect_false_iff _ _ Hwr Hwd).
    destruct anc as [ | parent rest ]; tauto.
  - assert (Hs : sharesPoint (getRect windowAroundDisplay) sampleDisplay).
    { exists 0, 0. split; reflexivity. }
    split; [ reflexivity | ]. split; [ reflexivity | ].
    split; [ reflexivity | ]. split; [ exact Hs | ].
    split; [ reflexivity | ].
    intros Hspec.
    assert (Hd : isDrawable sampleDisplay [] windowAroundDisplay = true).
    { apply Hspec. repeat split; try reflexivity. exact Hs. }
    discriminate Hd.
Qed.

(** ** processQueue *)

Example tappedTwice_queues :
  map (fun w => (_queue w, map _queue (_children w))) (_registry tappedTwice) =
  [([], [[tapMessage 10 10; tapMessage 12 12]])].
Proof. vm_compute. reflexivity. Qed.

(** C6 (failing input). After two taps on a child, the first call of
    [processQueue] on the top-level window answers [false] although the
    child still holds a message, so the loop
    [while (win->processQueue()) { }] of [render] stops with that message
    queued. *)
Theorem processQueue_false_with_child_pending :
  exists reg',
    Store.processQueue sampleDisplay Window_hooks 3 (_registry tappedTwice) [0%nat]
      = Some (reg', false) /\
    Store.drainQueue sampleDisplay Window_hooks 8 3 (_registry tappedTwice) [0%nat]
      = Some reg' /\
    option_map _queue (getAt reg' [0%nat]) = Some [] /\
    option_map _queue (getAt reg' [0%nat; 0%nat]) = Some [tapMessage 12 12].
Proof.
  eexists. split; [ vm_compute; reflexivity | ].
  split; [ vm_compute; reflexivity | ].
  split; vm_compute; reflexivity.
Qed.

(** ** createWindow *)

Section CreateFacts.

Variable H : Hooks.
Variable displayWidth displayHeight : Z.
Variable routeCreate :
  list Window -> option Path -> Window -> list Window * Window * bool.
Variable preCreateHook :
  option (list Window -> option Path -> Window -> list Window * Window * bool).

(** The reserved id is refused before anything is built. *)
Lemma createWindow_reserved_id fuel reg parent style x y width height :
  Manager.createWindow H displayWidth displayHeight routeCreate
    preCreateHook fuel reg parent WID_INVALID style x y width height
  = Manager.CreateNull reg.
Proof. reflexivity. Qed.

(** A top-level style with a parent is refused; the registry is the one
    passed in. *)
Lemma createWindow_toplevel_with_parent fuel reg p pw id style x y width height :
  to_u8 id <> WID_INVALID ->
  getAt reg p = Some pw ->
  bitsHigh (to_u16 style) STY_TOPLEVEL = true ->
  Manager.createWindow H displayWidth displayHeight routeCreate
    preCreateHook fuel reg (Some p) id style x y width height = Manager.CreateNull reg.
Proof.
  intros Hid Hp Ht. unfold Manager.createWindow.
  apply Z.eqb_neq in Hid. rewrite Hid.
  unfold Manager.Window_ctor. rewrite Hp. cbv zeta.
  rewrite Ht. cbn [negb andb].
  now destruct (bitsHigh (to_u16 style) STY_CHILD).
Qed.

(** A style without [STY_TOPLEVEL] and a null parent: the constructor runs
    before the style is validated and dereferences the null parent. *)
Lemma createWindow_null_parent_faults fuel reg id style x y width height :
  to_u8 id <> WID_INVALID ->
  bitsHigh (to_u16 style) STY_TOPLEVEL = false ->
  Manager.createWindow H displayWidth displayHeight routeCreate
    preCreateHook fuel reg None id style x y width height = Manager.CreateFault.
Proof.
  intros Hid Ht. unfold Manager.createWindow.
  apply Z.eqb_neq in Hid. rewrite Hid.
  unfold Manager.Window_ctor. cbv zeta.
  assert (E : to_u16 (to_u16 style) = to_u16 style).
  { unfold to_u16. apply Z.mod_mod. lia. }
  now rewrite E, Ht.
Qed.

End CreateFacts.

(** C7 (failing input). [createWindow] with style
    [STY_CHILD | STY_VISIBLE] and a null parent does not return the null
    handle: whatever the hooks, the constructor dereferences the null
    parent before [createWindow] tests the style. *)
Theorem createWindow_child_without_parent
    (H : Hooks) (routeCreate : list Window -> option Path -> Window ->
                               list Window * Window * bool)
    (preCreateHook : option (list Window -> option Path -> Window ->
                             list Window * Window * bool))
    (fuel : nat) :
  Manager.createWindow H 320 240 routeCreate preCreateHook fuel
    (_registry sampleWM) None 7 (Z.lor STY_CHILD STY_VISIBLE) 10 10 50 20
  = Manager.CreateFault.
Proof.
  apply createWindow_null_parent_faults; [ discriminate | reflexivity ].
Qed.

(** ** destroy *)

Lemma forIndices_inv {S : Type} (Inv : nat -> S -> Prop)
    (body : nat -> S -> option S) n from s :
  Inv from s ->
  (forall i s0, (from <= i < from + n)%nat -> Inv i s0 ->
                exists s', body i s0 = Some s' /\ Inv (Datatypes.S i) s') ->
  exists s', forIndices n from body s = Some s' /\ Inv (from + n)%nat s'.
Proof.
  revert from s. induction n as [ | n IH ]; intros from s H0 Hstep.
  - exists s. cbn. now rewrite Nat.add_0_r.
  - cbn [forIndices].
    destruct (Hstep from s ltac:(lia) H0) as (s1 & -> & H1).
    destruct (IH (Datatypes.S from) s1 H1) as (s' & Hs' & Hinv).
    + intros i s0 Hi. apply Hstep. lia.
    + exists s'. split; [ exact Hs' | ].
      now replace (from + Datatypes.S n)%nat with (Datatypes.S from + n)%nat by lia.
Qed.

Lemma update_nth_id {A : Type} (f : A -> A) l i :
  (forall x, f x = x) -> update_nth i f l = l.
Proof.
  intros Hf. revert i. induction l as [ | a l IH ]; intros [ | i ]; cbn;
    try reflexivity; [ now rewrite Hf | now rewrite IH ].
Qed.

Lemma updAt_id reg p f : (forall w, f w = w) -> updAt reg p f = reg.
Proof.
  intros Hf. revert reg. induction p as [ | i rest IH ]; intros reg;
    [ reflexivity | ].
  cbn [updAt]. destruct rest as [ | j rest ].
  - now apply update_nth_id.
  - apply update_nth_id. intros w. rewrite IH. apply with_children_same.
Qed.

Lemma update_nth_ext_at {A : Type} (f g : A -> A) l i x :
  nth_error l i = Some x -> f x = g x -> update_nth i f l = update_nth i g l.
Proof.
  revert i. induction l as [ | a l IH ]; intros [ | i ]; cbn; try discriminate.
  - intros [= ->] Hfg. now rewrite Hfg.
  - intros Hn Hfg. f_equal. now apply IH.
Qed.

Lemma updAt_ext_at reg p f g w :
  getAt reg p = Some w -> f w = g w -> updAt reg p f = updAt reg p g.
Proof.
  revert reg. induction p as [ | i rest IH ]; intros reg Hg Hfg;
    [ reflexivity | ].
  cbn [updAt getAt] in *.
  destruct (nth_error reg i) as [ x | ] eqn:En; [ | discriminate ].
  destruct rest as [ | j rest ].
  - injection Hg as ->. now apply update_nth_ext_at with (x := w).
  - apply update_nth_ext_at with (x := x); [ exact En | ].
    f_equal. now apply IH.
Qed.

Lemma update_nth_map {A : Type} (e f f' : A -> A) l i :
  (forall x, e (f x) = f' (e x)) ->
  map e (update_nth i f l) = update_nth i f' (map e l).
Proof.
  intros Hc. revert i. induction l as [ | a l IH ]; intros [ | i ]; cbn;
    try reflexivity; [ now rewrite Hc | now rewrite IH ].
Qed.

(** Updates that commute with [eraseDirty]. *)
Lemma erase_updAt reg p f f' :
  (forall w, eraseDirty (f w) = f' (eraseDirty w)) ->
  map eraseDirty (updAt reg p f) = updAt (map eraseDirty reg) p f'.
Proof.
  intros Hc. revert reg. induction p as [ | i rest IH ]; intros reg;
    [ reflexivity | ].
  cbn [updAt]. destruct rest as [ | j rest ].
  - now apply update_nth_map.
  - apply update_nth_map.
    intros [wi wp ws wst wr wd wz wq wc]. unfold with_children.
    cbn [eraseDirty getID getParent getStyle getState getRect getDirtyRect
         getZOrder _queue _children].
    now rewrite IH.
Qed.

Lemma updAt_snoc reg p i g :
  p <> [] ->
  updAt reg (p ++ [i]) g =
  updAt reg p (fun x => with_children x (update_nth i g (_children x))).
Proof.
  intros Hp. revert reg. induction p as [ | k rest IH ]; intros reg;
    [ contradiction | ].
  destruct rest as [ | j rest ].
  - reflexivity.
  - cbn [app updAt]. apply update_nth_ext. intros w. f_equal.
    apply (IH ltac:(discriminate)).
Qed.

Lemma getAt_snoc reg p i w :
  getAt reg p = Some w -> getAt reg (p ++ [i]) = nth_error (_children w) i.
Proof.
  revert reg. induction p as [ | k rest IH ]; intros reg; [ discriminate | ].
  cbn [getAt app]. destruct (nth_error reg k) as [ x | ]; [ | discriminate ].
  destruct rest as [ | j rest ].
  - intros [= ->]. cbn [app getAt]. now destruct (nth_error (_children w) i).
  - intros Hg. cbn [app]. change (j :: rest ++ [i]) with ((j :: rest) ++ [i]).
    now apply IH.
Qed.

Lemma mapFirst_0 {A : Type} (g : A -> A) l : mapFirst 0 g l = l.
Proof. reflexivity. Qed.

Lemma mapFirst_all {A : Type} (g : A -> A) l n :
  (length l <= n)%nat -> mapFirst n g l = map g l.
Proof.
  intros Hn. unfold mapFirst.
  rewrite firstn_all2, skipn_all2 by assumption. apply app_nil_r.
Qed.

Lemma mapFirst_step {A : Type} (g : A -> A) l i :
  update_nth i g (mapFirst i g l) = mapFirst (S i) g l.
Proof.
  unfold mapFirst. revert i. induction l as [ | a l IH ]; intros [ | i ];
    try reflexivity.
  cbn [firstn skipn map app update_nth]. f_equal. apply IH.
Qed.

Lemma nth_error_mapFirst {A : Type} (g : A -> A) l i :
  nth_error (mapFirst i g l) i = nth_error l i.
Proof.
  unfold mapFirst. revert i. induction l as [ | a l IH ]; intros [ | i ];
    try reflexivity. cbn. apply IH.
Qed.

Lemma length_mapFirst {A : Type} (g : A -> A) l i :
  length (mapFirst i g l) = length l.
Proof.
  unfold mapFirst. rewrite length_app, length_map, <- length_app.
  now rewrite firstn_skipn.
Qed.

Lemma depth_unfold w : depth w = S (maxDepth (_children w)).
Proof. destruct w as [wi wp ws wst wr wd wz wq wc]. reflexivity. Qed.

Lemma depth_erase w : depth (eraseDirty w) = depth w.
Proof.
  induction w as [i p s st r d z q c IHc] using Window_tree_ind.
  rewrite !depth_unfold. cbn [eraseDirty _children]. f_equal.
  unfold maxDepth. induction c as [ | a c IH ]; [ reflexivity | ].
  inversion IHc; subst. cbn [map fold_right]. rewrite IH by assumption.
  now f_equal.
Qed.

Lemma depth_child w c i :
  nth_error (_children w) i = Some c -> (depth c < depth w)%nat.
Proof.
  rewrite (depth_unfold w). generalize (_children w) as l. intros l.
  unfold maxDepth.
  revert i. induction l as [ | a l IH ]; intros [ | i ];
    cbn [nth_error fold_right]; try discriminate.
  - intros [= ->]. lia.
  - intros Hn. specialize (IH i Hn). lia.
Qed.

Section DestroyFacts.

Variable disp : Rect.

Local Abbreviation E := (map eraseDirty).

Lemma erase_hiddenWindow s w :
  eraseDirty (hiddenWindow s w) = hiddenWindow s (eraseDirty w).
Proof. now destruct w. Qed.

Lemma erase_clearAlive w : eraseDirty (clearAlive w) = clearAlive (eraseDirty w).
Proof. now destruct w. Qed.

Lemma erase_with_children_nil w :
  eraseDirty (with_children w []) = with_children (eraseDirty w) [].
Proof. now destruct w. Qed.

Lemma hideStep_children w : _children (hideStep w) = _children w.
Proof. unfold hideStep. destruct (isVisible w); [ now destruct w | reflexivity ]. Qed.

Lemma clearAlive_children w : _children (clearAlive w) = _children w.
Proof. now destruct w. Qed.

Lemma with_children_twice w a b :
  with_children (with_children w a) b = with_children w b.
Proof. now destruct w. Qed.

Lemma with_children_children w a : _children (with_children w a) = a.
Proof. now destruct w. Qed.

Lemma hide_erased H fuel reg p w :
  getAt reg p = Some w ->
  exists reg1 b,
    Store.hide disp H fuel reg p = Some (reg1, b) /\
    E reg1 = updAt (E reg) p hideStep.
Proof.
  intros Hg.
  assert (HgE : getAt (E reg) p = Some (eraseDirty w))
    by now rewrite getAt_erase, Hg.
  destruct (isVisible w) eqn:Hv.
  - rewrite (hide_visible disp H fuel reg p w Hg Hv).
    eexists _, _. split; [ reflexivity | ].
    rewrite eraseDirty_setDirtyRect.
    rewrite (erase_updAt reg p _ (hiddenWindow (getStyle w)))
      by apply erase_hiddenWindow.
    apply updAt_ext_at with (w := eraseDirty w); [ exact HgE | ].
    unfold hideStep. now rewrite isVisible_erase, Hv, getStyle_erase.
  - exists reg, false. unfold Store.hide. rewrite Hg, Hv. cbn [negb].
    split; [ reflexivity | ].
    rewrite (updAt_ext_at (E reg) p hideStep (fun x => x) (eraseDirty w));
      [ now rewrite updAt_id | exact HgE | ].
    unfold hideStep. now rewrite isVisible_erase, Hv.
Qed.

Lemma route_destroy fuel reg p :
  Store.routeMessage disp Window_hooks fuel reg p MSG_DESTROY 0 0 =
  Some (updAt reg p clearAlive, true).
Proof. reflexivity. Qed.

(** One call of [destroy] under the assumption that [destroy] with the
    remaining fuel behaves on the children. *)
Lemma destroy_steps_from f reg p w :
  (forall r q c, getAt r q = Some c -> (depth c <= f)%nat ->
     exists r', Store.destroy disp Window_hooks f r q = Some (r', true) /\
                E r' = updAt (E r) q destroyedWindow) ->
  getAt reg p = Some w -> (depth w <= S f)%nat ->
  exists reg1 b reg3,
    Store.hide disp Window_hooks f reg p = Some (reg1, b) /\
    Store.destroyChildren (Store.destroy disp Window_hooks f)
      (updAt reg1 p clearAlive) p true = Some (reg3, true) /\
    E reg3 = updAt (E reg) p childrenDestroyed /\
    Store.destroy disp Window_hooks (S f) reg p =
    Some (updAt reg3 p (fun x => with_children x []), true).
Proof.
  intros IHf Hg Hd.
  assert (Hp : p <> []) by (intros ->; discriminate).
  destruct (hide_erased Window_hooks f reg p w Hg) as (reg1 & b & Hhide & E1).
  exists reg1, b.
  set (reg2 := updAt reg1 p clearAlive).
  set (x2 := clearAlive (hideStep (eraseDirty w))).
  assert (E2 : E reg2 = updAt (E reg) p (fun x => clearAlive (hideStep x))).
  { unfold reg2. rewrite (erase_updAt reg1 p _ clearAlive)
      by apply erase_clearAlive.
    now rewrite E1, updAt_updAt. }
  assert (G2 : getAt (E reg2) p = Some x2).
  { rewrite E2, getAt_updAt_same, getAt_erase, Hg. reflexivity. }
  assert (Hch2 : _children x2 = map eraseDirty (_children w)).
  { unfold x2. rewrite clearAlive_children, hideStep_children.
    now destruct w. }
  assert (Hn : childCountAt reg2 p = length (_children w)).
  { unfold childCountAt. rewrite getAt_erase in G2.
    destruct (getAt reg2 p) as [ y | ]; [ | discriminate ].
    injection G2 as G2.
    assert (Hy : map eraseDirty (_children y) = _children x2).
    { rewrite <- G2. now destruct y. }
    rewrite Hch2 in Hy. apply (f_equal (@length Window)) in Hy.
    now rewrite !length_map in Hy. }
  set (F := fun i x => with_children x (mapFirst i destroyedWindow (_children x))).
  destruct (forIndices_inv
    (fun i (s : list Window * bool) =>
       snd s = true /\ E (fst s) = updAt (E reg2) p (F i))
    (fun i (s : list Window * bool) =>
       let (r, d) := s in
       match Store.destroy disp Window_hooks f r (p ++ [i]) with
       | None => None
       | Some (r', d') => Some (r', d && d')
       end)
    (length (_children w)) 0 (reg2, true)) as ((reg3 & d3) & Hloop & Hd3 & E3).
  { split; [ reflexivity | ]. cbn [fst]. symmetry. apply updAt_id.
    intros x. unfold F. rewrite mapFirst_0. apply with_children_same. }
  { intros i [r d] Hi [Hdt Er]. cbn [fst snd] in *. subst d.
    assert (Gi : getAt (E r) (p ++ [i]) = nth_error (_children x2) i).
    { rewrite Er. erewrite getAt_snoc;
        [ | rewrite getAt_updAt_same, G2; reflexivity ].
      unfold F. rewrite with_children_children. apply nth_error_mapFirst. }
    destruct (nth_error (_children x2) i) as [ ce | ] eqn:En.
    2:{ apply nth_error_None in En. rewrite Hch2, length_map in En. lia. }
    rewrite getAt_erase in Gi.
    destruct (getAt r (p ++ [i])) as [ c | ] eqn:Gc; [ | discriminate ].
    injection Gi as Gi.
    assert (Hdc : (depth c <= f)%nat).
    { rewrite <- depth_erase, Gi.
      pose proof (depth_child x2 ce i En) as Hlt.
      assert (Hx2 : depth x2 = depth w).
      { rewrite (depth_unfold x2), (depth_unfold w), Hch2.
        f_equal. unfold maxDepth. clear.
        induction (_children w) as [ | a l IH ]; [ reflexivity | ].
        cbn [map fold_right]. now rewrite depth_erase, IH. }
      lia. }
    destruct (IHf r (p ++ [i]) c Gc Hdc) as (r' & -> & Er').
    eexists. split; [ reflexivity | ]. cbn [fst snd andb].
    split; [ reflexivity | ].
    rewrite Er', Er, (updAt_snoc _ p i _ Hp), updAt_updAt.
    apply updAt_ext. intros x. unfold F.
    rewrite with_children_twice, with_children_children.
    now rewrite mapFirst_step. }
  cbn [fst snd] in *. subst d3. cbn [Nat.add] in E3.
  exists reg3.
  assert (Hdc : Store.destroyChildren (Store.destroy disp Window_hooks f)
                  reg2 p true = Some (reg3, true)).
  { unfold Store.destroyChildren. rewrite Hn. exact Hloop. }
  split; [ exact Hhide | ]. split; [ exact Hdc | ]. split.
  - rewrite E3.
    rewrite (updAt_ext_at (E reg2) p (F (length (_children w)))
               (fun x => with_children x (map destroyedWindow (_children x))) x2
               G2).
    2:{ unfold F. f_equal. apply mapFirst_all.
        rewrite Hch2, length_map. lia. }
    rewrite E2, updAt_updAt. apply updAt_ext. intros x.
    unfold childrenDestroyed.
    now rewrite clearAlive_children, hideStep_children.
  - cbn [Store.destroy]. rewrite Hhide, route_destroy. fold reg2.
    rewrite Hdc. reflexivity.
Qed.

Lemma destroy_erased fuel :
  forall reg p w,
    getAt reg p = Some w -> (depth w <= fuel)%nat ->
    exists reg', Store.destroy disp Window_hooks fuel reg p = Some (reg', true) /\
                 E reg' = updAt (E reg) p destroyedWindow.
Proof.
  induction fuel as [ | f IHf ]; intros reg p w Hg Hd.
  - rewrite depth_unfold in Hd. lia.
  - destruct (destroy_steps_from f reg p w IHf Hg Hd)
      as (reg1 & b & reg3 & _ & _ & E3 & ->).
    eexists. split; [ reflexivity | ].
    rewrite (erase_updAt reg3 p _ (fun x => with_children x []))
      by apply erase_with_children_nil.
    rewrite E3, updAt_updAt. apply updAt_ext. intros x.
    unfold childrenDestroyed, destroyedWindow.
    apply with_children_twice.
Qed.

End DestroyFacts.

Lemma bitsHigh_alive_testbit s : bitsHigh s STA_ALIVE = Z.testbit s 0.
Proof. exact (bitsHigh_visible_testbit s). Qed.

Lemma isAlive_clearAlive w : isAlive (clearAlive w) = false.
Proof.
  unfold isAlive, clearAlive. destruct w as [wi wp ws wst wr wd wz wq wc].
  cbn [setState getState].
  rewrite bitsHigh_alive_testbit, to_u16_testbit0.
  exact (land_clear_bit0 wst).
Qed.

Lemma isVisible_clearAlive w : isVisible (clearAlive w) = isVisible w.
Proof. now destruct w. Qed.

Lemma isVisible_hideStep w : isVisible (hideStep w) = false.
Proof.
  unfold hideStep. destruct (isVisible w) eqn:Hv; [ | exact Hv ].
  apply hiddenWindow_invisible.
Qed.

Lemma destroyedWindow_facts w :
  isVisible (destroyedWindow w) = false /\
  isAlive (destroyedWindow w) = false /\
  _children (destroyedWindow w) = [] /\
  getID (destroyedWindow w) = getID w.
Proof.
  unfold destroyedWindow.
  split; [ | split; [ | split ] ].
  - transitivity (isVisible (clearAlive (hideStep w))).
    + now destruct (clearAlive (hideStep w)).
    + now rewrite isVisible_clearAlive, isVisible_hideStep.
  - transitivity (isAlive (clearAlive (hideStep w))).
    + now destruct (clearAlive (hideStep w)).
    + apply isAlive_clearAlive.
  - apply with_children_children.
  - unfold hideStep, hiddenWindow.
    destruct (isVisible w); now destruct w.
Qed.

Lemma getAt_in_container reg p w :
  getAt reg p = Some w ->
  exists c, containerAt reg p = Some c /\ nth_error c (last p O) = Some w.
Proof.
  unfold containerAt. revert reg.
  induction p as [ | i rest IH ]; intros reg; [ discriminate | ].
  destruct rest as [ | j rest ].
  - cbn. destruct (nth_error reg i) as [ x | ] eqn:En; [ | discriminate ].
    intros [= ->]. now exists reg.
  - intros Hg. cbn [getAt] in Hg.
    destruct (nth_error reg i) as [ x | ] eqn:En; [ | discriminate ].
    destruct (IH _ Hg) as (c & Hc & Hn).
    exists c. split; [ | exact Hn ].
    change (removelast (i :: j :: rest)) with (i :: removelast (j :: rest)).
    destruct (removelast (j :: rest)) as [ | k pp ] eqn:Er.
    + cbn. rewrite En. cbn. now injection Hc as ->.
    + cbn [getAt]. rewrite En. exact Hc.
Qed.

Lemma getChildByID_present c w i :
  nth_error c i = Some w ->
  WindowContainer.getChildByID c (getID w) <> None.
Proof.
  intros Hn Hnone. apply ContainerFacts.getChildByID_None in Hnone.
  apply Hnone. unfold ids. apply in_map. eapply nth_error_In; eassumption.
Qed.

(** C9 (as amended). For a window of class [Window], [destroy] hides the
    window, routes [MSG_DESTROY] (which clears [STA_ALIVE]), destroys every
    child in the same way and then empties the window's own child list.
    Dirty rectangles aside it changes nothing else, and the window is still
    held, at the same place, by its parent's or the root's child list. *)
Theorem destroy_sequence (disp : Rect) (fuel : nat) (reg : list Window)
    (p : Path) (w : Window) :
  getAt reg p = Some w -> (depth w <= S fuel)%nat ->
  exists reg1 b reg3 reg' w' c,
    Store.hide disp Window_hooks fuel reg p = Some (reg1, b) /\
    Store.routeMessage disp Window_hooks fuel reg1 p MSG_DESTROY 0 0 =
      Some (updAt reg1 p clearAlive, true) /\
    Store.destroyChildren (Store.destroy disp Window_hooks fuel)
      (updAt reg1 p clearAlive) p true = Some (reg3, true) /\
    map eraseDirty reg3 = updAt (map eraseDirty reg) p childrenDestroyed /\
    Store.destroy disp Window_hooks (S fuel) reg p = Some (reg', true) /\
    reg' = updAt reg3 p (fun x => with_children x []) /\
    map eraseDirty reg' = updAt (map eraseDirty reg) p destroyedWindow /\
    getAt reg' p = Some w' /\
    isVisible w' = false /\ isAlive w' = false /\ _children w' = [] /\
    getID w' = getID w /\
    containerAt reg' p = Some c /\ nth_error c (last p O) = Some w' /\
    WindowContainer.getChildByID c (getID w) <> None.
Proof.
  intros Hg Hd.
  destruct (destroy_steps_from disp fuel reg p w
              (destroy_erased disp fuel) Hg Hd)
    as (reg1 & b & reg3 & Hhide & Hloop & E3 & Hdes).
  destruct (destroy_erased disp (S fuel) reg p w Hg Hd) as (reg' & Hdes' & E').
  assert (Hreg' : reg' = updAt reg3 p (fun x => with_children x [])) by congruence.
  assert (G' : getAt (map eraseDirty reg') p =
               Some (destroyedWindow (eraseDirty w))).
  { now rewrite E', getAt_updAt_same, getAt_erase, Hg. }
  rewrite getAt_erase in G'.
  destruct (getAt reg' p) as [ w' | ] eqn:Gw'; [ | discriminate ].
  injection G' as G'.
  destruct (destroyedWindow_facts (eraseDirty w)) as (Fv & Fa & Fc & Fi).
  rewrite <- G' in Fv, Fa, Fc, Fi.
  rewrite isVisible_erase in Fv. rewrite isAlive_erase in Fa.
  assert (Fc' : _children w' = []).
  { destruct w' as [wi wp ws wst wr wd wz wq wc]. cbn in Fc.
    now apply map_eq_nil in Fc. }
  assert (Fi' : getID w' = getID w).
  { destruct w', w; cbn in Fi |- *; exact Fi. }
  destruct (getAt_in_container reg' p w' Gw') as (c & Hc & Hn).
  exists reg1, b, reg3, reg', w', c.
  repeat (split; [ first [ assumption | apply route_destroy ] | ]).
  rewrite <- Fi'. now apply getChildByID_present with (i := last p O).
Qed.

Lemma destroy_sequence_witness :
  exists reg1 b reg3 reg' w' c,
    Store.hide sampleDisplay Window_hooks 2 (_registry sampleWM) [0%nat]
      = Some (reg1, b) /\
    Store.routeMessage sampleDisplay Window_hooks 2 reg1 [0%nat] MSG_DESTROY 0 0 =
      Some (updAt reg1 [0%nat] clearAlive, true) /\
    Store.destroyChildren (Store.destroy sampleDisplay Window_hooks 2)
      (updAt reg1 [0%nat] clearAlive) [0%nat] true = Some (reg3, true) /\
    map eraseDirty reg3 =
      updAt (map eraseDirty (_registry sampleWM)) [0%nat] childrenDestroyed /\
    Store.destroy sampleDisplay Window_hooks 3 (_registry sampleWM) [0%nat]
      = Some (reg', true) /\
    reg' = updAt reg3 [0%nat] (fun x => with_children x []) /\
    map eraseDirty reg' =
      updAt (map eraseDirty (_registry sampleWM)) [0%nat] destroyedWindow /\
    getAt reg' [0%nat] = Some w' /\
    isVisible w' = false /\ isAlive w' = false /\ _children w' = [] /\
    getID w' = getID sampleParent /\
    containerAt reg' [0%nat] = Some c /\
    nth_error c (last [0%nat] O) = Some w' /\
    WindowContainer.getChildByID c (getID sampleParent) <> None.
Proof.
  apply (destroy_sequence sampleDisplay 2 (_registry sampleWM) [0%nat]
           sampleParent).
  - reflexivity.
  - vm_compute. lia.
Defined.

(** C9 (as stated) fails: after [destroy] on the top-level window of the
    sample the registry still holds a window with its id. *)
Lemma destroy_does_not_detach :
  ~ detachedAfterDestroy sampleDisplay Window_hooks 3 (_registry sampleWM)
      [0%nat].
Proof.
  intros Hdet.
  destruct (Hdet sampleParent _ _ eq_refl eq_refl) as (c & Hc & Hnone).
  vm_compute in Hc. injection Hc as <-.
  vm_compute in Hnone. discriminate.
Qed.

(** ** render *)

Example render_hiddenLower :
  option_map (fun r => (map getDirtyRect (_registry (fst r)), snd r))
    (Manager.render Window_hooks 4 4 (coveredWM hiddenLower) 1000) =
  Some ([mkRect 10 10 20 20; Rect0], []).
Proof. vm_compute. reflexivity. Qed.

(** The visitor halts on the shrunk window: a piece of its dirty rectangle
    lies outside its rectangle, [displayToWindow] fails and the assertion
    of the blit loop never returns. *)
Example render_shrunkLower :
  Manager.renderWindow (getDisplayRect (coveredWM shrunkLower))
    (_registry (coveredWM shrunkLower)) 0 = None /\
  Manager.render Window_hooks 4 4 (coveredWM shrunkLower) 1000 = None.
Proof. split; vm_compute; reflexivity. Qed.

Example render_dyingLower :
  option_map (fun r => (map getDirtyRect (_registry (fst r)), snd r))
    (Manager.render Window_hooks 4 4 (coveredWM dyingLower) 1000) =
  Some ([mkRect 10 10 20 20; Rect0], []).
Proof. vm_compute. reflexivity. Qed.

Example render_dirtyLower :
  option_map (fun r => (map getDirtyRect (_registry (fst r)), snd r))
    (Manager.render Window_hooks 4 4 (coveredWM dirtyLower) 1000) =
  Some ([Rect0; Rect0], []).
Proof. vm_compute. reflexivity. Qed.

(** *** Idle queues *)

Lemma queuesEmpty_unfold w :
  queuesEmpty w =
  match _queue w with
  | [] => forallb queuesEmpty (_children w)
  | _ :: _ => false
  end.
Proof. now destruct w. Qed.

Lemma queuesEmpty_erase w : queuesEmpty (eraseDirty w) = queuesEmpty w.
Proof.
  induction w as [i p s st r d z q c IHc] using Window_tree_ind.
  rewrite !queuesEmpty_unfold. cbn [eraseDirty _queue _children].
  destruct q; [ | reflexivity ].
  induction c as [ | a c IH ]; [ reflexivity | ].
  inversion IHc; subst. cbn [map forallb]. rewrite IH by assumption.
  now f_equal.
Qed.

Section IdleQueues.

Variable disp : Rect.
Variable H : Hooks.

Lemma processQueue_idle fuel :
  forall reg p w,
    getAt reg p = Some w -> queuesEmpty w = true -> (depth w <= fuel)%nat ->
    Store.processQueue disp H fuel reg p = Some (reg, false).
Proof.
  induction fuel as [ | f IHf ]; intros reg p w Hg Hq Hd.
  - rewrite depth_unfold in Hd. lia.
  - cbn [Store.processQueue]. rewrite Hg.
    rewrite queuesEmpty_unfold in Hq.
    destruct (_queue w) eqn:Eq; [ | discriminate ].
    destruct (forIndices_inv (fun _ r => r = reg)
      (fun i r =>
         match Store.processQueue disp H f r (p ++ [i]) with
         | None => None
         | Some (r', _) => Some r'
         end)
      (childCountAt reg p) 0 reg eq_refl) as (r' & -> & ->).
    + intros i s0 Hi ->. unfold childCountAt in Hi. rewrite Hg in Hi.
      destruct (nth_error (_children w) i) as [ c | ] eqn:En.
      2:{ apply nth_error_None in En. lia. }
      rewrite (IHf reg (p ++ [i]) c).
      * now exists reg.
      * now rewrite (getAt_snoc reg p i w Hg).
      * rewrite forallb_forall in Hq. apply Hq.
        eapply nth_error_In; eassumption.
      * pose proof (depth_child w c i En). lia.
    + now rewrite Hg, Eq.
Qed.

Lemma drainQueue_idle rounds fuel reg p w :
  getAt reg p = Some w -> queuesEmpty w = true -> (depth w <= fuel)%nat ->
  Store.drainQueue disp H (S rounds) fuel reg p = Some reg.
Proof.
  intros Hg Hq Hd. cbn [Store.drainQueue].
  now rewrite (processQueue_idle fuel reg p w Hg Hq Hd).
Qed.

End IdleQueues.

(** *** The obscuring rectangle *)

Lemma mergeRect_wf a b :
  wf_rect a -> wf_rect b ->
  wf_rect (mergeRect a b) /\ insideRect a (mergeRect a b) /\
  insideRect b (mergeRect a b).
Proof.
  intros (a1 & a2 & a3 & a4 & a5 & a6) (b1 & b2 & b3 & b4 & b5 & b6).
  unfold mergeRect, wf_rect, insideRect, is_coord in *.
  cbn [left top right bottom]. norm_coords. lia.
Qed.

Lemma insideRect_trans a b c : insideRect a b -> insideRect b c -> insideRect a c.
Proof. unfold insideRect. lia. Qed.

Lemma insideRect_refl a : insideRect a a.
Proof. unfold insideRect. lia. Qed.

Lemma withinRect_inside a b :
  withinRect a b = true -> insideRect a b.
Proof. intros Hw. apply withinRect_spec in Hw. unfold insideRect. lia. Qed.

Lemma inside_withinRect a b :
  wf_rect a -> insideRect a b -> withinRect a b = true.
Proof.
  intros (_ & _ & _ & _ & Ha & Hb) Hi. apply withinRect_spec.
  unfold insideRect in Hi. lia.
Qed.

Section Obscuring.

Variable disp : Rect.

Lemma obscuringStep_cases set r a :
  (isDrawable disp [] a = false /\
   Manager.obscuringStep disp (set, r) a = (set, r)) \/
  (isDrawable disp [] a = true /\
   Manager.obscuringStep disp (set, r) a =
   (true, if set then mergeRect r (getRect a) else getRect a)).
Proof.
  unfold Manager.obscuringStep.
  destruct (isDrawable disp [] a); cbn [negb]; [ right | left ];
    (split; [ reflexivity | ]); now destruct set.
Qed.

Lemma obscuring_grows l :
  forall acc X,
    Forall (fun w => wf_rect (getRect w)) l ->
    fst acc = true -> wf_rect (snd acc) -> insideRect X (snd acc) ->
    let res := fold_left (Manager.obscuringStep disp) l acc in
    fst res = true /\ wf_rect (snd res) /\ insideRect X (snd res).
Proof.
  induction l as [ | a l IH ]; intros [set r] X Hall Hs Hwf Hin;
    cbn [fst snd] in *; subst set.
  - cbn. tauto.
  - inversion Hall as [ | ? ? Ha Hl ]; subst.
    cbn [fold_left].
    destruct (obscuringStep_cases true r a) as [(_ & ->) | (_ & ->)].
    + now apply IH.
    + destruct (mergeRect_wf r (getRect a) Hwf Ha) as (Hm & Hr & _).
      apply IH; try assumption; [ reflexivity | ].
      eapply insideRect_trans; eassumption.
Qed.

Lemma obscuring_contains l V :
  forall acc,
    Forall (fun w => wf_rect (getRect w)) l ->
    (fst acc = true -> wf_rect (snd acc)) ->
    In V l -> isDrawable disp [] V = true ->
    let res := fold_left (Manager.obscuringStep disp) l acc in
    fst res = true /\ wf_rect (snd res) /\ insideRect (getRect V) (snd res).
Proof.
  induction l as [ | a l IH ]; intros [set r] Hall Hacc Hin Hd; [ contradiction | ].
  inversion Hall as [ | ? ? Ha Hl ]; subst.
  cbn [fold_left fst snd] in *. destruct Hin as [-> | Hin].
  - destruct (obscuringStep_cases set r V) as [(Hf & _) | (_ & ->)];
      [ congruence | ].
    destruct set.
    + destruct (mergeRect_wf r (getRect V) (Hacc eq_refl) Ha) as (Hm & _ & Hv).
      now apply obscuring_grows.
    + apply obscuring_grows; try assumption; [ reflexivity | ].
      apply insideRect_refl.
  - apply IH; try assumption.
    destruct (obscuringStep_cases set r a) as [(_ & ->) | (_ & ->)];
      [ exact Hacc | ].
    cbn [fst snd]. intros _. destruct set; [ | exact Ha ].
    now destruct (mergeRect_wf r (getRect a) (Hacc eq_refl) Ha).
Qed.

Lemma obscuringRectOf_covers reg i j V :
  Forall (fun w => wf_rect (getRect w)) reg ->
  nth_error reg j = Some V -> (i < j)%nat ->
  isDrawable disp [] V = true ->
  wf_rect (Manager.obscuringRectOf disp reg i) /\
  insideRect (getRect V) (Manager.obscuringRectOf disp reg i).
Proof.
  intros Hall Hj Hij Hd. unfold Manager.obscuringRectOf.
  assert (Hin : In V (rev (skipn (S i) reg))).
  { apply in_rev. rewrite rev_involutive.
    apply nth_error_In with (n := (j - S i)%nat).
    rewrite nth_error_skipn. now replace (S i + (j - S i))%nat with j by lia. }
  assert (Hall' : Forall (fun w => wf_rect (getRect w)) (rev (skipn (S i) reg))).
  { apply Forall_rev. apply Forall_forall. intros x Hx.
    rewrite Forall_forall in Hall. apply Hall.
    rewrite <- (firstn_skipn (S i) reg). apply in_or_app. now right. }
  destruct (obscuring_contains _ V (false, Rect0) Hall'
              ltac:(discriminate) Hin Hd) as (_ & Hwf & Hins).
  split; assumption.
Qed.

Lemma obscuringStep_erase acc a :
  Manager.obscuringStep disp acc (eraseDirty a) = Manager.obscuringStep disp acc a.
Proof.
  unfold Manager.obscuringStep. destruct acc as [set r].
  pose proof (isDrawable_erase disp [] a) as Hd. cbn [map] in Hd. rewrite Hd.
  destruct (eraseDirty_fields a) as (_ & _ & _ & -> & _). reflexivity.
Qed.

Lemma obscuringRectOf_erase reg i :
  Manager.obscuringRectOf disp (map eraseDirty reg) i =
  Manager.obscuringRectOf disp reg i.
Proof.
  unfold Manager.obscuringRectOf. rewrite skipn_map, <- map_rev. f_equal.
  generalize (rev (skipn (S i) reg)) as l, (false, Rect0) as acc.
  induction l as [ | a l IH ]; intros acc; [ reflexivity | ].
  cbn [map fold_left]. now rewrite obscuringStep_erase, IH.
Qed.

End Obscuring.

(** *** The visitor of render *)

Lemma nonempty_wf a :
  wf_rect a -> (empty a = false <-> left a < right a /\ top a < bottom a).
Proof.
  intros (a1 & a2 & a3 & a4 & a5 & a6). unfold empty, width, height, to_extent.
  unfold is_coord in *.
  rewrite !Z.mod_small by lia. rewrite orb_false_iff, !Z.eqb_neq. lia.
Qed.

Lemma blitAll_slots win slot l :
  forall ops, Manager.blitAll win slot l = Some ops ->
    forall op, In op ops -> blitSlot op = Some slot.
Proof.
  induction l as [ | r l IH ]; intros ops; cbn [Manager.blitAll].
  - intros [= <-] op [].
  - destruct (Manager.displayToWindow win r); [ | discriminate ].
    destruct (Manager.blitAll win slot l) as [ ops' | ]; [ | discriminate ].
    intros [= <-] op [<- | [<- | Hin]]; [ reflexivity | reflexivity | ].
    now apply (IH ops').
Qed.

Lemma displayToWindow_total win dr :
  withinRect dr (getRect win) = true ->
  exists cr, Manager.displayToWindow win dr = Some cr.
Proof.
  intros Hw. apply withinRect_spec in Hw.
  unfold Manager.displayToWindow, Manager.displayToWindow_pt, pointWithin.
  cbn [fst snd]. rewrite !Z.geb_leb.
  rewrite !(proj2 (Z.leb_le _ _)) by lia. cbn [andb]. eexists. reflexivity.
Qed.

Lemma blitAll_total win slot l :
  Forall (fun dr => withinRect dr (getRect win) = true) l ->
  exists ops, Manager.blitAll win slot l = Some ops.
Proof.
  induction 1 as [ | dr l Hdr _ IH ]; cbn [Manager.blitAll].
  - now exists [].
  - destruct (displayToWindow_total win dr Hdr) as (cr & ->).
    destruct IH as (ops & ->). eexists. reflexivity.
Qed.

(** The pieces of a subtraction are well formed and lie within the
    rectangle subtracted from. *)
Lemma subtractRect_pieces_fit A B :
  wf_rect A -> wf_rect B ->
  Forall (fun r => wf_rect r /\ withinRect r A = true) (subtractRect A B).
Proof.
  intros (a1 & a2 & a3 & a4 & a5 & a6) (b1 & b2 & b3 & b4 & b5 & b6).
  rewrite subtractRect_unfold.
  destruct (intersectsRect A B) eqn:Hi; [ | constructor ].
  apply intersectsRect_spec in Hi; try assumption.
  unfold is_coord in *.
  destruct A as [lA tA rA bA], B as [lB tB rB bB].
  cbn [left top right bottom] in *.
  unfold mergeRect. cbn [left top right bottom]. rewrite !Z.geb_leb.
  destruct (Z_le_gt_dec lB lA), (Z_le_gt_dec tB tA),
    (Z_le_gt_dec rA rB), (Z_le_gt_dec bA bB);
    minmax_simp; norm_coords; leb_simp;
    cbv beta iota zeta delta [subtractPieces when emplace Rect_ctor negb orb
      andb app left top right bottom];
    minmax_simp; norm_coords;
    repeat (apply Forall_cons; [ split | ]);
    try apply Forall_nil;
    try (unfold wf_rect, is_coord; cbn [left top right bottom]; lia);
    apply withinRect_spec; cbn [left top right bottom]; lia.
Qed.

Lemma withinRect_trans a b c :
  withinRect a b = true -> withinRect b c = true -> withinRect a c = true.
Proof. rewrite !withinRect_spec. lia. Qed.

Lemma markRectDirty_Rect0 w : getDirtyRect (markRectDirty w Rect0) = Rect0.
Proof. now destruct w. Qed.

Lemma wf_rect_Rect0 : wf_rect Rect0.
Proof. unfold wf_rect, is_coord. cbn. lia. Qed.

Lemma obscuringRectOf_wf disp reg i :
  Forall (fun w => wf_rect (getRect w)) reg ->
  wf_rect (Manager.obscuringRectOf disp reg i).
Proof.
  intros Hall. unfold Manager.obscuringRectOf.
  assert (Hall' : Forall (fun w => wf_rect (getRect w)) (rev (skipn (S i) reg))).
  { apply Forall_rev. apply Forall_forall. intros x Hx.
    rewrite Forall_forall in Hall. apply Hall.
    rewrite <- (firstn_skipn (S i) reg). apply in_or_app. now right. }
  revert Hall'. generalize (rev (skipn (S i) reg)) as l.
  assert (G : forall l acc, wf_rect (snd acc) ->
            Forall (fun w => wf_rect (getRect w)) l ->
            wf_rect (snd (fold_left (Manager.obscuringStep disp) l acc))).
  { induction l as [ | a l IH ]; intros [set r] Hacc Hl; [ exact Hacc | ].
    inversion Hl as [ | ? ? Ha Hl' ]; subst. cbn [fold_left].
    apply IH; [ | assumption ].
    destruct (obscuringStep_cases disp set r a) as [(_ & ->) | (_ & ->)];
      [ exact Hacc | ].
    cbn [snd] in *. destruct set; [ | exact Ha ].
    now destruct (mergeRect_wf r (getRect a) Hacc Ha). }
  intros l Hl. apply G; [ apply wf_rect_Rect0 | exact Hl ].
Qed.

(** The rectangles the blit loop of the window at [k] goes through. *)
Lemma blit_pieces_fit disp r k W :
  Forall (fun w => wf_rect (getRect w)) r ->
  dirtyRectFits W -> empty (getDirtyRect W) = false ->
  Forall (fun dr => withinRect dr (getRect W) = true)
    (if negb (empty (Manager.obscuringRectOf disp r k))
     then subtractRect (getDirtyRect W) (Manager.obscuringRectOf disp r k)
     else [getDirtyRect W]).
Proof.
  intros Hall (Hwfd & Hfit) Hne.
  destruct Hfit as [He | Hin]; [ congruence | ].
  destruct (empty (Manager.obscuringRectOf disp r k)); cbn [negb].
  - now repeat constructor.
  - pose proof (subtractRect_pieces_fit (getDirtyRect W)
                  (Manager.obscuringRectOf disp r k) Hwfd
                  (obscuringRectOf_wf disp r k Hall)) as Hp.
    apply Forall_forall. intros dr Hdr.
    rewrite Forall_forall in Hp. destruct (Hp dr Hdr) as (_ & Hw).
    now apply withinRect_trans with (b := getDirtyRect W).
Qed.

(** With a dirty rectangle that fits, the visitor returns. *)
Lemma renderWindow_returns disp r k :
  Forall (fun w => wf_rect (getRect w)) r ->
  (forall W, nth_error r k = Some W -> isDrawable disp [] W = true ->
     dirtyRectFits W) ->
  exists res, Manager.renderWindow disp r k = Some res.
Proof.
  intros Hall Hfit. unfold Manager.renderWindow.
  destruct (nth_error r k) as [ W | ]; [ | eexists; reflexivity ].
  destruct (isDrawable disp [] W) eqn:Hd; cbn [negb];
    [ | eexists; reflexivity ].
  destruct (empty (getDirtyRect W)) eqn:Ee; [ eexists; reflexivity | ].
  pose proof (blit_pieces_fit disp r k W Hall (Hfit W eq_refl Hd) Ee) as Hp.
  destruct (if negb (empty (Manager.obscuringRectOf disp r k))
            then subtractRect (getDirtyRect W) (Manager.obscuringRectOf disp r k)
            else [getDirtyRect W]) as [ | d ds ]; [ eexists; reflexivity | ].
  destruct (blitAll_total W k (d :: ds) Hp) as (ops & ->).
  eexists. reflexivity.
Qed.

Lemma renderWindow_frame disp r k res :
  Manager.renderWindow disp r k = Some res ->
  map eraseDirty (fst (fst res)) = map eraseDirty r /\
  (forall i, i <> k -> nth_error (fst (fst res)) i = nth_error r i) /\
  (forall op, In op (snd (fst res)) -> blitSlot op = Some k).
Proof.
  assert (Hclear : map eraseDirty (update_nth k (fun w => markRectDirty w Rect0) r)
                   = map eraseDirty r).
  { rewrite (update_nth_map eraseDirty _ (fun x => x)).
    - now apply update_nth_id.
    - intros x. apply eraseDirty_markRectDirty. }
  assert (Hother : forall i, i <> k ->
            nth_error (update_nth k (fun w => markRectDirty w Rect0) r) i
            = nth_error r i).
  { intros i Hi. apply nth_error_update_nth_other. congruence. }
  unfold Manager.renderWindow.
  destruct (nth_error r k) as [ win | ]; [ | intros [= <-]; cbn; tauto ].
  destruct (negb (isDrawable disp [] win)); [ intros [= <-]; cbn; tauto | ].
  destruct (empty (getDirtyRect win)); [ intros [= <-]; cbn; tauto | ].
  destruct (if negb (empty (Manager.obscuringRectOf disp r k))
            then subtractRect (getDirtyRect win) (Manager.obscuringRectOf disp r k)
            else [getDirtyRect win]) as [ | d ds ] eqn:Ed.
  - intros [= <-]. cbn [fst snd]. repeat split; try assumption. intros op [].
  - destruct (Manager.blitAll win k (d :: ds)) as [ ops | ] eqn:Eb;
      [ | discriminate ].
    intros [= <-]. cbn [fst snd]. repeat split; try assumption.
    exact (blitAll_slots win k (d :: ds) ops Eb).
Qed.

Lemma renderWindow_covered disp r i W V j :
  Forall (fun w => wf_rect (getRect w)) r ->
  nth_error r i = Some W -> nth_error r j = Some V -> (i < j)%nat ->
  isDrawable disp [] W = true -> isDrawable disp [] V = true ->
  withinRect (getRect W) (getRect V) = true ->
  dirtyRectFits W ->
  Manager.renderWindow disp r i =
  Some (if empty (getDirtyRect W) then r
        else update_nth i (fun w => markRectDirty w Rect0) r, [], false).
Proof.
  intros Hall Hi Hj Hij HdW HdV Hcov (Hwfd & Hfit).
  unfold Manager.renderWindow. rewrite Hi, HdW. cbn [negb].
  destruct (empty (getDirtyRect W)) eqn:Ee; [ reflexivity | ].
  destruct Hfit as [He | Hdin]; [ discriminate | ].
  destruct (obscuringRectOf_covers disp r i j V Hall Hj Hij HdV) as (Hwfo & Hins).
  assert (HwfV : wf_rect (getRect V)).
  { rewrite Forall_forall in Hall. apply Hall. eapply nth_error_In; eassumption. }
  assert (HneV : empty (getRect V) = false).
  { rewrite isDrawable_unfold in HdV. unfold isVisible in HdV.
    destruct (empty (getRect V)); [ | reflexivity ].
    now rewrite andb_false_r in HdV. }
  assert (Hneo : empty (Manager.obscuringRectOf disp r i) = false).
  { apply (nonempty_wf _ Hwfo). apply (nonempty_wf _ HwfV) in HneV.
    unfold insideRect in Hins. lia. }
  rewrite Hneo. cbn [negb].
  rewrite subtractRect_within; [ reflexivity | assumption | assumption | ].
  apply inside_withinRect; [ assumption | ].
  apply insideRect_trans with (b := getRect W);
    [ now apply withinRect_inside | ].
  apply insideRect_trans with (b := getRect V);
    [ now apply withinRect_inside | assumption ].
Qed.

(** *** The pass over the registry *)

Lemma erased_nth r reg k x :
  map eraseDirty r = map eraseDirty reg -> nth_error reg k = Some x ->
  exists y, nth_error r k = Some y /\ eraseDirty y = eraseDirty x.
Proof.
  intros He Hn.
  assert (Hm : nth_error (map eraseDirty r) k = Some (eraseDirty x)).
  { rewrite He, nth_error_map, Hn. reflexivity. }
  rewrite nth_error_map in Hm.
  destruct (nth_error r k) as [ y | ]; [ | discriminate ].
  injection Hm as Hm. now exists y.
Qed.

Lemma erased_same_view disp x y :
  eraseDirty y = eraseDirty x ->
  getRect y = getRect x /\
  isDrawable disp [] y = isDrawable disp [] x /\
  queuesEmpty y = queuesEmpty x /\ depth y = depth x.
Proof.
  intros He. repeat split.
  - destruct (eraseDirty_fields x) as (_ & _ & _ & <- & _).
    destruct (eraseDirty_fields y) as (_ & _ & _ & <- & _). now rewrite He.
  - pose proof (isDrawable_erase disp [] x) as Hx.
    pose proof (isDrawable_erase disp [] y) as Hy. cbn [map] in *.
    now rewrite <- Hx, <- Hy, He.
  - now rewrite <- (queuesEmpty_erase x), <- (queuesEmpty_erase y), He.
  - now rewrite <- (depth_erase x), <- (depth_erase y), He.
Qed.

(** The visitor reads the window it visits and the rectangles of the
    others: on a registry that differs from [reg] only in the dirty
    rectangles of other windows it does what it does on [reg]. *)
Lemma renderWindow_local disp reg r k r2 ops u :
  map eraseDirty r = map eraseDirty reg ->
  nth_error r k = nth_error reg k ->
  Manager.renderWindow disp reg k = Some (r2, ops, u) ->
  exists r2',
    Manager.renderWindow disp r k = Some (r2', ops, u) /\
    nth_error r2' k = nth_error r2 k /\
    (forall i, i <> k -> nth_error r2' i = nth_error r i) /\
    map eraseDirty r2' = map eraseDirty r.
Proof.
  intros He Hk. unfold Manager.renderWindow. rewrite Hk.
  rewrite <- (obscuringRectOf_erase disp r k), He, obscuringRectOf_erase.
  assert (Hclear : map eraseDirty (update_nth k (fun w => markRectDirty w Rect0) r)
                   = map eraseDirty r).
  { rewrite (update_nth_map eraseDirty _ (fun x => x)).
    - now apply update_nth_id.
    - intros x. apply eraseDirty_markRectDirty. }
  assert (Hupd : nth_error (update_nth k (fun w => markRectDirty w Rect0) r) k =
                 nth_error (update_nth k (fun w => markRectDirty w Rect0) reg) k).
  { now rewrite !nth_error_update_nth_same, Hk. }
  assert (Hother : forall i, i <> k ->
            nth_error (update_nth k (fun w => markRectDirty w Rect0) r) i
            = nth_error r i).
  { intros i Hi. apply nth_error_update_nth_other. congruence. }
  destruct (nth_error reg k) as [ W | ] eqn:E.
  2:{ intros [= <- <- <-]. exists r. now rewrite Hk, E. }
  destruct (negb (isDrawable disp [] W)).
  { intros [= <- <- <-]. exists r. now rewrite Hk, E. }
  destruct (empty (getDirtyRect W)).
  { intros [= <- <- <-]. exists r. now rewrite Hk, E. }
  destruct (if negb (empty (Manager.obscuringRectOf disp reg k))
            then subtractRect (getDirtyRect W) (Manager.obscuringRectOf disp reg k)
            else [getDirtyRect W]) as [ | d ds ].
  { intros [= <- <- <-]. eexists. split; [ reflexivity | ].
    split; [ exact Hupd | split; [ exact Hother | congruence ] ]. }
  destruct (Manager.blitAll W k (d :: ds)) as [ o | ]; [ | discriminate ].
  intros [= <- <- <-]. eexists. split; [ reflexivity | ].
    split; [ exact Hupd | split; [ exact Hother | congruence ] ].
Qed.

Section RenderPass.

Variable H : Hooks.
Variable disp : Rect.
Variable rounds fuel : nat.
Variable reg : list Window.

Hypothesis Hidle :
  Forall (fun w => queuesEmpty w = true /\ (depth w <= fuel)%nat /\
                   wf_rect (getRect w)) reg.
Hypothesis Hfit :
  Forall (fun w => isDrawable disp [] w = true -> dirtyRectFits w) reg.

(** With idle queues and dirty rectangles that fit, the pass returns, and
    it is made of the visits of the windows of [reg], one after the other,
    each as on [reg] itself. *)
Lemma renderWindows_visits :
  exists reg' ops updated,
    Manager.renderWindows H (S rounds) fuel disp reg = Some (reg', ops, updated) /\
    map eraseDirty reg' = map eraseDirty reg /\
    (forall k, (k < length reg)%nat ->
       exists r2 ops_k u_k,
         Manager.renderWindow disp reg k = Some (r2, ops_k, u_k) /\
         nth_error reg' k = nth_error r2 k) /\
    (forall op, In op ops ->
       exists k r2 ops_k u_k,
         Manager.renderWindow disp reg k = Some (r2, ops_k, u_k) /\
         In op ops_k).
Proof.
  pose proof (proj1 (Forall_forall _ _) Hidle) as Hall.
  pose proof (proj1 (Forall_forall _ _) Hfit) as Hfits.
  assert (Hwf : Forall (fun w => wf_rect (getRect w)) reg).
  { apply Forall_forall. intros w Hw. now destruct (Hall w Hw) as (_ & _ & ?). }
  unfold Manager.renderWindows.
  set (Inv := fun (k : nat) (s : list Window * list DisplayOp * bool) =>
    map eraseDirty (fst (fst s)) = map eraseDirty reg /\
    (forall i, (k <= i)%nat -> nth_error (fst (fst s)) i = nth_error reg i) /\
    (forall i, (i < k)%nat ->
       exists r2 ops_i u_i,
         Manager.renderWindow disp reg i = Some (r2, ops_i, u_i) /\
         nth_error (fst (fst s)) i = nth_error r2 i) /\
    (forall op, In op (snd (fst s)) ->
       exists i r2 ops_i u_i,
         Manager.renderWindow disp reg i = Some (r2, ops_i, u_i) /\
         In op ops_i)).
  destruct (forIndices_inv Inv
    (fun k (s : list Window * list DisplayOp * bool) =>
       let '(r, ops, updated) := s in
       match Store.drainQueue disp H (S rounds) fuel r [k] with
       | None => None
       | Some r1 =>
           match Manager.renderWindow disp r1 k with
           | None => None
           | Some (r2, ops', updated') =>
               Some (r2, ops ++ ops', updated || updated')
           end
       end)
    (length reg) 0 (reg, [], false)) as (((reg' & ops) & upd) & Hrun & Hinv).
  - unfold Inv. cbn [fst snd]. split; [ reflexivity | ].
    split; [ reflexivity | ]. split; [ intros i Hi; lia | intros op [] ].
  - intros k [[r ops] upd] Hk (He & Hsame & Hdone & Hops). cbn [fst snd] in *.
    destruct (nth_error reg k) as [ x | ] eqn:Ex.
    2:{ apply nth_error_None in Ex. lia. }
    assert (Hrk : nth_error r k = Some x) by (rewrite Hsame by lia; exact Ex).
    destruct (Hall x (nth_error_In _ _ Ex)) as (Hqx & Hdx & _).
    rewrite (drainQueue_idle disp H rounds fuel r [k] x);
      [ | cbn; now rewrite Hrk | assumption | assumption ].
    destruct (renderWindow_returns disp reg k Hwf) as ([[r2 ops_k] u_k] & Hret).
    { intros W HW Hd. apply Hfits; [ | exact Hd ].
      eapply nth_error_In; eassumption. }
    destruct (renderWindow_local disp reg r k r2 ops_k u_k He
                ltac:(now rewrite Hrk, Ex) Hret)
      as (r2' & -> & Hk2 & Hoth & He2).
    eexists. split; [ reflexivity | ]. unfold Inv. cbn [fst snd].
    split; [ congruence | ]. split; [ | split ].
    + intros i Hi. rewrite Hoth by lia. apply Hsame. lia.
    + intros i Hi. destruct (Nat.eq_dec i k) as [-> | Hne].
      * now exists r2, ops_k, u_k.
      * destruct (Hdone i ltac:(lia)) as (q & o & u & Hq & Hn).
        exists q, o, u. split; [ exact Hq | ]. now rewrite Hoth.
    + intros op Hin. apply in_app_or in Hin as [Hin | Hin];
        [ now apply Hops | ].
      now exists k, r2, ops_k, u_k.
  - destruct Hinv as (He & _ & Hdone & Hops). cbn [fst snd] in *.
    exists reg', ops, upd. repeat split; assumption.
Qed.

End RenderPass.

Section RenderCulls.

Variable H : Hooks.
Variable disp : Rect.
Variable rounds fuel : nat.
Variable reg : list Window.
Variables (i j : nat) (W V : Window).

Hypothesis Hidle :
  Forall (fun w => queuesEmpty w = true /\ (depth w <= fuel)%nat /\
                   wf_rect (getRect w)) reg.
Hypothesis Hfit :
  Forall (fun w => isDrawable disp [] w = true -> dirtyRectFits w) reg.
Hypothesis HW : nth_error reg i = Some W.
Hypothesis HV : nth_error reg j = Some V.
Hypothesis Hij : (i < j)%nat.
Hypothesis HdW : isDrawable disp [] W = true.
Hypothesis HdV : isDrawable disp [] V = true.
Hypothesis Hcov : withinRect (getRect W) (getRect V) = true.

Lemma renderWindows_culls :
  exists reg' ops updated W',
    Manager.renderWindows H (S rounds) fuel disp reg = Some (reg', ops, updated) /\
    (forall op, In op ops -> blitSlot op <> Some i) /\
    nth_error reg' i = Some W' /\
    empty (getDirtyRect W') = true.
Proof.
  destruct (renderWindows_visits H disp rounds fuel reg Hidle Hfit)
    as (reg' & ops & upd & Hrun & _ & Hdone & Hops).
  assert (Hwf : Forall (fun w => wf_rect (getRect w)) reg).
  { apply Forall_forall. intros w Hw.
    rewrite Forall_forall in Hidle. now destruct (Hidle w Hw) as (_ & _ & ?). }
  assert (HfW : dirtyRectFits W).
  { rewrite Forall_forall in Hfit. apply Hfit; [ | exact HdW ].
    eapply nth_error_In; eassumption. }
  pose proof (renderWindow_covered disp reg i W V j Hwf HW HV Hij HdW HdV Hcov
                HfW) as Hvisit.
  assert (Hlen : (i < length reg)%nat) by (apply nth_error_Some; congruence).
  destruct (Hdone i Hlen) as (r2 & ops_i & u_i & Hr2 & Hn).
  rewrite Hvisit in Hr2. injection Hr2 as <- <- <-.
  assert (HW' : exists W', nth_error reg' i = Some W' /\
                           empty (getDirtyRect W') = true).
  { rewrite Hn. destruct (empty (getDirtyRect W)) eqn:Ee.
    - now exists W.
    - exists (markRectDirty W Rect0).
      rewrite nth_error_update_nth_same, HW. cbn [option_map].
      now rewrite markRectDirty_Rect0. }
  destruct HW' as (W' & HW' & He').
  exists reg', ops, upd, W'. split; [ exact Hrun | ].
  split; [ | now split ].
  intros op Hin Hslot.
  destruct (Hops op Hin) as (k & r2 & ops_k & u_k & Hk & Hink).
  destruct (renderWindow_frame disp reg k _ Hk) as (_ & _ & Hslots).
  cbn [fst snd] in Hslots. rewrite (Hslots op Hink) in Hslot.
  injection Hslot as ->. rewrite Hvisit in Hk. injection Hk as _ <- _.
  destruct Hink.
Qed.

End RenderCulls.



(** ** Rect: further properties *)

Lemma pointWithin_spec r x y :
  pointWithin r x y = true <->
  (left r <= x <= right r /\ top r <= y <= bottom r).
Proof. unfold pointWithin. rewrite !Z.geb_leb. b2p. lia. Qed.

(** X1. On well-formed rectangles [intersectsRect] answers [true] exactly
    when some point is within both rectangles, edges included. *)
Theorem intersectsRect_iff_common_point (A B : Rect) :
  wf_rect A -> wf_rect B ->
  (intersectsRect A B = true <->
   exists x y, pointWithin A x y = true /\ pointWithin B x y = true).
Proof.
  intros (_ & _ & _ & _ & HA1 & HA2) (_ & _ & _ & _ & HB1 & HB2).
  rewrite (intersectsRect_spec A B HA1 HA2 HB1 HB2). split.
  - intros (H1 & H2 & H3 & H4).
    exists (Z.max (left A) (left B)), (Z.max (top A) (top B)).
    rewrite !pointWithin_spec. lia.
  - intros (x & y & Hx & Hy). rewrite pointWithin_spec in Hx, Hy. lia.
Qed.

Lemma intersectsRect_iff_common_point_witness :
  intersectsRect (mkRect 0 0 100 100) (mkRect 100 100 150 150) = true <->
  exists x y, pointWithin (mkRect 0 0 100 100) x y = true /\
              pointWithin (mkRect 100 100 150 150) x y = true.
Proof.
  apply (intersectsRect_iff_common_point (mkRect 0 0 100 100)
           (mkRect 100 100 150 150));
    unfold wf_rect, is_coord; cbn; lia.
Defined.

(** X2. For well-formed rectangles that intersect, [getIntersection] is the
    well-formed rectangle whose points are the points within both; for
    rectangles that do not intersect it is the empty [Rect()]. *)
Theorem getIntersection_common_points (A B : Rect) :
  wf_rect A -> wf_rect B ->
  (intersectsRect A B = true ->
   wf_rect (getIntersection A B) /\
   forall x y, pointWithin (getIntersection A B) x y = true <->
               (pointWithin A x y = true /\ pointWithin B x y = true)) /\
  (intersectsRect A B = false ->
   getIntersection A B = Rect0 /\ empty (getIntersection A B) = true).
Proof.
  intros (a1 & a2 & a3 & a4 & a5 & a6) (b1 & b2 & b3 & b4 & b5 & b6).
  unfold getIntersection. split; intros Hi; rewrite Hi.
  - apply intersectsRect_spec in Hi; try assumption.
    unfold is_coord in *.
    rewrite Rect_ctor_id by (unfold is_coord; lia).
    split.
    + unfold wf_rect, is_coord. cbn [left top right bottom]. lia.
    + intros x y. rewrite !pointWithin_spec. cbn [left top right bottom]. lia.
  - split; reflexivity.
Qed.

Lemma getIntersection_common_points_witness :
  wf_rect (getIntersection (mkRect 0 0 100 100) (mkRect 50 (-20) 150 30)) /\
  getIntersection (mkRect 0 0 100 100) (mkRect 50 (-20) 150 30) =
    mkRect 50 0 100 30.
Proof.
  assert (HA : wf_rect (mkRect 0 0 100 100))
    by (unfold wf_rect, is_coord; cbn; lia).
  assert (HB : wf_rect (mkRect 50 (-20) 150 30))
    by (unfold wf_rect, is_coord; cbn; lia).
  split; [ | reflexivity ].
  apply (proj1 (getIntersection_common_points _ _ HA HB)). reflexivity.
Defined.

(** X3. [mergeRect] on rectangles whose edges are coordinates gives the
    bounding box: both rectangles lie inside it, and it lies inside every
    rectangle that holds both. *)
Theorem mergeRect_bounding_box (A B : Rect) :
  wf_rect A -> wf_rect B ->
  wf_rect (mergeRect A B) /\
  insideRect A (mergeRect A B) /\ insideRect B (mergeRect A B) /\
  (forall C, insideRect A C -> insideRect B C -> insideRect (mergeRect A B) C) /\
  (forall x y, pointWithin A x y = true \/ pointWithin B x y = true ->
               pointWithin (mergeRect A B) x y = true).
Proof.
  intros (a1 & a2 & a3 & a4 & a5 & a6) (b1 & b2 & b3 & b4 & b5 & b6).
  unfold is_coord in *.
  assert (E : mergeRect A B =
              mkRect (Z.min (left A) (left B)) (Z.min (top A) (top B))
                     (Z.max (right A) (right B)) (Z.max (bottom A) (bottom B))).
  { unfold mergeRect. now rewrite !to_coord_id by (unfold is_coord; lia). }
  rewrite E. unfold wf_rect, insideRect, is_coord.
  cbn [left top right bottom].
  split; [ lia | ]. split; [ lia | ]. split; [ lia | ].
  split.
  - intros C HA HB. lia.
  - intros x y. rewrite !pointWithin_spec. cbn [left top right bottom]. lia.
Qed.

Lemma mergeRect_bounding_box_witness :
  mergeRect (mkRect 0 0 10 10) (mkRect 20 (-5) 30 5) = mkRect 0 (-5) 30 10 /\
  insideRect (mkRect 20 (-5) 30 5)
             (mergeRect (mkRect 0 0 10 10) (mkRect 20 (-5) 30 5)).
Proof.
  assert (HA : wf_rect (mkRect 0 0 10 10))
    by (unfold wf_rect, is_coord; cbn; lia).
  assert (HB : wf_rect (mkRect 20 (-5) 30 5))
    by (unfold wf_rect, is_coord; cbn; lia).
  split; [ reflexivity | ].
  apply (mergeRect_bounding_box _ _ HA HB).
Defined.

(** X4. [subtractRect] never returns more than four rectangles, and on
    well-formed rectangles each of them is well formed and lies within the
    rectangle subtracted from. *)
Theorem subtractRect_pieces_within (A B : Rect) :
  wf_rect A -> wf_rect B ->
  (length (subtractRect A B) <= 4)%nat /\
  Forall (fun r => wf_rect r /\ withinRect r A = true) (subtractRect A B).
Proof.
  intros (a1 & a2 & a3 & a4 & a5 & a6) (b1 & b2 & b3 & b4 & b5 & b6).
  rewrite subtractRect_unfold.
  destruct (intersectsRect A B) eqn:Hi; [ | split; [ cbn; lia | constructor ] ].
  apply intersectsRect_spec in Hi; try assumption.
  unfold is_coord in *.
  destruct A as [lA tA rA bA], B as [lB tB rB bB].
  cbn [left top right bottom] in *.
  unfold mergeRect. cbn [left top right bottom]. rewrite !Z.geb_leb.
  destruct (Z_le_gt_dec lB lA), (Z_le_gt_dec tB tA),
    (Z_le_gt_dec rA rB), (Z_le_gt_dec bA bB);
    minmax_simp; norm_coords; leb_simp;
    cbv beta iota zeta delta [subtractPieces when emplace Rect_ctor negb orb andb app
      left top right bottom];
    minmax_simp; norm_coords;
    (split; [ cbn [length]; lia | ]);
    repeat (apply Forall_cons; [ split | ]);
    try apply Forall_nil;
    try (unfold wf_rect, is_coord; cbn [left top right bottom]; lia);
    apply withinRect_spec; cbn [left top right bottom]; lia.
Qed.

Lemma subtractRect_pieces_within_witness :
  subtractRect (mkRect 0 0 100 100) (mkRect 20 20 60 60) =
    [mkRect 0 0 20 100; mkRect 0 0 100 20;
     mkRect 60 0 100 100; mkRect 0 60 100 100] /\
  Forall (fun r => wf_rect r /\ withinRect r (mkRect 0 0 100 100) = true)
    (subtractRect (mkRect 0 0 100 100) (mkRect 20 20 60 60)).
Proof.
  assert (HA : wf_rect (mkRect 0 0 100 100))
    by (unfold wf_rect, is_coord; cbn; lia).
  assert (HB : wf_rect (mkRect 20 20 60 60))
    by (unfold wf_rect, is_coord; cbn; lia).
  split; [ reflexivity | ].
  apply (subtractRect_pieces_within _ _ HA HB).
Defined.

(** X5. [outsideRect] tests the four corners only.  Well-formed rectangles
    that do not intersect are outside each other and a rectangle within
    another is not outside it; but a rectangle that surrounds another one on
    all four sides is reported outside it although the two intersect. *)
Theorem outsideRect_corner_test (A B : Rect) :
  wf_rect A -> wf_rect B ->
  (intersectsRect A B = false ->
   outsideRect A B = true /\ outsideRect B A = true) /\
  (withinRect A B = true -> outsideRect A B = false) /\
  (left A < left B -> right B < right A ->
   top A < top B -> bottom B < bottom A ->
   outsideRect A B = true /\ intersectsRect A B = true).
Proof.
  intros (_ & _ & _ & _ & HA1 & HA2) (_ & _ & _ & _ & HB1 & HB2).
  pose proof (intersectsRect_spec A B HA1 HA2 HB1 HB2) as Hspec.
  split; [ | split ].
  - intros Hi.
    assert (Hn : ~ (left A <= right B /\ left B <= right A /\
                    top A <= bottom B /\ top B <= bottom A)).
    { intros Hc. apply Hspec in Hc. congruence. }
    unfold outsideRect.
    split; repeat (apply andb_true_iff; split); apply negb_true_iff;
      apply not_true_iff_false; rewrite pointWithin_spec; lia.
  - intros Hw. unfold withinRect in Hw. unfold outsideRect.
    destruct (pointWithin B (left A) (top A)); [ reflexivity | discriminate ].
  - intros H1 H2 H3 H4. split.
    + unfold outsideRect.
      repeat (apply andb_true_iff; split); apply negb_true_iff;
        apply not_true_iff_false; rewrite pointWithin_spec; lia.
    + apply Hspec. lia.
Qed.

Lemma outsideRect_corner_test_witness :
  outsideRect (mkRect (-1) (-1) 321 241) (mkRect 0 0 320 240) = true /\
  intersectsRect (mkRect (-1) (-1) 321 241) (mkRect 0 0 320 240) = true.
Proof.
  assert (HA : wf_rect (mkRect (-1) (-1) 321 241))
    by (unfold wf_rect, is_coord; cbn; lia).
  assert (HB : wf_rect (mkRect 0 0 320 240))
    by (unfold wf_rect, is_coord; cbn; lia).
  apply (proj2 (proj2 (outsideRect_corner_test _ _ HA HB))); cbn; lia.
Defined.

Lemma to_coord_add_l a b : to_coord (to_coord a + b) = to_coord (a + b).
Proof.
  unfold to_coord.
  replace ((a + 32768) mod 65536 - 32768 + b + 32768)
    with ((a + 32768) mod 65536 + b) by lia.
  rewrite Zplus_mod_idemp_l. f_equal. f_equal. lia.
Qed.

Lemma deflate_asserts_wf r px :
  wf_rect r ->
  deflate_asserts r px =
  (to_extent px <? right r - left r) && (to_extent px <? bottom r - top r).
Proof.
  intros (a1 & a2 & a3 & a4 & a5 & a6). unfold is_coord in *.
  unfold deflate_asserts, width, height.
  rewrite (proj2 (Z.leb_le _ _) a5), (proj2 (Z.leb_le _ _) a6).
  unfold to_extent at 2 4. rewrite !Z.mod_small by lia.
  cbn [andb]. now rewrite andb_true_r.
Qed.

(** X6. On a well-formed rectangle [deflate(px)] returns exactly when [px]
    is less than the width and less than the height, and [inflate(px)] then
    gives back the rectangle it was called on.  When no edge leaves the
    range of [Coord], the inflated rectangle is well formed, holds the
    original one and is wider and higher by twice the amount; [deflate(px)]
    on it returns the original rectangle, except for the amount zero on an
    empty rectangle, where the assertion of [deflate] fails. *)
Theorem inflate_deflate_round_trip (r : Rect) (px : Z) :
  wf_rect r ->
  (deflate r px <> None <->
   to_extent px < right r - left r /\ to_extent px < bottom r - top r) /\
  (forall r', deflate r px = Some r' -> inflate r' px = r) /\
  (is_coord (left r - to_extent px) -> is_coord (top r - to_extent px) ->
   is_coord (right r + to_extent px) -> is_coord (bottom r + to_extent px) ->
   wf_rect (inflate r px) /\ withinRect r (inflate r px) = true /\
   width (inflate r px) = right r - left r + 2 * to_extent px /\
   height (inflate r px) = bottom r - top r + 2 * to_extent px /\
   (0 < to_extent px \/ empty r = false ->
    deflate (inflate r px) px = Some r) /\
   (to_extent px = 0 -> empty r = true ->
    deflate (inflate r px) px = None)).
Proof.
  intros Hwf. pose proof (deflate_asserts_wf r px Hwf) as Ha.
  destruct Hwf as (a1 & a2 & a3 & a4 & a5 & a6).
  destruct r as [l t rr b]. cbn [left top right bottom] in *.
  assert (Hp : 0 <= to_extent px < 65536)
    by (unfold to_extent; apply Z.mod_pos_bound; lia).
  set (p := to_extent px) in *.
  split; [ | split ].
  - unfold deflate. rewrite Ha.
    destruct (Z.ltb_spec p (rr - l)); destruct (Z.ltb_spec p (b - t));
      cbn [andb]; split; try discriminate; try lia; intros Hn;
      try (exfalso; now apply Hn); now split.
  - intros r'. unfold deflate. destruct (deflate_asserts _ px); [ | discriminate ].
    intros [= <-]. unfold inflate. cbn [left top right bottom]. fold p.
    unfold Z.sub. rewrite !to_coord_add_l.
    replace (l + p + - p) with l by lia. replace (t + p + - p) with t by lia.
    replace (rr + - p + p) with rr by lia.
    replace (b + - p + p) with b by lia.
    now rewrite !to_coord_id by assumption.
  - intros c1 c2 c3 c4. unfold inflate. cbn [left top right bottom]. fold p.
    rewrite !to_coord_id by assumption. unfold is_coord in *.
    assert (Hw : width (mkRect (l - p) (t - p) (rr + p) (b + p)) =
                 rr - l + 2 * p).
    { unfold width, to_extent. cbn [left right].
      rewrite Z.mod_small by lia. lia. }
    assert (Hh : height (mkRect (l - p) (t - p) (rr + p) (b + p)) =
                 b - t + 2 * p).
    { unfold height, to_extent. cbn [top bottom].
      rewrite Z.mod_small by lia. lia. }
    assert (Hwf' : wf_rect (mkRect (l - p) (t - p) (rr + p) (b + p)))
      by (unfold wf_rect, is_coord; cbn [left top right bottom]; lia).
    assert (He : empty (mkRect l t rr b) = true <-> rr = l \/ b = t).
    { unfold empty, width, height, to_extent. cbn [left top right bottom].
      rewrite !Z.mod_small by lia. rewrite orb_true_iff, !Z.eqb_eq. lia. }
    split; [ exact Hwf' | ].
    split; [ apply withinRect_spec; cbn [left top right bottom]; lia | ].
    split; [ exact Hw | ]. split; [ exact Hh | ].
    unfold deflate. rewrite (deflate_asserts_wf _ px Hwf').
    cbn [left top right bottom]. fold p.
    split.
    + intros Hne.
      assert (Hlt : p < rr + p - (l - p) /\ p < b + p - (t - p)).
      { destruct Hne as [Hpos | Hne]; [ lia | ].
        destruct (empty (mkRect l t rr b)) eqn:Ee; [ discriminate | ].
        assert (~ (rr = l \/ b = t)) by (rewrite <- He; discriminate). lia. }
      rewrite (proj2 (Z.ltb_lt _ _) (proj1 Hlt)),
        (proj2 (Z.ltb_lt _ _) (proj2 Hlt)).
      cbn [andb]. f_equal.
      replace (l - p + p) with l by lia. replace (t - p + p) with t by lia.
      replace (rr + p - p) with rr by lia. replace (b + p - p) with b by lia.
      now rewrite !to_coord_id by (unfold is_coord; lia).
    + intros H0 Hem. apply He in Hem.
      destruct (Z.ltb_spec p (rr + p - (l - p)));
        destruct (Z.ltb_spec p (b + p - (t - p))); cbn [andb];
        try reflexivity; lia.
Qed.

Lemma inflate_deflate_round_trip_witness :
  inflate (mkRect 10 10 20 20) 3 = mkRect 7 7 23 23 /\
  deflate (inflate (mkRect 10 10 20 20) 3) 3 = Some (mkRect 10 10 20 20) /\
  deflate (mkRect 10 10 20 20) 15 = None.
Proof.
  assert (Hr : wf_rect (mkRect 10 10 20 20))
    by (unfold wf_rect, is_coord; cbn; lia).
  split; [ reflexivity | ]. split; [ | reflexivity ].
  destruct (inflate_deflate_round_trip _ 3 Hr) as (_ & _ & Hinf).
  destruct Hinf as (_ & _ & _ & _ & Hback & _);
    try (unfold is_coord; cbn; lia).
  apply Hback. left. cbn. lia.
Defined.

(** ** Message parameters *)

Lemma to_u16_range z : 0 <= to_u16 z < 65536.
Proof. unfold to_u16. apply Z.mod_pos_bound. lia. Qed.

Lemma words_packed (H L : Z) :
  0 <= H < 65536 -> 0 <= L < 65536 ->
  Z.lor (to_u32 (Z.shiftl H 16)) (Z.land L 65535) = H * 65536 + L.
Proof.
  intros HH HL.
  change 65535 with (Z.ones 16). rewrite Z.land_ones by lia.
  change (2 ^ 16) with 65536. rewrite (Z.mod_small L) by lia.
  rewrite Z.shiftl_mul_pow2 by lia. change (2 ^ 16) with 65536.
  unfold to_u32. rewrite Z.mod_small by lia.
  assert (Hd : Z.land (H * 65536) L = 0).
  { apply Z.bits_inj'. intros n Hn. rewrite Z.land_spec, Z.bits_0.
    destruct (Z_lt_ge_dec n 16) as [Hlt | Hge].
    - replace (H * 65536) with (H * 2 ^ 16) by reflexivity.
      rewrite Z.mul_pow2_bits_low by lia. reflexivity.
    - rewrite (Z.bits_above_log2 L n); [ apply andb_false_r | lia | ].
      destruct (Z.eq_dec L 0) as [-> | Hnz]; [ cbn; lia | ].
      apply Z.log2_lt_pow2; [ lia | ].
      apply Z.lt_le_trans with (2 ^ 16); [ cbn; lia | ].
      apply Z.pow_le_mono_r; lia. }
  rewrite <- (Z.lxor_lor _ _ Hd). symmetry.
  now apply Z.add_nocarry_lxor.
Qed.

Lemma hiword_packed (H L : Z) :
  0 <= H < 65536 -> 0 <= L < 65536 ->
  getMsgParamHiWord (H * 65536 + L) = H.
Proof.
  intros HH HL. unfold getMsgParamHiWord.
  rewrite Z.shiftr_div_pow2 by lia. change (2 ^ 16) with 65536.
  replace ((H * 65536 + L) / 65536) with H
    by (apply (Z.div_unique _ 65536 H L); lia).
  change 65535 with (Z.ones 16). rewrite Z.land_ones by lia.
  apply Z.mod_small. cbn. lia.
Qed.

Lemma loword_packed (H L : Z) :
  0 <= H < 65536 -> 0 <= L < 65536 ->
  getMsgParamLoWord (H * 65536 + L) = L.
Proof.
  intros HH HL. unfold getMsgParamLoWord.
  change 65535 with (Z.ones 16). rewrite Z.land_ones by lia.
  change (2 ^ 16) with 65536.
  rewrite Z.add_comm, Z_mod_plus_full. apply Z.mod_small. lia.
Qed.

(** X7. [makeMsgParam] packs two 16-bit words into a 32-bit parameter from
    which [getMsgParamHiWord] and [getMsgParamLoWord] read them back; every
    32-bit parameter is the packing of its two words; and a pair of
    coordinates, negative ones included, packed by [processInput] is decoded
    to the same pair by [onInput]. *)
Theorem msgParam_round_trip (hiWord loWord : Z) :
  getMsgParamHiWord (makeMsgParam hiWord loWord) = to_u16 hiWord /\
  getMsgParamLoWord (makeMsgParam hiWord loWord) = to_u16 loWord /\
  0 <= makeMsgParam hiWord loWord < 4294967296 /\
  (forall p, 0 <= p < 4294967296 ->
     makeMsgParam (getMsgParamHiWord p) (getMsgParamLoWord p) = p) /\
  (is_coord hiWord -> is_coord loWord ->
   to_coord (getMsgParamHiWord (makeMsgParam hiWord loWord)) = hiWord /\
   to_coord (getMsgParamLoWord (makeMsgParam hiWord loWord)) = loWord).
Proof.
  pose proof (to_u16_range hiWord) as HH.
  pose proof (to_u16_range loWord) as HL.
  assert (E : makeMsgParam hiWord loWord = to_u16 hiWord * 65536 + to_u16 loWord).
  { unfold makeMsgParam. now apply words_packed. }
  rewrite E, hiword_packed, loword_packed by assumption.
  split; [ reflexivity | ]. split; [ reflexivity | ]. split; [ lia | ].
  split.
  - intros p Hp.
    assert (Hh : getMsgParamHiWord p = p / 65536).
    { unfold getMsgParamHiWord. rewrite Z.shiftr_div_pow2 by lia.
      change (2 ^ 16) with 65536. change 65535 with (Z.ones 16).
      rewrite Z.land_ones by lia. apply Z.mod_small.
      split; [ apply Z.div_pos; lia | ].
      apply Z.div_lt_upper_bound; cbn; lia. }
    assert (Hl : getMsgParamLoWord p = p mod 65536).
    { unfold getMsgParamLoWord. change 65535 with (Z.ones 16).
      now rewrite Z.land_ones by lia. }
    rewrite Hh, Hl. unfold makeMsgParam.
    assert (R1 : 0 <= p / 65536 < 65536).
    { split; [ apply Z.div_pos; lia | apply Z.div_lt_upper_bound; lia ]. }
    assert (R2 : 0 <= p mod 65536 < 65536) by (apply Z.mod_pos_bound; lia).
    unfold to_u16. rewrite (Z.mod_small (p / 65536)) by lia.
    rewrite Z.mod_mod by lia.
    rewrite words_packed by assumption.
    pose proof (Z_div_mod_eq_full p 65536). lia.
  - intros Hx Hy. unfold to_u16.
    split; apply (to_coord_extent_id _ Hx) || apply (to_coord_extent_id _ Hy).
Qed.

Lemma msgParam_round_trip_witness :
  is_coord (-3) /\ is_coord 7 /\
  to_coord (getMsgParamHiWord (makeMsgParam (-3) 7)) = -3 /\
  to_coord (getMsgParamLoWord (makeMsgParam (-3) 7)) = 7.
Proof.
  assert (Hx : is_coord (-3)) by (unfold is_coord; lia).
  assert (Hy : is_coord 7) by (unfold is_coord; lia).
  split; [ exact Hx | ]. split; [ exact Hy | ].
  apply (proj2 (proj2 (proj2 (proj2 (msgParam_round_trip (-3) 7)))) Hx Hy).
Defined.

(** ** WindowContainer: lookup *)

Lemma getChildByID_found c id w :
  getChildByID c id = Some w -> getID w = id /\ In w c.
Proof.
  induction c as [ | x c IH ]; [ discriminate | ].
  cbn [getChildByID]. destruct (Z.eqb_spec id (getID x)) as [-> | Hne].
  - intros [= ->]. split; [ reflexivity | now left ].
  - intros Hf. destruct (IH Hf) as (Hi & Hin). split; [ exact Hi | now right ].
Qed.

Lemma getChildByID_of_member c w :
  NoDup (ids c) -> In w c -> getChildByID c (getID w) = Some w.
Proof.
  unfold ids. induction c as [ | x c IH ]; intros Hnd Hin; [ destruct Hin | ].
  cbn [map] in Hnd. inversion Hnd as [ | ? ? Hnot Hnd' ]; subst.
  cbn [getChildByID]. destruct Hin as [-> | Hin].
  - now rewrite Z.eqb_refl.
  - destruct (Z.eqb_spec (getID w) (getID x)) as [He | Hne].
    + exfalso. apply Hnot. rewrite <- He. now apply in_map.
    + now apply IH.
Qed.

(** X8. Whatever sequence of [addChild], [removeChildByID] and
    [setForegroundWindow] built it, a container never holds two windows with
    the same id and never more than 256 windows; [getChildByID] returns a
    window of the container that has the id asked for, and finds every
    window of the container by its id. *)
Theorem container_ids_unique (ops : list ContainerOp) :
  Forall op_valid ops ->
  let c := runOps ops in
  NoDup (ids c) /\ (childCount c <= 256)%nat /\
  (forall id w, getChildByID c id = Some w -> getID w = id /\ In w c) /\
  (forall w, In w c -> getChildByID c (getID w) = Some w).
Proof.
  intros Hv c.
  pose proof (inv_runOps ops Hv) as Hinv. fold c in Hinv.
  pose proof (inv_length c Hinv) as Hlen.
  destruct Hinv as (_ & Hnd & _).
  split; [ exact Hnd | ]. split; [ exact Hlen | ].
  split.
  - intros id w. apply getChildByID_found.
  - intros w. now apply getChildByID_of_member.
Qed.

Lemma container_ids_unique_witness :
  Forall op_valid sampleOps /\ NoDup (ids (runOps sampleOps)).
Proof.
  assert (Hv : Forall op_valid sampleOps).
  { repeat constructor; cbn; lia. }
  split; [ exact Hv | ].
  exact (proj1 (container_ids_unique sampleOps Hv)).
Defined.

Lemma getChildByID_app c d id :
  getChildByID (c ++ d) id =
  match getChildByID c id with
  | Some w => Some w
  | None => getChildByID d id
  end.
Proof.
  induction c as [ | x c IH ]; [ reflexivity | ].
  cbn [app getChildByID]. destruct (id =? getID x); [ reflexivity | exact IH ].
Qed.

(** X9. A child added by [addChild] is found by [getChildByID] under its id,
    with the z-order it was given; the lookup of every other id answers as
    before and the count grows by one.  When the id is taken, nothing
    changes. *)
Theorem addChild_then_getChildByID (c : list Window) (child : Window) :
  (getChildByID c (getID child) = None ->
   exists z,
     addChild c child = (c ++ [setZOrder child z], true) /\
     getChildByID (fst (addChild c child)) (getID child) =
       Some (setZOrder child z) /\
     childCount (fst (addChild c child)) = S (childCount c) /\
     forall id, id <> getID child ->
       getChildByID (fst (addChild c child)) id = getChildByID c id) /\
  (forall w, getChildByID c (getID child) = Some w ->
     addChild c child = (c, false)).
Proof.
  split.
  - intros Hnone. unfold addChild. rewrite Hnone.
    eexists. split; [ reflexivity | ]. cbn [fst].
    split; [ | split ].
    + rewrite getChildByID_app, Hnone. cbn [getChildByID].
      assert (E : getID (setZOrder child
                    match rev c with
                    | [] => 0
                    | last :: _ => to_u8 (getZOrder last + 1)
                    end) = getID child) by now destruct child.
      now rewrite E, Z.eqb_refl.
    + unfold childCount. rewrite length_app. cbn [length]. lia.
    + intros id Hne. rewrite getChildByID_app.
      destruct (getChildByID c id); [ reflexivity | ].
      cbn [getChildByID].
      assert (E : getID (setZOrder child
                    match rev c with
                    | [] => 0
                    | last :: _ => to_u8 (getZOrder last + 1)
                    end) = getID child) by now destruct child.
      rewrite E. destruct (Z.eqb_spec id (getID child)); [ contradiction | ].
      reflexivity.
  - intros w Hsome. unfold addChild. now rewrite Hsome.
Qed.

Lemma addChild_then_getChildByID_witness :
  getChildByID [sampleWindow 1 STY_TOPLEVEL] 2 = None /\
  getChildByID
    (fst (addChild [sampleWindow 1 STY_TOPLEVEL] (sampleWindow 2 STY_TOPLEVEL)))
    1 = Some (sampleWindow 1 STY_TOPLEVEL).
Proof.
  split; [ reflexivity | ].
  destruct (proj1 (addChild_then_getChildByID [sampleWindow 1 STY_TOPLEVEL]
                     (sampleWindow 2 STY_TOPLEVEL)) eq_refl)
    as (z & _ & _ & _ & Hother).
  rewrite (Hother 1); [ reflexivity | cbn; lia ].
Defined.

Lemma getChildByID_recalc k c id :
  option_map (fun w => setZOrder w 0)
    (getChildByID (recalculateZOrder_from k c) id) =
  option_map (fun w => setZOrder w 0) (getChildByID c id).
Proof.
  revert k. induction c as [ | x c IH ]; intros k; [ reflexivity | ].
  cbn [recalculateZOrder_from getChildByID].
  assert (E : getID (setZOrder x k) = getID x) by now destruct x.
  rewrite E. destruct (id =? getID x).
  - now destruct x.
  - apply IH.
Qed.

Lemma getChildByID_recalc_None k c id :
  getChildByID (recalculateZOrder_from k c) id = None <->
  getChildByID c id = None.
Proof.
  pose proof (getChildByID_recalc k c id) as E.
  destruct (getChildByID (recalculateZOrder_from k c) id),
    (getChildByID c id); cbn in E; split; intros; congruence.
Qed.

(** X10. [removeChildByID] with an id that is not in the container answers
    [false] and changes nothing.  With an id that is there it answers
    [true]; in a container without repeated ids the id is gone afterwards,
    the count is one less, and every other id is found as before, the same
    window up to its z-order. *)
Theorem removeChildByID_then_getChildByID (c : list Window) (id : Z) :
  (getChildByID c id = None -> removeChildByID c id = (c, false)) /\
  (forall w, getChildByID c id = Some w -> NoDup (ids c) ->
     exists c',
       removeChildByID c id = (c', true) /\
       getChildByID c' id = None /\
       S (childCount c') = childCount c /\
       forall id', id' <> id ->
         option_map (fun x => setZOrder x 0) (getChildByID c' id') =
         option_map (fun x => setZOrder x 0) (getChildByID c id')).
Proof.
  split.
  - intros Hnone. unfold removeChildByID.
    apply getChildByID_None in Hnone. apply eraseFirstByID_None in Hnone.
    now rewrite Hnone.
  - intros w Hsome Hnd. unfold removeChildByID.
    destruct (eraseFirstByID c id) as [ c1 | ] eqn:He.
    2:{ apply eraseFirstByID_None in He. apply getChildByID_None in He.
        congruence. }
    exists (recalculateZOrder c1). split; [ reflexivity | ].
    destruct (eraseFirstByID_Some c id c1 He) as (a & x & b & -> & -> & Hid & Hna).
    assert (Hnb : ~ In id (ids b)).
    { unfold ids in *. rewrite map_app in Hnd. cbn [map] in Hnd.
      apply NoDup_remove_2 in Hnd. rewrite Hid in Hnd.
      intros Hin. apply Hnd. apply in_or_app. now right. }
    split; [ | split ].
    + apply getChildByID_recalc_None. apply getChildByID_None.
      unfold ids in *. rewrite map_app. intros Hin.
      apply in_app_or in Hin as [Hin | Hin]; contradiction.
    + unfold childCount, recalculateZOrder.
      rewrite length_recalc, !length_app. cbn [length]. lia.
    + intros id' Hne. unfold recalculateZOrder.
      rewrite getChildByID_recalc. f_equal.
      rewrite !getChildByID_app. cbn [getChildByID].
      destruct (getChildByID a id'); [ reflexivity | ].
      destruct (Z.eqb_spec id' (getID x)); [ congruence | reflexivity ].
Qed.

Lemma removeChildByID_then_getChildByID_witness :
  NoDup (ids (runOps sampleOps)) /\
  exists c', removeChildByID (runOps sampleOps) 3 = (c', true) /\
             getChildByID c' 3 = None.
Proof.
  assert (Hnd : NoDup (ids (runOps sampleOps))).
  { repeat constructor; cbn; intuition lia. }
  split; [ exact Hnd | ].
  destruct (proj2 (removeChildByID_then_getChildByID (runOps sampleOps) 3)
              _ eq_refl Hnd) as (c' & Hr & Hn & _).
  exists c'. split; assumption.
Defined.

(** ** WindowManager: display and window coordinates *)

Lemma clientRect_small r :
  wf_rect r -> right r - left r <= 32767 -> bottom r - top r <= 32767 ->
  Rect_ctor 0 0 (width r) (height r) =
  mkRect 0 0 (right r - left r) (bottom r - top r).
Proof.
  intros (a1 & a2 & a3 & a4 & a5 & a6) Hw Hh. unfold is_coord in *.
  unfold width, height, to_extent.
  rewrite !Z.mod_small by lia.
  apply Rect_ctor_id; unfold is_coord; lia.
Qed.

(** X11. For a window whose rectangle is well formed and at most 32767
    wide and high, [displayToWindow] and [windowToDisplay] are inverse to
    each other: a display point within the window's rectangle converts to a
    point of the client rectangle [(0, 0, width, height)] that converts
    back to it, and the other way round; a display point that is not within
    the window's rectangle is refused. *)
Theorem displayToWindow_windowToDisplay (win : Window) (x y : Z) :
  wf_rect (getRect win) ->
  right (getRect win) - left (getRect win) <= 32767 ->
  bottom (getRect win) - top (getRect win) <= 32767 ->
  (pointWithin (getRect win) x y = true ->
   Manager.displayToWindow_pt win (x, y) =
     Some (x - left (getRect win), y - top (getRect win)) /\
   0 <= x - left (getRect win) <= right (getRect win) - left (getRect win) /\
   0 <= y - top (getRect win) <= bottom (getRect win) - top (getRect win) /\
   Coords.windowToDisplay_pt win
     (x - left (getRect win), y - top (getRect win)) = Some (x, y)) /\
  (pointWithin (getRect win) x y = false ->
   Manager.displayToWindow_pt win (x, y) = None) /\
  (forall p, Coords.windowToDisplay_pt win (x, y) = Some p ->
     Manager.displayToWindow_pt win p = Some (x, y)).
Proof.
  intros Hwf Hw Hh.
  pose proof (clientRect_small _ Hwf Hw Hh) as Hc.
  destruct Hwf as (a1 & a2 & a3 & a4 & a5 & a6). unfold is_coord in *.
  split; [ | split ].
  - intros Hin. pose proof Hin as Hin'. apply pointWithin_spec in Hin'.
    unfold Manager.displayToWindow_pt, Coords.windowToDisplay_pt.
    cbn [fst snd]. rewrite Hin, Hc.
    rewrite !to_coord_id by (unfold is_coord; lia).
    split; [ reflexivity | ]. split; [ lia | ]. split; [ lia | ].
    replace (pointWithin _ _ _) with true.
    + rewrite ?to_coord_id by (unfold is_coord; lia).
      f_equal. f_equal; lia.
    + symmetry. apply pointWithin_spec. cbn [left top right bottom]. lia.
  - intros Hout. unfold Manager.displayToWindow_pt. cbn [fst snd].
    now rewrite Hout.
  - intros p. unfold Coords.windowToDisplay_pt. cbn [fst snd]. rewrite Hc.
    destruct (pointWithin _ x y) eqn:Hin; [ | discriminate ].
    apply pointWithin_spec in Hin. cbn [left top right bottom] in Hin.
    intros [= <-]. unfold Manager.displayToWindow_pt. cbn [fst snd].
    rewrite !to_coord_id by (unfold is_coord; lia).
    replace (pointWithin _ _ _) with true.
    + rewrite ?to_coord_id by (unfold is_coord; lia).
      f_equal. f_equal; lia.
    + symmetry. apply pointWithin_spec. lia.
Qed.

Lemma displayToWindow_windowToDisplay_witness :
  Manager.displayToWindow_pt sampleChild (10, 12) = Some (5, 7) /\
  Coords.windowToDisplay_pt sampleChild (5, 7) = Some (10, 12).
Proof.
  assert (Hwf : wf_rect (getRect sampleChild))
    by (unfold wf_rect, is_coord; cbn; lia).
  destruct (proj1 (displayToWindow_windowToDisplay sampleChild 10 12 Hwf
                     ltac:(cbn; lia) ltac:(cbn; lia)) eq_refl)
    as (Hd & _ & _ & Hw).
  split; [ exact Hd | exact Hw ].
Defined.

(** ** WindowManager: covering test and render *)

Lemma coveredWalk_spec disp rect l :
  coveredWalk disp rect l = true <->
  exists V, In V l /\ isDrawable disp [] V = true /\
            withinRect rect (getRect V) = true.
Proof.
  induction l as [ | other rest IH ]; cbn [coveredWalk].
  - split; [ discriminate | intros (V & [] & _) ].
  - destruct (isDrawable disp [] other) eqn:Hd; cbn [negb].
    + destruct (withinRect rect (getRect other)) eqn:Hw.
      * split; [ | reflexivity ]. intros _. exists other.
        split; [ now left | now split ].
      * rewrite IH. split; intros (V & Hin & HdV & HwV).
        -- exists V. split; [ now right | now split ].
        -- destruct Hin as [-> | Hin]; [ congruence | ].
           exists V. now repeat split.
    + rewrite IH. split; intros (V & Hin & HdV & HwV).
      * exists V. split; [ now right | now split ].
      * destruct Hin as [-> | Hin]; [ congruence | ].
        exists V. now repeat split.
Qed.

Lemma In_skipn_nth {A : Type} (l : list A) (i : nat) (v : A) :
  In v (skipn (S i) l) <-> exists j, (i < j)%nat /\ nth_error l j = Some v.
Proof.
  split.
  - intros Hin. apply In_nth_error in Hin as (k & Hk).
    exists (S i + k)%nat. split; [ lia | ].
    now rewrite <- nth_error_skipn.
  - intros (j & Hij & Hj).
    replace j with (S i + (j - S i))%nat in Hj by lia.
    rewrite <- nth_error_skipn in Hj. eapply nth_error_In; eassumption.
Qed.



(** The operations of the blit loop: for each rectangle, in turn, the
    transfer and the [drawRect] call. *)
Lemma blitAll_ops win slot l :
  forall ops, Manager.blitAll win slot l = Some ops ->
  forall op, In op ops ->
    exists dr, In dr l /\
      ((exists cr, op = Blit slot (getID win) dr cr /\
                   Manager.displayToWindow win dr = Some cr) \/
       op = DrawRect slot (left dr - 1) (top dr - 1)
              (width dr + 1) (height dr + 1) 63519).
Proof.
  induction l as [ | r l IH ]; intros ops; cbn [Manager.blitAll].
  - intros [= <-] op [].
  - destruct (Manager.displayToWindow win r) as [ c | ] eqn:Ec;
      [ | discriminate ].
    destruct (Manager.blitAll win slot l) as [ ops' | ]; [ | discriminate ].
    intros [= <-] op [<- | [<- | Hin]].
    + exists r. split; [ now left | ]. left. now exists c.
    + exists r. split; [ now left | ]. now right.
    + destruct (IH ops' eq_refl op Hin) as (dr & Hl & Hop).
      exists dr. split; [ now right | exact Hop ].
Qed.

Lemma displayToWindow_within win dr cr :
  Manager.displayToWindow win dr = Some cr -> withinRect dr (getRect win) = true.
Proof.
  unfold Manager.displayToWindow, Manager.displayToWindow_pt. cbn [fst snd].
  destruct (pointWithin (getRect win) (left dr) (top dr)) eqn:H1;
    [ | discriminate ].
  destruct (pointWithin (getRect win) (right dr) (bottom dr)) eqn:H2;
    [ | discriminate ].
  intros _. apply pointWithin_spec in H1, H2. apply withinRect_spec. lia.
Qed.

Lemma pixelIn_inside a b x y : insideRect a b -> pixelIn a x y -> pixelIn b x y.
Proof. unfold insideRect, pixelIn. lia. Qed.

Lemma renderWindow_skips disp r k W :
  nth_error r k = Some W ->
  isDrawable disp [] W = false \/ empty (getDirtyRect W) = true ->
  Manager.renderWindow disp r k = Some (r, [], false).
Proof.
  intros Hk Hs. unfold Manager.renderWindow. rewrite Hk.
  destruct (isDrawable disp [] W); cbn [negb]; [ | reflexivity ].
  destruct Hs as [Hs | ->]; [ discriminate | reflexivity ].
Qed.

Lemma subtractRect_piece_pixels A B dr x y :
  wf_rect A -> wf_rect B -> In dr (subtractRect A B) -> pixelIn dr x y ->
  pixelIn A x y /\ ~ pixelIn B x y.
Proof.
  intros HA HB Hdr Hp.
  destruct (intersectsRect A B) eqn:Hi.
  2:{ rewrite (subtractRect_no_intersection _ _ Hi) in Hdr. destruct Hdr. }
  pose proof (subtractRect_cover_b A B x y HA HB Hi) as Hb.
  assert (He : existsb (fun r0 => pixelInb r0 x y) (subtractRect A B) = true).
  { apply existsb_exists. exists dr. split; [ exact Hdr | ].
    now apply pixelInb_spec. }
  rewrite He in Hb. symmetry in Hb.
  apply andb_true_iff in Hb as [Hb1 Hb2]. apply negb_true_iff in Hb2.
  split; [ now apply pixelInb_spec | ].
  intros Hq. apply pixelInb_spec in Hq. congruence.
Qed.

(** Every rectangle the blit loop of the window at [k] takes is one it may
    take. *)
Lemma blit_pieces_allowed disp r k W :
  Forall (fun w => wf_rect (getRect w)) r ->
  nth_error r k = Some W -> isDrawable disp [] W = true ->
  dirtyRectFits W -> empty (getDirtyRect W) = false ->
  forall dr,
    In dr (if negb (empty (Manager.obscuringRectOf disp r k))
           then subtractRect (getDirtyRect W) (Manager.obscuringRectOf disp r k)
           else [getDirtyRect W]) ->
    blitRectAllowed disp r k W dr.
Proof.
  intros Hall Hk HdW HfW Ee dr Hdr.
  pose proof (blit_pieces_fit disp r k W Hall HfW Ee) as Hfitp.
  rewrite Forall_forall in Hfitp. specialize (Hfitp dr Hdr).
  destruct HfW as (Hwfd & _).
  pose proof (obscuringRectOf_wf disp r k Hall) as Hwfo.
  set (obsc := Manager.obscuringRectOf disp r k) in *.
  assert (Habove : forall j V, (k < j)%nat -> nth_error r j = Some V ->
            isDrawable disp [] V = true ->
            insideRect (getRect V) obsc /\ empty obsc = false).
  { intros j V Hkj Hj HdV.
    destruct (obscuringRectOf_covers disp r k j V Hall Hj Hkj HdV)
      as (_ & Hins). fold obsc in Hins. split; [ exact Hins | ].
    assert (HwfV : wf_rect (getRect V)).
    { rewrite Forall_forall in Hall. apply Hall.
      eapply nth_error_In; eassumption. }
    assert (HneV : empty (getRect V) = false).
    { rewrite isDrawable_unfold in HdV. unfold isVisible in HdV.
      destruct (empty (getRect V)); [ | reflexivity ].
      now rewrite andb_false_r in HdV. }
    apply (nonempty_wf _ Hwfo). apply (nonempty_wf _ HwfV) in HneV.
    unfold insideRect in Hins. lia. }
  unfold blitRectAllowed.
  split; [ exact Hk | ]. split; [ exact HdW | ]. split; [ exact Hfitp | ].
  destruct (empty obsc) eqn:Eo; cbn [negb] in Hdr.
  - destruct Hdr as [<- | []]. split; [ tauto | ].
    intros j V Hkj Hj HdV x y _ _.
    destruct (Habove j V Hkj Hj HdV) as (_ & Hne). congruence.
  - split.
    + intros x y Hp.
      now destruct (subtractRect_piece_pixels _ _ dr x y Hwfd Hwfo Hdr Hp).
    + intros j V Hkj Hj HdV x y Hp Hq.
      destruct (Habove j V Hkj Hj HdV) as (Hins & _).
      destruct (subtractRect_piece_pixels _ _ dr x y Hwfd Hwfo Hdr Hp)
        as (_ & Hn).
      apply Hn. eapply pixelIn_inside; eassumption.
Qed.

Lemma renderWindow_blits disp r k r2 ops u :
  Forall (fun w => wf_rect (getRect w)) r ->
  (forall W, nth_error r k = Some W -> isDrawable disp [] W = true ->
     dirtyRectFits W) ->
  Manager.renderWindow disp r k = Some (r2, ops, u) ->
  forall op, In op ops -> blitAllowed disp r op.
Proof.
  intros Hall Hfit. unfold Manager.renderWindow.
  destruct (nth_error r k) as [ W | ] eqn:Hk; [ | intros [= _ <- _] op [] ].
  destruct (isDrawable disp [] W) eqn:HdW; cbn [negb];
    [ | intros [= _ <- _] op [] ].
  destruct (empty (getDirtyRect W)) eqn:Ee; [ intros [= _ <- _] op [] | ].
  pose proof (blit_pieces_allowed disp r k W Hall Hk HdW (Hfit W eq_refl HdW) Ee)
    as Hp.
  destruct (if negb (empty (Manager.obscuringRectOf disp r k))
            then subtractRect (getDirtyRect W) (Manager.obscuringRectOf disp r k)
            else [getDirtyRect W]) as [ | d ds ];
    [ intros [= _ <- _] op [] | ].
  destruct (Manager.blitAll W k (d :: ds)) as [ o | ] eqn:Eb; [ | discriminate ].
  intros [= _ <- _] op Hin.
  destruct (blitAll_ops W k (d :: ds) o Eb op Hin)
    as (dr & Hdr & [(cr & -> & Hc) | ->]); cbn [blitAllowed].
  - exists W. split; [ now apply Hp | ]. now split.
  - exists W, dr. split; [ now apply Hp | ]. now repeat split.
Qed.


Example render_partlyCoveredWM :
  option_map snd (Manager.render Window_hooks 4 4 partlyCoveredWM 1000) =
  Some [Blit 0 1 (mkRect 0 0 50 100) (mkRect 0 0 50 100);
        DrawRect 0 (-1) (-1) 51 101 63519;
        Blit 0 1 (mkRect 0 0 100 50) (mkRect 0 0 100 50);
        DrawRect 0 (-1) (-1) 101 51 63519; Flush].
Proof. vm_compute. reflexivity. Qed.


(** ** WindowManager: the screensaver *)

Lemma bitsHigh_pow2 s n : 0 <= n -> bitsHigh s (2 ^ n) = Z.testbit s n.
Proof.
  intros Hn. unfold bitsHigh. destruct (Z.testbit s n) eqn:E.
  - apply Z.eqb_eq. apply Z.bits_inj'. intros m Hm.
    rewrite Z.land_spec, Z.pow2_bits_eqb by lia.
    destruct (Z.eqb_spec n m) as [<- | Hne];
      [ now rewrite E | apply andb_false_r ].
  - apply Z.eqb_neq. intros Heq.
    apply (f_equal (fun z => Z.testbit z n)) in Heq.
    rewrite Z.land_spec, Z.pow2_bits_true, E in Heq by lia. discriminate.
Qed.

Lemma testbit_u16 s n : 0 <= n < 16 -> Z.testbit (to_u16 s) n = Z.testbit s n.
Proof.
  intros Hn. unfold to_u16. change 65536 with (2 ^ 16).
  apply Z.mod_pow2_bits_low. lia.
Qed.

Lemma ssaver_bits s :
  bitsHigh s WMS_SSAVER_ENABLED = Z.testbit s 0 /\
  bitsHigh s WMS_SSAVER_ACTIVE = Z.testbit s 1 /\
  bitsHigh s WMS_SSAVER_DRAWN = Z.testbit s 2.
Proof.
  repeat split; [ apply (bitsHigh_pow2 s 0) | apply (bitsHigh_pow2 s 1)
                | apply (bitsHigh_pow2 s 2) ]; lia.
Qed.

Ltac ssaver_bits_simp :=
  repeat match goal with
  | |- context [bitsHigh ?s WMS_SSAVER_ENABLED] =>
      rewrite (proj1 (ssaver_bits s))
  | |- context [bitsHigh ?s WMS_SSAVER_ACTIVE] =>
      rewrite (proj1 (proj2 (ssaver_bits s)))
  | |- context [bitsHigh ?s WMS_SSAVER_DRAWN] =>
      rewrite (proj2 (proj2 (ssaver_bits s)))
  end;
  rewrite ?testbit_u16 by lia;
  rewrite ?Z.lor_spec, ?Z.land_spec, ?Z.lnot_spec by lia;
  rewrite ?testbit_u16 by lia;
  rewrite ?Z.lor_spec, ?Z.land_spec, ?Z.lnot_spec by lia;
  rewrite ?testbit_u16 by lia;
  rewrite ?Z.lor_spec, ?Z.land_spec, ?Z.lnot_spec by lia;
  change (Z.testbit WMS_SSAVER_ENABLED 0) with true;
  change (Z.testbit WMS_SSAVER_ENABLED 1) with false;
  change (Z.testbit WMS_SSAVER_ENABLED 2) with false;
  change (Z.testbit WMS_SSAVER_ACTIVE 0) with false;
  change (Z.testbit WMS_SSAVER_ACTIVE 1) with true;
  change (Z.testbit WMS_SSAVER_ACTIVE 2) with false;
  change (Z.testbit WMS_SSAVER_DRAWN 0) with false;
  change (Z.testbit WMS_SSAVER_DRAWN 1) with false;
  change (Z.testbit WMS_SSAVER_DRAWN 2) with true;
  rewrite ?orb_true_r, ?orb_false_r, ?andb_true_r, ?andb_false_r;
  cbn [negb orb andb].



Lemma idle_erased fuel r reg :
  map eraseDirty r = map eraseDirty reg ->
  Forall (fun w => queuesEmpty w = true /\ (depth w <= fuel)%nat /\
                   wf_rect (getRect w)) reg ->
  Forall (fun w => queuesEmpty w = true /\ (depth w <= fuel)%nat /\
                   wf_rect (getRect w)) r.
Proof.
  intros He Hall. apply Forall_forall. intros a Ha.
  apply In_nth_error in Ha as (n & Hn).
  assert (Hm : nth_error (map eraseDirty reg) n = Some (eraseDirty a)).
  { rewrite <- He, nth_error_map, Hn. reflexivity. }
  rewrite nth_error_map in Hm.
  destruct (nth_error reg n) as [ a0 | ] eqn:Ea0; [ | discriminate ].
  injection Hm as Hm.
  destruct (erased_same_view Rect0 a a0 Hm) as (Hr & _ & Hq & Hd).
  rewrite Forall_forall in Hall.
  destruct (Hall a0 (nth_error_In _ _ Ea0)) as (Hq0 & Hd0 & Hw0).
  split; [ congruence | ]. split; [ lia | congruence ].
Qed.

Lemma renderWindows_total H disp rounds fuel reg :
  Forall (fun w => queuesEmpty w = true /\ (depth w <= fuel)%nat /\
                   wf_rect (getRect w)) reg ->
  Forall (fun w => isDrawable disp [] w = true -> dirtyRectFits w) reg ->
  exists reg' ops updated,
    Manager.renderWindows H (S rounds) fuel disp reg = Some (reg', ops, updated) /\
    map eraseDirty reg' = map eraseDirty reg /\
    (forall op, In op ops -> blitSlot op <> None).
Proof.
  intros Hidle Hfit.
  destruct (renderWindows_visits H disp rounds fuel reg Hidle Hfit)
    as (reg' & ops & upd & Hrun & He & _ & Hops).
  exists reg', ops, upd. split; [ exact Hrun | ]. split; [ exact He | ].
  intros op Hin. destruct (Hops op Hin) as (k & r2 & ops_k & u_k & Hk & Hink).
  destruct (renderWindow_frame disp reg k _ Hk) as (_ & _ & Hslots).
  cbn [fst snd] in Hslots. rewrite (Hslots op Hink). discriminate.
Qed.

(** *** Dirty rectangles after [setDirtyRect] *)

Lemma markRectDirty_empty_clears w rect :
  empty rect = true -> getDirtyRect (markRectDirty w rect) = Rect0.
Proof. intros He. destruct w. cbn [markRectDirty]. now rewrite He. Qed.

Lemma getRect_markRectDirty w rect : getRect (markRectDirty w rect) = getRect w.
Proof.
  destruct (eraseDirty_fields (markRectDirty w rect)) as (_ & _ & _ & <- & _).
  destruct (eraseDirty_fields w) as (_ & _ & _ & <- & _).
  now rewrite eraseDirty_markRectDirty.
Qed.

Lemma isDrawable_markRectDirty disp w rect :
  isDrawable disp [] (markRectDirty w rect) = isDrawable disp [] w.
Proof.
  pose proof (isDrawable_erase disp [] (markRectDirty w rect)) as H1.
  pose proof (isDrawable_erase disp [] w) as H2. cbn [map] in H1, H2.
  now rewrite <- H1, eraseDirty_markRectDirty, H2.
Qed.

(** A dirty rectangle that is cleared, or well formed and within the
    rectangle of the window, fits again after [markRectDirty] with a
    rectangle of the window that has no negative coordinate. *)
Lemma markRectDirty_keeps_fit w I :
  getDirtyRect w = Rect0 \/
  (wf_rect (getDirtyRect w) /\ withinRect (getDirtyRect w) (getRect w) = true) ->
  wf_rect I -> withinRect I (getRect w) = true ->
  0 <= left I -> 0 <= top I ->
  dirtyRectFits (markRectDirty w I).
Proof.
  intros Hd HwfI HinI Hl Ht. unfold dirtyRectFits.
  rewrite getRect_markRectDirty.
  destruct (empty I) eqn:Ee.
  { rewrite (markRectDirty_empty_clears w I Ee).
    split; [ apply wf_rect_Rect0 | now left ]. }
  rewrite (markRectDirty_nonempty w I Ee).
  apply (nonempty_wf _ HwfI) in Ee.
  apply withinRect_spec in HinI.
  destruct HwfI as (i1 & i2 & i3 & i4 & i5 & i6). unfold is_coord in *.
  destruct w as [wi wp ws wst [Rl Rt Rr Rb] [Dl Dt Dr Db] wz wq wc].
  destruct I as [Il It Ir Ib].
  cbn [getDirtyRect getRect with_dirtyRect left top right bottom] in *.
  rewrite !Z.geb_leb, !Z.gtb_ltb.
  rewrite (proj2 (Z.leb_le Rl Il)), (proj2 (Z.leb_le Rt It)),
    (proj2 (Z.leb_le Ir Rr)), (proj2 (Z.leb_le Ib Rb)) by lia.
  cbn [andb].
  destruct Hd as [Hd | (Hwfd & Hind)].
  - injection Hd as -> -> -> ->.
    rewrite !orb_true_r.
    rewrite (proj2 (Z.ltb_lt 0 Ir)), (proj2 (Z.ltb_lt 0 Ib)) by lia.
    split; [ unfold wf_rect, is_coord; cbn [left top right bottom]; lia | ].
    right. apply withinRect_spec. cbn [left top right bottom]. lia.
  - apply withinRect_spec in Hind.
    destruct Hwfd as (d1 & d2 & d3 & d4 & d5 & d6). unfold is_coord in *.
    cbn [left top right bottom] in *.
    destruct ((Il <? Dl) || (Dl =? 0)), ((It <? Dt) || (Dt =? 0));
      destruct (Z.ltb_spec Dr Ir), (Z.ltb_spec Db Ib);
      (split; [ unfold wf_rect, is_coord; cbn [left top right bottom]; lia | ]);
      right; apply withinRect_spec; cbn [left top right bottom]; lia.
Qed.

Lemma setDirtyRect_fits disp reg :
  wf_rect disp -> left disp = 0 -> top disp = 0 ->
  Forall (fun w => wf_rect (getRect w)) reg ->
  Forall (fun w => isDrawable disp [] w = true ->
            getDirtyRect w = Rect0 \/
            (wf_rect (getDirtyRect w) /\
             withinRect (getDirtyRect w) (getRect w) = true)) reg ->
  Forall (fun w => isDrawable disp [] w = true -> dirtyRectFits w)
    (Store.setDirtyRect disp reg disp).
Proof.
  intros Hwfd Hl0 Ht0 Hwf Hfit. unfold Store.setDirtyRect.
  apply Forall_forall. intros w' Hin.
  apply in_map_iff in Hin as (w & <- & Hw).
  rewrite Forall_forall in Hwf, Hfit.
  specialize (Hwf w Hw). specialize (Hfit w Hw).
  destruct (isDrawable disp [] w) eqn:Hd; cbn [negb];
    [ | intros Hd'; congruence ].
  specialize (Hfit eq_refl).
  destruct (intersectsRect (getRect w) disp) eqn:Hi.
  2:{ intros _. destruct Hfit as [H0 | (Hwd & Hin)].
      - unfold dirtyRectFits. rewrite H0.
        split; [ apply wf_rect_Rect0 | now left ].
      - split; [ exact Hwd | now right ]. }
  intros _.
  destruct Hwf as (a1 & a2 & a3 & a4 & a5 & a6).
  destruct Hwfd as (b1 & b2 & b3 & b4 & b5 & b6).
  pose proof (proj1 (intersectsRect_spec _ _ a5 a6 b5 b6) Hi) as Hs.
  unfold getIntersection. rewrite Hi. unfold is_coord in *.
  assert (E : Rect_ctor (Z.max (left (getRect w)) (left disp))
                (Z.max (top (getRect w)) (top disp))
                (Z.min (right (getRect w)) (right disp))
                (Z.min (bottom (getRect w)) (bottom disp)) =
              mkRect (Z.max (left (getRect w)) (left disp))
                (Z.max (top (getRect w)) (top disp))
                (Z.min (right (getRect w)) (right disp))
                (Z.min (bottom (getRect w)) (bottom disp))).
  { unfold Rect_ctor. now norm_coords. }
  rewrite E.
  apply markRectDirty_keeps_fit; try assumption;
    try (apply withinRect_spec); unfold wf_rect, is_coord;
    cbn [left top right bottom]; lia.
Qed.





(** ** Hit testing: who receives the tap *)

Lemma forEachChildReverse_topmost (cb : Window -> Window * bool)
    (hit : Window -> bool) (R : Window -> Window -> Prop) l :
  Forall (fun c => (hit c = false /\ cb c = (c, false)) \/
                   (hit c = true /\ exists c', cb c = (c', true) /\ R c c')) l ->
  (forEachChildReverse cb l = (l, false) /\
   Forall (fun c => hit c = false) l) \/
  exists a c c' b,
    l = a ++ c :: b /\ forEachChildReverse cb l = (a ++ c' :: b, true) /\
    Forall (fun c => hit c = false) b /\ hit c = true /\ R c c'.
Proof.
  induction l as [ | child rest IHl ]; intros Hall.
  - left. split; [ reflexivity | constructor ].
  - inversion Hall as [ | ? ? Hchild Hrest ]; subst.
    cbn [forEachChildReverse]. fold (forEachChildReverse cb).
    destruct (IHl Hrest)
      as [(-> & Hnone) | (a & e & e' & b & -> & -> & Hb & He & HR)].
    + destruct Hchild as [(Hh & ->) | (Hh & child' & -> & HR)].
      * left. split; [ reflexivity | now constructor ].
      * right. exists [], child, child', rest. now repeat split.
    + right. exists (child :: a), e, e', b. now repeat split.
Qed.

Lemma processInput_under_point disp x y w :
  forall anc,
    (underPoint disp anc x y w = false /\
     processInput disp anc (mkInput INPUT_TAP x y) w = (w, false)) \/
    (underPoint disp anc x y w = true /\
     exists w', processInput disp anc (mkInput INPUT_TAP x y) w = (w', true) /\
                deliveredUnder disp x y (tapMessage x y) anc w w').
Proof.
  induction w as [i p s st r d z q c IHc] using Window_tree_ind. intros anc.
  unfold underPoint. cbn [processInput].
  set (w := mkWindow i p s st r d z q c) in *.
  cbn [ip_x ip_y].
  destruct (isDrawable disp anc w) eqn:Hd; cbn [negb andb]; [ | now left ].
  destruct (pointWithin (getRect w) x y) eqn:Hp; cbn [negb]; [ | now left ].
  right. split; [ reflexivity | ].
  assert (Hu : underPoint disp anc x y w = true)
    by (unfold underPoint; now rewrite Hd, Hp).
  assert (Hall : Forall (fun c0 =>
            (underPoint disp (w :: anc) x y c0 = false /\
             processInput disp (w :: anc) (mkInput INPUT_TAP x y) c0 = (c0, false)) \/
            (underPoint disp (w :: anc) x y c0 = true /\
             exists c', processInput disp (w :: anc) (mkInput INPUT_TAP x y) c0
                        = (c', true) /\
                        deliveredUnder disp x y (tapMessage x y) (w :: anc) c0 c'))
            (_children w)).
  { cbn [_children w]. eapply Forall_impl; [ | exact IHc ].
    intros a Ha. apply Ha. }
  destruct (forEachChildReverse_topmost _ _ _ _ Hall)
    as [(-> & Hnone) | (a & e & e' & b & Hl & -> & Hb & He & HR)].
  - cbn [negb]. rewrite with_children_same.
    unfold queueMessage. cbn [ip_type].
    rewrite tap_loword. cbn [Message_eqb andb Z.eqb INPUT_TAP Pos.eqb].
    eexists. split; [ reflexivity | ]. now apply deliveredUnder_here.
  - cbn [negb]. eexists. split; [ reflexivity | ].
    now apply deliveredUnder_below with (c := e).
Qed.



(** ** What drawing leaves alone *)

Section EraseWithFacts.

Variable m : Z -> Z.

Local Abbreviation Em := (map (eraseWith m)).

Lemma eraseWith_children w :
  _children (eraseWith m w) = map (eraseWith m) (_children w).
Proof. now destruct w. Qed.

Lemma getAt_eraseWith reg path :
  getAt (Em reg) path = option_map (eraseWith m) (getAt reg path).
Proof.
  revert reg. induction path as [ | i rest IH ]; intros reg; [ reflexivity | ].
  cbn [getAt]. rewrite nth_error_map.
  destruct (nth_error reg i) as [ w | ]; cbn [option_map]; [ | reflexivity ].
  destruct rest as [ | j rest ]; [ reflexivity | ].
  rewrite eraseWith_children. apply IH.
Qed.

Lemma eraseWith_updAt reg p f f' :
  (forall w, eraseWith m (f w) = f' (eraseWith m w)) ->
  Em (updAt reg p f) = updAt (Em reg) p f'.
Proof.
  intros Hc. revert reg. induction p as [ | i rest IH ]; intros reg;
    [ reflexivity | ].
  cbn [updAt]. destruct rest as [ | j rest ].
  - now apply update_nth_map.
  - apply update_nth_map.
    intros [wi wp ws wst wr wd wz wq wc]. unfold with_children.
    cbn [eraseWith getID getParent getStyle getState getRect getDirtyRect
         getZOrder _queue _children].
    now rewrite IH.
Qed.

Lemma eraseWith_updAt_same reg p f :
  (forall w, eraseWith m (f w) = eraseWith m w) -> Em (updAt reg p f) = Em reg.
Proof.
  intros Hc. rewrite (eraseWith_updAt reg p f (fun x => x) Hc).
  now apply updAt_id.
Qed.

Lemma depth_eraseWith w : depth (eraseWith m w) = depth w.
Proof.
  induction w as [i p s st r d z q c IHc] using Window_tree_ind.
  rewrite !depth_unfold. cbn [eraseWith _children]. f_equal.
  unfold maxDepth. induction c as [ | a c IH ]; [ reflexivity | ].
  inversion IHc; subst. cbn [map fold_right]. rewrite IH by assumption.
  now f_equal.
Qed.

Lemma eraseWith_markRectDirty w rect :
  eraseWith m (markRectDirty w rect) = eraseWith m w.
Proof.
  revert rect. induction w as [i p s st r d z q c IHc] using Window_tree_ind.
  intros rect. cbn [markRectDirty].
  destruct (negb (empty rect)).
  - reflexivity.
  - cbn [eraseWith getID getParent getStyle getState getRect getZOrder
         _queue _children]. f_equal. rewrite map_map.
    apply map_ext_in. intros a Ha. rewrite Forall_forall in IHc.
    now apply IHc.
Qed.

(** Windows that look the same through the erasure have the same depth, and
    so do the windows found at the same path. *)
Lemma erased_depth_at r reg p c :
  Em r = Em reg -> getAt r p = Some c ->
  exists c0, getAt reg p = Some c0 /\ depth c0 = depth c.
Proof.
  intros He Hc.
  assert (Hg : getAt (Em reg) p = Some (eraseWith m c)).
  { rewrite <- He, getAt_eraseWith, Hc. reflexivity. }
  rewrite getAt_eraseWith in Hg.
  destruct (getAt reg p) as [ c0 | ]; [ | discriminate ].
  injection Hg as Hg. exists c0. split; [ reflexivity | ].
  now rewrite <- (depth_eraseWith c0), Hg, depth_eraseWith.
Qed.

Hypothesis Hdirty :
  forall s, m (to_u16 (Z.lor s STA_DIRTY)) = m s /\
            m (to_u16 (Z.land s (Z.lnot STA_DIRTY))) = m s.

Lemma eraseWith_setDirtyBit w :
  eraseWith m (setState w (Z.lor (getState w) STA_DIRTY)) = eraseWith m w.
Proof.
  destruct w as [wi wp ws wst wr wd wz wq wc].
  cbn [setState eraseWith getID getParent getStyle getState getRect
       getDirtyRect getZOrder _queue _children].
  now rewrite (proj1 (Hdirty wst)).
Qed.

Lemma eraseWith_clearDirtyBit w :
  eraseWith m (setState w (Z.land (getState w) (Z.lnot STA_DIRTY))) =
  eraseWith m w.
Proof.
  destruct w as [wi wp ws wst wr wd wz wq wc].
  cbn [setState eraseWith getID getParent getStyle getState getRect
       getDirtyRect getZOrder _queue _children].
  now rewrite (proj2 (Hdirty wst)).
Qed.

Lemma eraseWith_dirtyChildren w :
  eraseWith m
    (with_children w
       (map (fun child => setState child (Z.lor (getState child) STA_DIRTY))
          (_children w))) = eraseWith m w.
Proof.
  destruct w as [wi wp ws wst wr wd wz wq wc].
  cbn [with_children eraseWith getID getParent getStyle getState getRect
       getDirtyRect getZOrder _queue _children].
  f_equal. rewrite map_map. apply map_ext. intros a.
  apply eraseWith_setDirtyBit.
Qed.

Variable disp : Rect.

Lemma postDraw_frame reg p a b :
  Em (fst (Window_onPostDraw reg p a b)) = Em reg.
Proof.
  unfold Window_onPostDraw. destruct (getAt reg p) as [ w | ]; [ | reflexivity ].
  assert (E1 : Em (updAt reg p (fun w' => markRectDirty w' (getRect w))) = Em reg).
  { apply eraseWith_updAt_same. intros x. apply eraseWith_markRectDirty. }
  destruct (getParent w); cbn [fst]; [ | exact E1 ].
  rewrite eraseWith_updAt_same; [ exact E1 | ].
  intros x. apply eraseWith_markRectDirty.
Qed.

Lemma routeDraw_frame reg p p1 p2 :
  Em (fst (Store.routeDraw disp Window_hooks reg p p1 p2)) = Em reg.
Proof.
  unfold Store.routeDraw.
  destruct (negb (Store.isDrawableAt disp reg p)); [ reflexivity | ].
  destruct (negb (Store.isDirtyAt reg p) && (p1 =? 0)); [ reflexivity | ].
  cbn [onDraw Window_hooks].
  pose proof (postDraw_frame reg p 0 0) as Hp.
  destruct (Window_onPostDraw reg p 0 0) as [reg1 handled]. cbn [fst] in *.
  rewrite eraseWith_updAt_same; [ exact Hp | ].
  intros x. apply eraseWith_clearDirtyBit.
Qed.

Lemma redraw_frame fuel :
  forall reg p force,
    (forall w, getAt reg p = Some w -> (depth w <= fuel)%nat) ->
    exists reg' b,
      Store.redraw disp Window_hooks fuel reg p force = Some (reg', b) /\
      Em reg' = Em reg.
Proof.
  induction fuel as [ | f IHf ]; intros reg p force Hd.
  - cbn [Store.redraw]. unfold Store.isDrawableAt.
    destruct (getAt reg p) as [ w | ] eqn:Hg.
    + specialize (Hd w eq_refl). rewrite depth_unfold in Hd. lia.
    + cbn [negb]. now exists reg, false.
  - cbn [Store.redraw].
    destruct (negb (Store.isDrawableAt disp reg p)) eqn:Hdr;
      [ now exists reg, false | ].
    assert (Hw : exists w, getAt reg p = Some w).
    { unfold Store.isDrawableAt in Hdr.
      destruct (getAt reg p) as [ w | ]; [ now exists w | discriminate ]. }
    destruct Hw as (w & Hg). specialize (Hd w Hg).
    set (first := if Store.isDirtyAt reg p || force
                  then Store.routeDraw disp Window_hooks reg p
                         (if force then 1 else 0) 0
                  else (reg, false)).
    assert (E1 : Em (fst first) = Em reg).
    { unfold first. destruct (Store.isDirtyAt reg p || force);
        [ apply routeDraw_frame | reflexivity ]. }
    destruct first as [reg1 redrawn]. cbn [fst] in E1.
    set (reg2 := if redrawn
                 then updAt reg1 p
                        (fun w0 => with_children w0
                           (map (fun child =>
                                   setState child
                                     (Z.lor (getState child) STA_DIRTY))
                              (_children w0)))
                 else reg1).
    assert (E2 : Em reg2 = Em reg).
    { unfold reg2. destruct redrawn; [ | exact E1 ].
      rewrite eraseWith_updAt_same; [ exact E1 | ].
      apply eraseWith_dirtyChildren. }
    destruct (forIndices_inv
      (fun (i : nat) (s : list Window * bool) => Em (fst s) = Em reg)
      (fun i (s : list Window * bool) =>
         let (r, childRedrawn) := s in
         if Store.isDirtyAt r (p ++ [i]) || force then
           match Store.redraw disp Window_hooks f r (p ++ [i]) force with
           | None => None
           | Some (r', true) => Some (r', true)
           | Some (r', false) => Some (r', childRedrawn)
           end
         else Some (r, childRedrawn))
      (childCountAt reg2 p) 0 (reg2, false)) as ((reg3 & cr) & Hloop & E3).
    + exact E2.
    + intros i [r crd] _ Er. cbn [fst] in *.
      destruct (Store.isDirtyAt r (p ++ [i]) || force);
        [ | eexists; split; [ reflexivity | exact Er ] ].
      destruct (IHf r (p ++ [i]) force) as (r' & b & Hr & Er').
      { intros c Hc.
        destruct (erased_depth_at r reg (p ++ [i]) c Er Hc) as (c0 & Hc0 & <-).
        rewrite (getAt_snoc reg p i w Hg) in Hc0.
        pose proof (depth_child w c0 i Hc0). lia. }
      rewrite Hr. destruct b; eexists; (split; [ reflexivity | ]);
        cbn [fst]; congruence.
    + rewrite Hloop. eexists _, _. split; [ reflexivity | exact E3 ].
Qed.

Lemma setDirty_frame fuel reg p dirty redrawWindow :
  (forall w, getAt reg p = Some w -> (depth w <= fuel)%nat) ->
  exists reg' b,
    Store.setDirty disp Window_hooks fuel reg p dirty redrawWindow
      = Some (reg', b) /\
    Em reg' = Em reg.
Proof.
  intros Hd. unfold Store.setDirty. destruct dirty.
  - set (reg1 := updAt reg p
                   (fun w => setState w (Z.lor (getState w) STA_DIRTY))).
    assert (E1 : Em reg1 = Em reg).
    { apply eraseWith_updAt_same. apply eraseWith_setDirtyBit. }
    destruct redrawWindow; [ | now exists reg1, true ].
    destruct (redraw_frame fuel reg1 p false) as (reg' & b & Hr & Er).
    { intros c Hc.
      destruct (erased_depth_at reg1 reg p c E1 Hc) as (c0 & Hc0 & <-).
      now apply Hd. }
    exists reg', b. split; [ exact Hr | congruence ].
  - eexists _, _. split; [ reflexivity | ].
    apply eraseWith_updAt_same. apply eraseWith_clearDirtyBit.
Qed.

End EraseWithFacts.

(** ** processQueue on windows of class Window *)

Lemma noState_blind s :
  noState (to_u16 (Z.lor s STA_DIRTY)) = noState s /\
  noState (to_u16 (Z.land s (Z.lnot STA_DIRTY))) = noState s.
Proof. split; reflexivity. Qed.

Lemma eraseWith_noState_setState w s :
  eraseWith noState (setState w s) = eraseWith noState w.
Proof. now destruct w. Qed.

Lemma eraseWith_queue m w : _queue (eraseWith m w) = _queue w.
Proof. now destruct w. Qed.

Lemma eraseWith_with_queue m w q :
  eraseWith m (with_queue w q) = with_queue (eraseWith m w) q.
Proof. now destruct w. Qed.

Lemma eraseWith_popAll m w : eraseWith m (popAll w) = popAll (eraseWith m w).
Proof.
  induction w as [i p s st r d z q c IHc] using Window_tree_ind.
  cbn [popAll eraseWith getID getParent getStyle getState getRect
       getDirtyRect getZOrder _queue _children].
  f_equal. rewrite !map_map. apply map_ext_in. intros a Ha.
  rewrite Forall_forall in IHc. now apply IHc.
Qed.

Lemma queueAsserts_unfold w :
  queueAsserts w =
  getClientRect_asserts w && forallb (messageAsserts w) (_queue w) &&
  forallb queueAsserts (_children w).
Proof. now destruct w. Qed.

Lemma queueAsserts_eraseWith m w :
  queueAsserts (eraseWith m w) = queueAsserts w.
Proof.
  induction w as [i p s st r d z q c IHc] using Window_tree_ind.
  rewrite !queueAsserts_unfold.
  cbn [eraseWith getID getParent getStyle getState getRect getDirtyRect
       getZOrder _queue _children].
  f_equal.
  induction c as [ | a c IH ]; [ reflexivity | ].
  inversion IHc as [ | ? ? Ha Hc ]; subst. cbn [map forallb].
  now rewrite Ha, IH.
Qed.

Lemma forallb_tl {A : Type} (f : A -> bool) (l : list A) :
  forallb f l = true -> forallb f (tl l) = true.
Proof.
  destruct l as [ | a l ]; [ easy | ]. cbn [forallb tl].
  now intros (_ & H)%andb_true_iff.
Qed.

Lemma queueAsserts_popAll w :
  queueAsserts w = true -> queueAsserts (popAll w) = true.
Proof.
  induction w as [i p s st r d z q c IHc] using Window_tree_ind.
  rewrite !queueAsserts_unfold.
  cbn [popAll getID getParent getStyle getState getRect getDirtyRect
       getZOrder _queue _children].
  intros ((Hc & Hq)%andb_true_iff & Hch)%andb_true_iff.
  rewrite !andb_true_iff. split; [ split | ].
  - exact Hc.
  - now apply (forallb_tl (messageAsserts (mkWindow i p s st r d z q c))).
  - rewrite forallb_forall in Hch. apply forallb_forall.
    intros x (y & <- & Hy)%in_map_iff.
    rewrite Forall_forall in IHc. apply IHc; [ exact Hy | now apply Hch ].
Qed.

Lemma queueAsserts_child w c i :
  queueAsserts w = true -> nth_error (_children w) i = Some c ->
  queueAsserts c = true.
Proof.
  rewrite queueAsserts_unfold. intros (_ & Hch)%andb_true_iff Hn.
  rewrite forallb_forall in Hch. apply Hch. eapply nth_error_In, Hn.
Qed.

(** A message that passes [messageAsserts] is not [MSG_NONE], and is a tap
    when it is an input. *)
Lemma messageAsserts_routable w pm :
  messageAsserts w pm = true ->
  msg pm <> MSG_NONE /\
  (msg pm = MSG_INPUT -> (getMsgParamLoWord (p1 pm) =? INPUT_TAP) = true).
Proof.
  unfold messageAsserts. destruct (msg pm); intros Hm;
    (split; [ discriminate | intros E; try discriminate E; exact Hm ]).
Qed.

Section QueueFacts.

Variable disp : Rect.

Local Abbreviation E0 := (map (eraseWith noState)).

Lemma routeMessage_frame fuel reg p m p1 p2 :
  (forall w, getAt reg p = Some w -> (depth w <= fuel)%nat) ->
  m <> MSG_NONE ->
  (m = MSG_INPUT -> (getMsgParamLoWord p1 =? INPUT_TAP) = true) ->
  exists reg' b,
    Store.routeMessage disp Window_hooks fuel reg p m p1 p2 = Some (reg', b) /\
    E0 reg' = E0 reg.
Proof.
  intros Hd Hnone Htap.
  assert (Hfin : forall (r : list Window) (handled : bool),
            E0 r = E0 reg ->
            exists reg' b,
              match Store.setDirty disp Window_hooks fuel r p true true with
              | None => None
              | Some (r', _) => Some (r', handled)
              end = Some (reg', b) /\ E0 reg' = E0 reg).
  { intros r handled Er.
    destruct (setDirty_frame noState noState_blind disp fuel r p true true)
      as (r' & b & -> & Er').
    - intros c Hc.
      destruct (erased_depth_at noState r reg p c Er Hc) as (c0 & Hc0 & <-).
      now apply Hd.
    - exists r', handled. split; [ reflexivity | congruence ]. }
  unfold Store.routeMessage. destruct m.
  - now contradiction Hnone.
  - cbn [onCreate Window_hooks].
    apply Hfin. rewrite eraseWith_updAt_same; [ reflexivity | ].
    intros x. apply eraseWith_noState_setState.
  - cbn [onDestroy Window_hooks]. eexists _, _. split; [ reflexivity | ].
    apply eraseWith_updAt_same. intros x. apply eraseWith_noState_setState.
  - pose proof (routeDraw_frame noState noState_blind disp reg p p1 p2) as Hr.
    destruct (Store.routeDraw disp Window_hooks reg p p1 p2) as [reg1 handled].
    now exists reg1, handled.
  - cbn [onPostDraw Window_hooks].
    pose proof (postDraw_frame noState reg p p1 p2) as Hr.
    destruct (Window_onPostDraw reg p p1 p2) as [reg1 handled].
    now exists reg1, handled.
  - unfold Store.onInput. rewrite (Htap eq_refl).
    cbn [onTapped Window_hooks]. now exists reg, false.
  - cbn [onEvent Window_hooks]. now exists reg, true.
  - cbn [onResize Window_hooks]. now exists reg, false.
Qed.

Lemma popFront_children w : _children (popFront w) = _children w.
Proof. now destruct w. Qed.

Lemma popAll_split w :
  with_children (popFront w) (map popAll (_children w)) = popAll w.
Proof. now destruct w. Qed.

Lemma processQueue_pops fuel :
  forall reg p w,
    getAt reg p = Some w -> (depth w < fuel)%nat ->
    queueAsserts w = true ->
    exists reg',
      Store.processQueue disp Window_hooks fuel reg p =
        Some (reg', negb (match tl (_queue w) with [] => true | _ :: _ => false end)) /\
      E0 reg' = updAt (E0 reg) p popAll.
Proof.
  induction fuel as [ | f IHf ]; intros reg p w Hg Hd Hqa; [ lia | ].
  assert (Hp : p <> []) by (intros ->; discriminate).
  set (ew := eraseWith noState w).
  assert (HqaE : queueAsserts ew = true)
    by (unfold ew; now rewrite queueAsserts_eraseWith).
  assert (HgE : getAt (E0 reg) p = Some ew)
    by now rewrite getAt_eraseWith, Hg.
  cbn [Store.processQueue]. rewrite Hg.
  (* the message of the window itself *)
  assert (HA : exists reg1,
    match _queue w with
    | [] => Some reg
    | pm :: rest =>
        match Store.routeMessage disp Window_hooks f
                (updAt reg p (fun w0 => with_queue w0 rest)) p
                (msg pm) (p1 pm) (p2 pm) with
        | None => None
        | Some (reg', _) => Some reg'
        end
    end = Some reg1 /\ E0 reg1 = updAt (E0 reg) p popFront).
  { destruct (_queue w) as [ | pm rest ] eqn:Eq.
    - exists reg. split; [ reflexivity | ]. symmetry.
      rewrite (updAt_ext_at (E0 reg) p popFront (fun x => x) ew HgE);
        [ now apply updAt_id | ].
      unfold popFront, ew. rewrite eraseWith_queue, Eq. cbn [tl].
      rewrite <- Eq, <- (eraseWith_queue noState w). now destruct (eraseWith noState w).
    - set (regq := updAt reg p (fun w0 => with_queue w0 rest)).
      assert (Eq' : E0 regq = updAt (E0 reg) p popFront).
      { unfold regq.
        rewrite (eraseWith_updAt noState reg p _ (fun x => with_queue x rest))
          by (intros x; apply eraseWith_with_queue).
        apply updAt_ext_at with (w := ew); [ exact HgE | ].
        unfold popFront, ew. now rewrite eraseWith_queue, Eq. }
      assert (Hpm : messageAsserts w pm = true).
      { rewrite queueAsserts_unfold, Eq in Hqa. cbn [forallb] in Hqa.
        rewrite !andb_true_iff in Hqa. tauto. }
      destruct (messageAsserts_routable w pm Hpm) as (Hnone & Htap).
      destruct (routeMessage_frame f regq p (msg pm) (p1 pm) (p2 pm))
        as (reg1 & b & -> & E1); [ | exact Hnone | exact Htap | ].
      + intros c Hc.
        assert (Hgq : getAt regq p = Some (with_queue w rest)).
        { unfold regq. now rewrite getAt_updAt_same, Hg. }
        assert (c = with_queue w rest) by congruence. subst c.
        assert (Hdq : depth (with_queue w rest) = depth w)
          by (rewrite !depth_unfold; now destruct w).
        lia.
      + exists reg1. split; [ reflexivity | congruence ]. }
  destruct HA as (reg1 & -> & E1).
  (* the children, one after the other *)
  set (F := fun i x =>
              with_children (popFront x) (mapFirst i popAll (_children x))).
  assert (G1 : getAt (E0 reg1) p = Some (popFront ew)).
  { now rewrite E1, getAt_updAt_same, HgE. }
  assert (Hn : childCountAt reg1 p = length (_children w)).
  { unfold childCountAt. rewrite getAt_eraseWith in G1.
    destruct (getAt reg1 p) as [ y | ]; [ | discriminate ].
    injection G1 as G1.
    apply (f_equal _children) in G1.
    rewrite eraseWith_children, popFront_children in G1. unfold ew in G1.
    rewrite eraseWith_children in G1.
    apply (f_equal (@length Window)) in G1. now rewrite !length_map in G1. }
  destruct (forIndices_inv
    (fun i (r : list Window) => E0 r = updAt (E0 reg) p (F i))
    (fun i r =>
       match Store.processQueue disp Window_hooks f r (p ++ [i]) with
       | None => None
       | Some (r', _) => Some r'
       end)
    (length (_children w)) 0 reg1) as (reg2 & Hloop & E2).
  { rewrite E1. apply updAt_ext. intros x. unfold F.
    rewrite mapFirst_0. rewrite <- (popFront_children x).
    symmetry. apply with_children_same. }
  { intros i r Hi Er.
    assert (Gi : getAt (E0 r) (p ++ [i]) = nth_error (_children ew) i).
    { rewrite Er. erewrite getAt_snoc;
        [ | rewrite getAt_updAt_same, HgE; reflexivity ].
      unfold F. rewrite with_children_children. apply nth_error_mapFirst. }
    assert (Hlen : length (_children ew) = length (_children w)).
    { unfold ew. now rewrite eraseWith_children, length_map. }
    destruct (nth_error (_children ew) i) as [ ce | ] eqn:En.
    2:{ apply nth_error_None in En. lia. }
    rewrite getAt_eraseWith in Gi.
    destruct (getAt r (p ++ [i])) as [ c | ] eqn:Gc; [ | discriminate ].
    injection Gi as Gi.
    assert (Hdc : (depth c < f)%nat).
    { rewrite <- (depth_eraseWith noState c), Gi.
      pose proof (depth_child ew ce i En) as Hlt.
      unfold ew in Hlt. rewrite depth_eraseWith in Hlt. lia. }
    assert (Hqc : queueAsserts c = true).
    { rewrite <- (queueAsserts_eraseWith noState c), Gi.
      exact (queueAsserts_child ew ce i HqaE En). }
    destruct (IHf r (p ++ [i]) c Gc Hdc Hqc) as (r' & -> & Er').
    eexists. split; [ reflexivity | ].
    rewrite Er', Er, (updAt_snoc _ p i _ Hp), updAt_updAt.
    apply updAt_ext. intros x. unfold F.
    rewrite with_children_twice, with_children_children.
    now rewrite mapFirst_step. }
  rewrite Hn, Hloop. cbn [Nat.add] in E2.
  assert (E2' : E0 reg2 = updAt (E0 reg) p popAll).
  { rewrite E2. apply updAt_ext_at with (w := ew); [ exact HgE | ].
    unfold F. rewrite mapFirst_all; [ apply popAll_split | ].
    unfold ew. rewrite eraseWith_children, length_map. lia. }
  assert (G2 : getAt (E0 reg2) p = Some (popAll ew))
    by now rewrite E2', getAt_updAt_same, HgE.
  rewrite getAt_eraseWith in G2.
  destruct (getAt reg2 p) as [ w2 | ]; [ | discriminate ].
  injection G2 as G2.
  assert (Hq2 : _queue w2 = tl (_queue w)).
  { apply (f_equal _queue) in G2. rewrite eraseWith_queue in G2.
    rewrite G2. unfold ew. destruct w; reflexivity. }
  rewrite Hq2. exists reg2. split; [ reflexivity | exact E2' ].
Qed.

Lemma depth_popAll w : depth (popAll w) = depth w.
Proof.
  induction w as [i p s st r d z q c IHc] using Window_tree_ind.
  rewrite !depth_unfold. cbn [popAll _children]. f_equal.
  unfold maxDepth. induction c as [ | a c IH ]; [ reflexivity | ].
  inversion IHc; subst. cbn [map fold_right]. rewrite IH by assumption.
  now f_equal.
Qed.

Lemma popped_window_at reg reg' p w :
  getAt reg p = Some w -> E0 reg' = updAt (E0 reg) p popAll ->
  exists w', getAt reg' p = Some w' /\ _queue w' = tl (_queue w) /\
             depth w' = depth w /\
             (queueAsserts w = true -> queueAsserts w' = true).
Proof.
  intros Hg He.
  assert (G : getAt (E0 reg') p = Some (popAll (eraseWith noState w))).
  { now rewrite He, getAt_updAt_same, getAt_eraseWith, Hg. }
  rewrite getAt_eraseWith in G.
  destruct (getAt reg' p) as [ w' | ]; [ | discriminate ].
  injection G as G. exists w'. split; [ reflexivity | ].
  split; [ | split ].
  - apply (f_equal _queue) in G. rewrite eraseWith_queue in G.
    rewrite G. now destruct w.
  - rewrite <- (depth_eraseWith noState w'), G, depth_popAll.
    apply depth_eraseWith.
  - intros Hqa. rewrite <- (queueAsserts_eraseWith noState w'), G.
    apply queueAsserts_popAll. now rewrite queueAsserts_eraseWith.
Qed.

Lemma drainQueue_pops fuel rounds :
  forall reg p w,
    getAt reg p = Some w -> (depth w < fuel)%nat ->
    queueAsserts w = true ->
    (length (_queue w) <= rounds)%nat -> (1 <= rounds)%nat ->
    exists reg',
      Store.drainQueue disp Window_hooks rounds fuel reg p = Some reg' /\
      E0 reg' =
        updAt (E0 reg) p (Nat.iter (Nat.max 1 (length (_queue w))) popAll).
Proof.
  induction rounds as [ | n IHn ]; intros reg p w Hg Hd Hqa Hlen Hone;
    [ lia | ].
  cbn [Store.drainQueue].
  destruct (processQueue_pops fuel reg p w Hg Hd Hqa) as (reg1 & -> & E1).
  destruct (popped_window_at reg reg1 p w Hg E1)
    as (w1 & Hg1 & Hq1 & Hd1 & Hqa1).
  destruct (_queue w) as [ | pm [ | pm' rest ] ] eqn:Eq; cbn [tl negb].
  - exists reg1. split; [ reflexivity | exact E1 ].
  - exists reg1. split; [ reflexivity | exact E1 ].
  - cbn [tl] in Hq1. cbn [length] in Hlen.
    destruct (IHn reg1 p w1 Hg1 ltac:(lia) (Hqa1 Hqa)) as (reg2 & -> & E2).
    + rewrite Hq1. cbn [length]. lia.
    + lia.
    + exists reg2. split; [ reflexivity | ].
      rewrite E2, E1, updAt_updAt, Hq1. cbn [length].
      apply updAt_ext. intros x.
      replace (Nat.max 1 (S (length rest))) with (S (length rest)) by lia.
      replace (Nat.max 1 (S (S (length rest)))) with (S (S (length rest)))
        by lia.
      now rewrite (Nat.iter_succ_r (S (length rest))).
Qed.

End QueueFacts.





(** ** Window: setStyle, setRect, show, hide *)

Lemma testbit_u16_any s n :
  0 <= n -> Z.testbit (to_u16 s) n = (n <? 16) && Z.testbit s n.
Proof.
  intros Hn. unfold to_u16. change 65536 with (2 ^ 16).
  destruct (Z.ltb_spec n 16).
  - now rewrite Z.mod_pow2_bits_low by lia.
  - now rewrite Z.mod_pow2_bits_high by lia.
Qed.

Lemma noDirtyBit_blind s :
  noDirtyBit (to_u16 (Z.lor s STA_DIRTY)) = noDirtyBit s /\
  noDirtyBit (to_u16 (Z.land s (Z.lnot STA_DIRTY))) = noDirtyBit s.
Proof.
  unfold noDirtyBit.
  split; apply Z.bits_inj'; intros n Hn;
    rewrite !Z.land_spec, !testbit_u16_any, ?Z.lor_spec, ?Z.land_spec,
      !Z.lnot_spec by lia;
    change STA_DIRTY with (2 ^ 2); rewrite !Z.pow2_bits_eqb by lia;
    destruct (Z.eqb_spec 2 n); destruct (n <? 16);
    destruct (Z.testbit s n); reflexivity.
Qed.

Section MethodFacts.

Variable m : Z -> Z.
Hypothesis Hm :
  forall s, m (to_u16 (Z.lor s STA_DIRTY)) = m s /\
            m (to_u16 (Z.land s (Z.lnot STA_DIRTY))) = m s.
Variable disp : Rect.

Local Abbreviation Em := (map (eraseWith m)).

Lemma eraseWith_with_style w s :
  eraseWith m (with_style w s) = with_style (eraseWith m w) s.
Proof. now destruct w. Qed.

Lemma eraseWith_with_rect w r :
  eraseWith m (with_rect w r) = with_rect (eraseWith m w) r.
Proof. now destruct w. Qed.

Lemma eraseWith_setDirtyRect reg rect :
  Em (Store.setDirtyRect disp reg rect) = Em reg.
Proof.
  unfold Store.setDirtyRect. rewrite map_map. apply map_ext. intros w.
  destruct (negb (isDrawable disp [] w)); [ reflexivity | ].
  destruct (intersectsRect (getRect w) rect); [ | reflexivity ].
  apply eraseWith_markRectDirty.
Qed.

Lemma depth_same_children w w' :
  _children w' = _children w -> depth w' = depth w.
Proof. intros Hc. now rewrite !depth_unfold, Hc. Qed.

(** An update of the window at [p] that keeps its children, followed by
    [setDirty(true)]. *)
Lemma update_then_setDirty fuel reg p w f :
  getAt reg p = Some w -> (depth w <= fuel)%nat ->
  (forall x, _children (f x) = _children x) ->
  (forall x, eraseWith m (f x) = f (eraseWith m x)) ->
  exists reg' b,
    Store.setDirty disp Window_hooks fuel (updAt reg p f) p true true =
      Some (reg', b) /\
    Em reg' = updAt (Em reg) p f.
Proof.
  intros Hg Hd Hch Hcomm.
  destruct (setDirty_frame m Hm disp fuel (updAt reg p f) p true true)
    as (reg' & b & Hs & He).
  - intros c Hc. rewrite getAt_updAt_same, Hg in Hc. injection Hc as <-.
    rewrite (depth_same_children w (f w)) by apply Hch. exact Hd.
  - exists reg', b. split; [ exact Hs | ].
    rewrite He. now apply eraseWith_updAt.
Qed.

Lemma setStyle_frame fuel reg p w style :
  getAt reg p = Some w -> (depth w <= fuel)%nat ->
  exists reg',
    Store.setStyle disp Window_hooks fuel reg p style = Some reg' /\
    Em reg' = updAt (Em reg) p (fun x => with_style x style).
Proof.
  intros Hg Hd. unfold Store.setStyle. rewrite Hg.
  destruct (Z.eqb_spec (to_u16 style) (getStyle w)) as [He | Hne]; cbn [negb].
  - exists reg. split; [ reflexivity | ]. symmetry.
    rewrite (updAt_ext_at (Em reg) p _ (fun x => x) (eraseWith m w)).
    + now apply updAt_id.
    + now rewrite getAt_eraseWith, Hg.
    + destruct w as [wi wp ws wst wr wd wz wq wc].
      cbn [getStyle] in He. unfold with_style.
      cbn [eraseWith getID getParent getStyle getState getRect getDirtyRect
           getZOrder _queue _children].
      now rewrite He.
  - destruct (update_then_setDirty fuel reg p w (fun x => with_style x style)
                Hg Hd) as (reg' & b & -> & He).
    + now intros [].
    + intros x. apply eraseWith_with_style.
    + now exists reg'.
Qed.

Lemma setRect_frame fuel reg p w rect :
  getAt reg p = Some w -> (depth w <= fuel)%nat ->
  exists reg',
    WindowMethods.setRect disp Window_hooks fuel reg p rect = Some reg' /\
    Em reg' = updAt (Em reg) p (fun x => with_rect x rect).
Proof.
  intros Hg Hd. unfold WindowMethods.setRect. rewrite Hg.
  destruct (Rect_eqb rect (getRect w)) eqn:He; cbn [negb].
  - exists reg. split; [ reflexivity | ]. symmetry.
    rewrite (updAt_ext_at (Em reg) p _ (fun x => x) (eraseWith m w)).
    + now apply updAt_id.
    + now rewrite getAt_eraseWith, Hg.
    + unfold Rect_eqb in He.
      apply andb_true_iff in He as [He H4].
      apply andb_true_iff in He as [He H3].
      apply andb_true_iff in He as [H1 H2].
      apply Z.eqb_eq in H1, H2, H3, H4.
      destruct w as [wi wp ws wst wr wd wz wq wc], rect as [l t r b], wr.
      cbn in *. now subst.
  - destruct (update_then_setDirty fuel reg p w (fun x => with_rect x rect)
                Hg Hd) as (reg' & b & -> & He').
    + now intros [].
    + intros x. apply eraseWith_with_rect.
    + now exists reg'.
Qed.

End MethodFacts.



Lemma hidden_style_toplevel s :
  bitsHigh (to_u16 (Z.land s (Z.lnot STY_VISIBLE))) STY_TOPLEVEL =
  bitsHigh s STY_TOPLEVEL.
Proof.
  unfold bitsHigh. f_equal. apply Z.bits_inj'. intros n Hn.
  rewrite !Z.land_spec, testbit_u16_any, Z.land_spec, Z.lnot_spec by lia.
  change STY_TOPLEVEL with (Z.lor (Z.lor (2 ^ 4) (2 ^ 2)) (2 ^ 3)).
  change STY_VISIBLE with (2 ^ 0).
  rewrite !Z.lor_spec, !Z.pow2_bits_eqb by lia.
  assert (Hc : n = 0 \/ n = 2 \/ n = 3 \/ n = 4 \/
               (n <> 0 /\ n <> 2 /\ n <> 3 /\ n <> 4)) by lia.
  destruct Hc as [-> | [-> | [-> | [-> | (H0 & H2 & H3 & H4)]]]];
    try (cbn -[Z.testbit]; destruct (Z.testbit s _); reflexivity).
  rewrite !(proj2 (Z.eqb_neq _ _)) by lia.
  cbn [orb negb]. now rewrite !andb_false_r.
Qed.

Lemma shown_style_restored s :
  0 <= s < 65536 -> Z.testbit s 0 = true ->
  to_u16 (Z.lor (to_u16 (Z.land s (Z.lnot STY_VISIBLE))) STY_VISIBLE) = s.
Proof.
  intros Hs Hb.
  assert (Es : to_u16 s = s) by (unfold to_u16; apply Z.mod_small; lia).
  transitivity (to_u16 s); [ | exact Es ]. apply Z.bits_inj'. intros n Hn.
  rewrite !testbit_u16_any, Z.lor_spec, testbit_u16_any, Z.land_spec,
    Z.lnot_spec by lia.
  change STY_VISIBLE with (2 ^ 0). rewrite !Z.pow2_bits_eqb by lia.
  destruct (Z.eq_dec n 0) as [-> | Hne].
  - cbn -[Z.testbit]. now rewrite Hb.
  - rewrite !(proj2 (Z.eqb_neq _ _)) by lia. cbn [negb].
    rewrite orb_false_r, andb_true_r.
    now destruct (n <? 16), (Z.testbit s n).
Qed.

Lemma isVisible_eraseWith m w : isVisible (eraseWith m w) = isVisible w.
Proof. now destruct w. Qed.

Lemma getStyle_eraseWith m w : getStyle (eraseWith m w) = getStyle w.
Proof. now destruct w. Qed.

Lemma erased_at m reg reg' p f w :
  getAt reg p = Some w ->
  map (eraseWith m) reg' = updAt (map (eraseWith m) reg) p f ->
  exists w', getAt reg' p = Some w' /\ eraseWith m w' = f (eraseWith m w).
Proof.
  intros Hg He.
  assert (G : getAt (map (eraseWith m) reg') p = Some (f (eraseWith m w))).
  { now rewrite He, getAt_updAt_same, getAt_eraseWith, Hg. }
  rewrite getAt_eraseWith in G.
  destruct (getAt reg' p) as [ w' | ]; [ | discriminate ].
  injection G as G. now exists w'.
Qed.

Lemma eraseWith_hiddenWindow s x :
  eraseWith noDirtyBit (hiddenWindow s x) =
  with_style (eraseWith noDirtyBit x) (Z.land s (Z.lnot STY_VISIBLE)).
Proof.
  destruct x as [xi xp xs xst xr xd xz xq xc]. unfold hiddenWindow, with_style.
  cbn [setState eraseWith getID getParent getStyle getState getRect
       getDirtyRect getZOrder _queue _children].
  now rewrite (proj1 (noDirtyBit_blind xst)).
Qed.

Lemma show_unfold_child disp H fuel reg p w :
  getAt reg p = Some w ->
  bitsHigh (getStyle w) STY_TOPLEVEL = false -> isVisible w = false ->
  WindowMethods.show disp H fuel reg p =
  match Store.setStyle disp H fuel reg p (Z.lor (getStyle w) STY_VISIBLE) with
  | None => None
  | Some reg2 =>
      match Store.setDirty disp H fuel reg2 p true true with
      | None => None
      | Some (reg3, b) => Some (reg3, p, b)
      end
  end.
Proof.
  intros Hg Htop Hvis. unfold WindowMethods.show.
  rewrite Hg, Htop, Hvis. cbn [negb andb]. now rewrite Hg.
Qed.



Lemma show_unfold_toplevel disp H fuel reg p w c w1 :
  getAt reg p = Some w ->
  bitsHigh (getStyle w) STY_TOPLEVEL = true ->
  WindowContainer.setForegroundWindow reg w = (c, true) ->
  getAt c [pred (length c)] = Some w1 ->
  WindowMethods.show disp H fuel reg p =
  match Store.setStyle disp H fuel c [pred (length c)]
          (Z.lor (getStyle w1) STY_VISIBLE) with
  | None => None
  | Some reg2 =>
      match Store.setDirty disp H fuel reg2 [pred (length c)] true true with
      | None => None
      | Some (reg3, b) => Some (reg3, [pred (length c)], b)
      end
  end.
Proof.
  intros Hg Htop Hfg Hg1. unfold WindowMethods.show.
  rewrite Hg, Htop, Hfg. cbn [negb andb]. now rewrite Hg1.
Qed.

Lemma nth_error_recalc c :
  forall k n w, nth_error c n = Some w ->
    exists z, nth_error (recalculateZOrder_from k c) n = Some (setZOrder w z).
Proof.
  induction c as [ | x c IH ]; intros k [ | n ] w Hn; try discriminate.
  - injection Hn as ->. now exists k.
  - cbn [recalculateZOrder_from nth_error]. now apply IH.
Qed.

Lemma map_update_nth_same {A B : Type} (g : A -> B) (f : A -> A) l n :
  (forall x, g (f x) = g x) -> map g (update_nth n f l) = map g l.
Proof.
  intros Hf. revert n. induction l as [ | a l IH ]; intros [ | n ]; cbn;
    try reflexivity; [ now rewrite Hf | now rewrite IH ].
Qed.

Lemma ids_eraseWith m r : ids (map (eraseWith m) r) = ids r.
Proof. unfold ids. rewrite map_map. apply map_ext. now intros []. Qed.

Lemma zOrders_eraseWith m r : zOrders (map (eraseWith m) r) = zOrders r.
Proof. unfold zOrders. rewrite map_map. apply map_ext. now intros []. Qed.

Lemma same_id_same_index (reg a c : list Window) (x w : Window) (i : nat) :
  NoDup (ids reg) -> reg = a ++ x :: c -> getID x = getID w ->
  nth_error reg i = Some w -> i = length a /\ x = w.
Proof.
  intros Hnd Hreg Hid Hi.
  assert (Hx : nth_error reg (length a) = Some x).
  { rewrite Hreg, nth_error_app2, Nat.sub_diag by lia. reflexivity. }
  assert (Hii : i = length a).
  { apply (proj1 (NoDup_nth_error (ids reg)) Hnd).
    - unfold ids. rewrite length_map. apply nth_error_Some. congruence.
    - unfold ids. rewrite !nth_error_map, Hi, Hx. cbn. now rewrite Hid. }
  subst i. split; [ reflexivity | congruence ].
Qed.



Lemma isChecked_testbit s : bitsHigh s STA_CHECKED = Z.testbit s 1.
Proof. apply (bitsHigh_pow2 s 1). lia. Qed.

Lemma noDirtyBit_checked s : Z.testbit (noDirtyBit s) 1 = Z.testbit s 1.
Proof.
  unfold noDirtyBit.
  rewrite Z.land_spec, testbit_u16 by lia.
  change (Z.testbit (Z.lnot STA_DIRTY) 1) with true. apply andb_true_r.
Qed.

(** The state update of [setChecked] commutes with forgetting the dirty
    bit. *)
Lemma noDirtyBit_checkedState checked s :
  noDirtyBit (to_u16 (checkedState checked s)) =
  to_u16 (checkedState checked (noDirtyBit s)).
Proof.
  unfold noDirtyBit, checkedState.
  destruct checked; apply Z.bits_inj'; intros n Hn;
    rewrite ?Z.land_spec, ?testbit_u16_any, ?Z.lor_spec, ?Z.land_spec,
      ?testbit_u16_any, ?Z.lnot_spec by lia;
    change STA_DIRTY with (2 ^ 2); change STA_CHECKED with (2 ^ 1);
    rewrite !Z.pow2_bits_eqb by lia;
    destruct (Z.eqb_spec 2 n); destruct (Z.eqb_spec 1 n); try lia;
    subst; cbn [Z.ltb Z.compare Pos.compare Pos.compare_cont];
    destruct (n <? 16); destruct (Z.testbit s _); reflexivity.
Qed.

Lemma setChecked_frame disp fuel reg p w checked :
  getAt reg p = Some w -> (depth w <= fuel)%nat ->
  exists reg' w',
    WindowMethods.setChecked disp Window_hooks fuel reg p checked = Some reg' /\
    map (eraseWith noDirtyBit) reg' =
      updAt (map (eraseWith noDirtyBit) reg) p
        (fun x => setState x (checkedState checked (getState x))) /\
    getAt reg' p = Some w' /\
    WindowMethods.isChecked w' = checked.
Proof.
  intros Hg Hd.
  assert (Hcomm : forall x,
    eraseWith noDirtyBit (setState x (checkedState checked (getState x))) =
    setState (eraseWith noDirtyBit x)
      (checkedState checked (getState (eraseWith noDirtyBit x)))).
  { intros [xi xp xs xst xr xd xz xq xc].
    cbn [eraseWith setState getID getParent getStyle getState getRect
         getDirtyRect getZOrder _queue _children].
    now rewrite noDirtyBit_checkedState. }
  assert (Hbit : forall w', 
    eraseWith noDirtyBit w' =
    setState (eraseWith noDirtyBit w)
      (checkedState checked (getState (eraseWith noDirtyBit w))) ->
    WindowMethods.isChecked w' = checked).
  { intros w' Hw'. apply (f_equal getState) in Hw'.
    destruct w' as [xi xp xs xst xr xd xz xq xc].
    destruct w as [wi wp ws wst wr wd wz wq wc].
    cbn [eraseWith setState getState] in Hw'.
    unfold WindowMethods.isChecked. cbn [getState].
    rewrite isChecked_testbit, <- noDirtyBit_checked, Hw'.
    rewrite testbit_u16 by lia. unfold checkedState.
    destruct checked.
    - rewrite Z.lor_spec. apply orb_true_r.
    - rewrite Z.land_spec. apply andb_false_r. }
  unfold WindowMethods.setChecked. rewrite Hg.
  destruct (Bool.eqb (WindowMethods.isChecked w) checked) eqn:Eq; cbn [negb].
  - apply eqb_prop in Eq. exists reg, w. split; [ reflexivity | ].
    split; [ | split; [ exact Hg | exact Eq ] ].
    symmetry.
    rewrite (updAt_ext_at (map (eraseWith noDirtyBit) reg) p _ (fun x => x)
               (eraseWith noDirtyBit w)).
    + now apply updAt_id.
    + now rewrite getAt_eraseWith, Hg.
    + destruct w as [wi wp ws wst wr wd wz wq wc].
      unfold WindowMethods.isChecked in Eq. cbn [getState] in Eq.
      rewrite isChecked_testbit in Eq.
      unfold setState.
      cbn [eraseWith getID getParent getStyle getState getRect
           getDirtyRect getZOrder _queue _children].
      f_equal. unfold noDirtyBit, checkedState.
      apply Z.bits_inj'; intros n Hn.
      destruct checked;
        rewrite ?testbit_u16_any, ?Z.lor_spec, ?Z.land_spec,
          ?testbit_u16_any, ?Z.lnot_spec by lia;
        change STA_DIRTY with (2 ^ 2); change STA_CHECKED with (2 ^ 1);
        rewrite !Z.pow2_bits_eqb by lia;
        destruct (Z.eqb_spec 2 n) as [E2 | ?];
        destruct (Z.eqb_spec 1 n) as [E1 | ?]; try lia; try subst n;
        rewrite ?Eq; change (1 <? 16) with true; change (2 <? 16) with true;
        repeat match goal with
               | |- context [?a <? 16] => destruct (a <? 16)
               end;
        repeat match goal with
               | |- context [Z.testbit wst ?k] => destruct (Z.testbit wst k)
               end;
        reflexivity.
  - destruct (update_then_setDirty noDirtyBit noDirtyBit_blind disp fuel reg p w
                (fun x => setState x (checkedState checked (getState x)))
                Hg Hd) as (reg' & b & Hs & He).
    + now intros [].
    + exact Hcomm.
    + destruct (erased_at noDirtyBit reg reg' p _ w Hg He) as (w' & Hg' & Hw').
      exists reg', w'. unfold checkedState in Hs.
      destruct checked; rewrite Hs;
        (split; [ reflexivity | split; [ exact He | split; [ exact Hg' | ] ] ]);
        now apply Hbit.
Qed.





(** ** createWindow for a top-level window *)

Lemma routeCreate_parentless_ok disp fuel reg parent win :
  (depth win <= fuel)%nat ->
  exists win2,
    routeCreate_parentless disp Window_hooks fuel reg parent win =
      (reg, win2, true) /\
    eraseWith noDirtyBit win2 =
    eraseWith noDirtyBit (setState win (Z.lor (getState win) STA_ALIVE)).
Proof.
  intros Hd. unfold routeCreate_parentless, Store.routeMessage.
  cbn [onCreate Window_hooks].
  destruct (setDirty_frame noDirtyBit noDirtyBit_blind disp fuel
              (updAt [win] [0%nat]
                 (fun w => setState w (Z.lor (getState w) STA_ALIVE)))
              [0%nat] true true) as (r & b & Hs & He).
  { intros w Hw. cbn in Hw. injection Hw as <-.
    rewrite (depth_same_children win) by now destruct win. exact Hd. }
  rewrite Hs. cbn in He.
  destruct r as [ | w2 [ | ? ? ] ]; try discriminate He.
  injection He as He. now exists w2.
Qed.

Lemma to_u8_idem z : to_u8 (to_u8 z) = to_u8 z.
Proof. unfold to_u8. apply Z.mod_mod. lia. Qed.

Lemma to_u16_idem z : to_u16 (to_u16 z) = to_u16 z.
Proof. unfold to_u16. apply Z.mod_mod. lia. Qed.


